(** * Hidden-tracks generator: seed selection, rule gates and manifest features

    A shallow embedding of the seed-selection scripts of the repository
    ([killmegod.py], [v2.py], [extract_genre_seeds.py]) together with the
    properties the specification states about them.

    Modelling conventions.
    - A Python [str] is a Rocq [string]; one [ascii] stands for one code point
      of the Latin-1 range (0..255).  [str.lower], [str.strip], [\s], [\w] and
      [\b] follow Python's Unicode tables restricted to that range.
    - A Python [float] is a primitive binary64 [float]; arithmetic is IEEE-754
      round-to-nearest-even, as in CPython.
    - A [dict] read through a fixed set of keys (a track, a rule record) is a
      record; [None] or a missing key is [None] of an option type.
    - A [dict] or [set] used as a finite map or set is a [gmap] or [gset];
      a dict whose iteration order is observed is an association list.
    - The regular expressions of the source are terms of [regex], run by a
      backtracking matcher with Python's priorities (greedy, lazy, ordered
      alternation, leftmost match). *)

From Stdlib Require Import ZArith Ascii String List Bool Lia.
From Stdlib Require Import Floats.
From stdpp Require Import gmap strings list fin_maps.

Local Open Scope Z_scope.
Local Set Warnings "-clear-no-such-hyp".

(** ** Python strings over Latin-1 *)

Module Py.

Definition code (c : ascii) : N := N_of_ascii c.

Definition between (lo hi : N) (c : ascii) : bool :=
  (N.leb lo (code c) && N.leb (code c) hi)%bool.

(** [c.isspace()], which is also the class [\s] of [re] on [str] patterns. *)
Definition is_space (c : ascii) : bool :=
  (between 9 13 c || between 28 32 c || N.eqb (code c) 133 || N.eqb (code c) 160)%bool.

Definition is_digit (c : ascii) : bool := between 48 57 c.
Definition is_lower_az (c : ascii) : bool := between 97 122 c.
Definition is_upper_az (c : ascii) : bool := between 65 90 c.

(** The class [\w] of [re] on [str] patterns: alphanumerics and underscore. *)
Definition is_word (c : ascii) : bool :=
  (is_digit c || is_upper_az c || is_lower_az c || N.eqb (code c) 95
   || N.eqb (code c) 170 || between 178 179 c || N.eqb (code c) 181
   || between 185 186 c || between 188 190 c
   || between 192 214 c || between 216 246 c || between 248 255 c)%bool.

(** [c.lower()]: the upper-case letters of Latin-1 move up by 32. *)
Definition lower_char (c : ascii) : ascii :=
  if (is_upper_az c || between 192 214 c || between 216 222 c)%bool
  then ascii_of_N (code c + 32) else c.

Fixpoint smap (f : ascii -> ascii) (s : string) : string :=
  match s with
  | EmptyString => EmptyString
  | String c s' => String (f c) (smap f s')
  end.

(** [s.lower()] *)
Definition lower (s : string) : string := smap lower_char s.

(** [s.replace(a, b)] for single characters [a] and [b]. *)
Definition replace_char (a b : ascii) (s : string) : string :=
  smap (fun c => if Ascii.eqb c a then b else c) s.

Fixpoint lstrip (p : ascii -> bool) (s : string) : string :=
  match s with
  | EmptyString => EmptyString
  | String c s' => if p c then lstrip p s' else s
  end.

Fixpoint rstrip (p : ascii -> bool) (s : string) : string :=
  match s with
  | EmptyString => EmptyString
  | String c s' =>
      match rstrip p s' with
      | EmptyString => if p c then EmptyString else String c EmptyString
      | r => String c r
      end
  end.

(** [s.strip()] and [s.strip(ch)] *)
Definition strip_by (p : ascii -> bool) (s : string) : string := rstrip p (lstrip p s).
Definition strip (s : string) : string := strip_by is_space s.

Fixpoint prefixb (p s : string) : bool :=
  match p, s with
  | EmptyString, _ => true
  | String a p', String b s' => (Ascii.eqb a b && prefixb p' s')%bool
  | String _ _, EmptyString => false
  end.

(** [sub in s] for strings. *)
Fixpoint contains (sub s : string) : bool :=
  (prefixb sub s ||
   match s with
   | EmptyString => false
   | String _ s' => contains sub s'
   end)%bool.

(** Truth value of a string, and [x or default]. *)
Definition truthy (s : string) : bool :=
  match s with EmptyString => false | _ => true end.

Definition or_str (o : option string) (d : string) : string :=
  match o with
  | Some s => if truthy s then s else d
  | None => d
  end.

End Py.

(** ** Regular expressions as the source uses them *)

Module Re.

Inductive regex : Type :=
| Eps
| Chr (p : ascii -> bool)          (* one character of a class *)
| Bnd                              (* \b *)
| Cat (r1 r2 : regex)
| Alt (r1 r2 : regex)              (* r1|r2, tried left to right *)
| Opt (r : regex)                  (* r?   greedy *)
| Star (p : ascii -> bool)         (* [class]*  greedy *)
| Plus (p : ascii -> bool)         (* [class]+  greedy *)
| PlusLazy (p : ascii -> bool).    (* [class]+? lazy *)

(** A literal; with [ci] the comparison ignores case (re.IGNORECASE). *)
Definition chr_eq (ci : bool) (a : ascii) : ascii -> bool :=
  fun c => if ci then Ascii.eqb (Py.lower_char c) (Py.lower_char a) else Ascii.eqb c a.

Fixpoint lit (ci : bool) (s : string) : regex :=
  match s with
  | EmptyString => Eps
  | String a s' => Cat (Chr (chr_eq ci a)) (lit ci s')
  end.

(** [\b]: exactly one side of the position is a word character. *)
Definition at_boundary (prev : option ascii) (s : string) : bool :=
  xorb (match prev with Some c => Py.is_word c | None => false end)
       (match s with String c _ => Py.is_word c | EmptyString => false end).

(** The continuation receives the character before the position and the rest of
    the input; it answers [Some] to accept.  The first accepted path wins. *)
Definition cont (A : Type) : Type := option ascii -> string -> option A.

Fixpoint star_greedy {A} (p : ascii -> bool) (prev : option ascii) (s : string)
    (k : cont A) : option A :=
  match s with
  | String c s' =>
      if p c then
        match star_greedy p (Some c) s' k with
        | Some r => Some r
        | None => k prev s
        end
      else k prev s
  | EmptyString => k prev s
  end.

Fixpoint plus_lazy {A} (p : ascii -> bool) (prev : option ascii) (s : string)
    (k : cont A) : option A :=
  match s with
  | String c s' =>
      if p c then
        match k (Some c) s' with
        | Some r => Some r
        | None => plus_lazy p (Some c) s' k
        end
      else None
  | EmptyString => None
  end.

Fixpoint run {A} (r : regex) (prev : option ascii) (s : string) (k : cont A)
    : option A :=
  match r with
  | Eps => k prev s
  | Chr p =>
      match s with
      | String c s' => if p c then k (Some c) s' else None
      | EmptyString => None
      end
  | Bnd => if at_boundary prev s then k prev s else None
  | Cat r1 r2 => run r1 prev s (fun prev' s' => run r2 prev' s' k)
  | Alt r1 r2 =>
      match run r1 prev s k with
      | Some x => Some x
      | None => run r2 prev s k
      end
  | Opt r1 =>
      match run r1 prev s k with
      | Some x => Some x
      | None => k prev s
      end
  | Star p => star_greedy p prev s k
  | Plus p =>
      match s with
      | String c s' => if p c then star_greedy p (Some c) s' k else None
      | EmptyString => None
      end
  | PlusLazy p => plus_lazy p prev s k
  end.

(** [re.match] at the current position: the character before the end of the
    match and the unread input. *)
Definition match_here (r : regex) (prev : option ascii) (s : string)
    : option (option ascii * string) :=
  run r prev s (fun prev' s' => Some (prev', s')).

(** [re.search]: leftmost start; the result is the skipped prefix and the
    state after the match. *)
Fixpoint search_from (r : regex) (prev : option ascii) (s : string)
    : option (string * (option ascii * string)) :=
  match match_here r prev s with
  | Some m => Some (EmptyString, m)
  | None =>
      match s with
      | EmptyString => None
      | String c s' =>
          match search_from r (Some c) s' with
          | Some (pre, m) => Some (String c pre, m)
          | None => None
          end
      end
  end.

Definition search (r : regex) (s : string) : bool :=
  match search_from r None s with Some _ => true | None => false end.

(** [re.sub(r, repl, s)]: every leftmost non-overlapping match is replaced by
    the literal [repl].  The patterns substituted in the source never match the
    empty string; on an empty match this model inserts [repl] and copies one
    character. *)
Fixpoint sub_go (fuel : nat) (r : regex) (repl : string) (prev : option ascii)
    (s : string) : string :=
  match fuel with
  | O => s
  | S fuel' =>
      match search_from r prev s with
      | None => s
      | Some (pre, (prev', rest)) =>
          if Nat.eqb (String.length pre + String.length rest) (String.length s)
          then match rest with
               | EmptyString => pre +:+ repl
               | String c rest' =>
                   pre +:+ repl +:+ String c (sub_go fuel' r repl (Some c) rest')
               end
          else pre +:+ repl +:+ sub_go fuel' r repl prev' rest
      end
  end.

Definition sub (r : regex) (repl : string) (s : string) : string :=
  sub_go (S (String.length s)) r repl None s.

(** Declarative reading of a pattern: [matches r prev s prev' s'] when [r]
    can consume a prefix of [s], seen after the character [prev], and leave
    [s'] after the character [prev']. *)
Inductive matches : regex -> option ascii -> string -> option ascii -> string -> Prop :=
| M_eps prev s : matches Eps prev s prev s
| M_chr p prev c s : p c = true -> matches (Chr p) prev (String c s) (Some c) s
| M_bnd prev s : at_boundary prev s = true -> matches Bnd prev s prev s
| M_cat r1 r2 prev s prev1 s1 prev2 s2 :
    matches r1 prev s prev1 s1 -> matches r2 prev1 s1 prev2 s2 ->
    matches (Cat r1 r2) prev s prev2 s2
| M_alt_l r1 r2 prev s prev' s' :
    matches r1 prev s prev' s' -> matches (Alt r1 r2) prev s prev' s'
| M_alt_r r1 r2 prev s prev' s' :
    matches r2 prev s prev' s' -> matches (Alt r1 r2) prev s prev' s'
| M_opt_some r prev s prev' s' :
    matches r prev s prev' s' -> matches (Opt r) prev s prev' s'
| M_opt_none r prev s : matches (Opt r) prev s prev s
| M_star_nil p prev s : matches (Star p) prev s prev s
| M_star_cons p prev c s prev' s' :
    p c = true -> matches (Star p) (Some c) s prev' s' ->
    matches (Star p) prev (String c s) prev' s'
| M_plus p prev c s prev' s' :
    p c = true -> matches (Star p) (Some c) s prev' s' ->
    matches (Plus p) prev (String c s) prev' s'
| M_plus_lazy p prev c s prev' s' :
    p c = true -> matches (Star p) (Some c) s prev' s' ->
    matches (PlusLazy p) prev (String c s) prev' s'.

(** The last character of [pre], or [prev] when [pre] is empty. *)
Fixpoint last_char (prev : option ascii) (pre : string) : option ascii :=
  match pre with
  | EmptyString => prev
  | String c pre' => last_char (Some c) pre'
  end.

End Re.

(** ** Tracks *)

(** The fields of a track record that the scripts read.  A missing key, a JSON
    null and a value that [float()] or [int()] rejects are all [None]. *)
Record track : Type := Track {
  uri : option string;
  id : option string;
  name : option string;
  artists : list string;
  artist_genres : list string;
  genres : list string;
  release_year : option Z;
  popularity : option float;
  danceability : option float;
  energy : option float;
  speechiness : option float;
  acousticness : option float;
  valence : option float;
  instrumentalness : option float;
  tempo : option float
}.

Definition set_name_artists (t : track) (n : string) (a : list string) : track :=
  Track (uri t) (id t) (Some n) a (artist_genres t) (genres t) (release_year t)
        (popularity t) (danceability t) (energy t) (speechiness t)
        (acousticness t) (valence t) (instrumentalness t) (tempo t).

(** [x or y] on optional strings: the first truthy one. *)
Definition or_opt (a b : option string) : option string :=
  match a with
  | Some s => if Py.truthy s then a else b
  | None => b
  end.

(** [t.get("uri") or t.get("id")] and [t.get("id") or t.get("uri")]; a result
    that is [None] or the empty string is falsy. *)
Definition tid_uri_first (t : track) : option string := or_opt (uri t) (id t).
Definition tid_id_first (t : track) : option string := or_opt (id t) (uri t).

Definition falsy (o : option string) : bool :=
  match o with Some s => negb (Py.truthy s) | None => true end.

(** [track.get('artist_genres') or track.get('genres')] *)
Definition raw_tags (t : track) : list string :=
  match artist_genres t with
  | [] => genres t
  | l => l
  end.

(** [(t.get("artists") or [""])[0]] *)
Definition first_artist (t : track) : string :=
  match artists t with
  | [] => EmptyString
  | a :: _ => a
  end.

(** ** Feature credits and file names ([killmegod.py], lines 71-111) *)

Module Killmegod_text.
Import Re.

Definition seq (rs : list regex) : regex := fold_right Cat Eps rs.

Definition is_char (a : ascii) : ascii -> bool := fun c => Ascii.eqb c a.

(** [(?:feat\.?|ft\.?|featuring|with)] under re.IGNORECASE *)
Definition feature_word : regex :=
  Alt (Cat (lit true "feat") (Opt (Chr (is_char "."))))
 (Alt (Cat (lit true "ft") (Opt (Chr (is_char "."))))
 (Alt (lit true "featuring")
      (lit true "with"))).

(** [\s*\(?(?:feat\.?|ft\.?|featuring|with)\s+[^)]+?\)?] *)
Definition strip_features_re : regex :=
  seq [ Star Py.is_space;
        Opt (Chr (is_char "("));
        feature_word;
        Plus Py.is_space;
        PlusLazy (fun c => negb (is_char ")" c));
        Opt (Chr (is_char ")")) ].

(** [\b(feat\.?|ft\.?|featuring|with)\b] *)
Definition feature_marker_re : regex := seq [ Bnd; feature_word; Bnd ].

Definition strip_features (text : string) : string :=
  if Py.truthy text then Py.strip (sub strip_features_re "" text) else EmptyString.

Definition has_feature_marker (t : track) : bool :=
  search feature_marker_re (Py.or_str (name t) "").

Definition clean_track (t : track) : track :=
  set_name_artists t (strip_features (Py.or_str (name t) ""))
                     (map strip_features (artists t)).

(** The cleaning loop over the loaded dataset. *)
Fixpoint cleaned_tracks (tracks : list track) : list track :=
  match tracks with
  | [] => []
  | t :: rest =>
      if has_feature_marker t then cleaned_tracks rest
      else clean_track t :: cleaned_tracks rest
  end.

(** [[^a-z0-9-]] and [-+] *)
Definition unsafe_char_re : regex :=
  Chr (fun c => negb (Py.is_lower_az c || Py.is_digit c || is_char "-" c)).
Definition hyphens_re : regex := Plus (is_char "-").

(** One slug of [generate_filename]: the three assignments to [safe_artist]
    (or [safe_name]). *)
Definition slug (s : string) : string :=
  let safe := Py.replace_char " " "-" (Py.lower s) in
  let safe := sub unsafe_char_re "" safe in
  Py.strip_by (is_char "-") (sub hyphens_re "-" safe).

Definition generate_filename (artist track_name : option string) : string :=
  let artist := strip_features (Py.or_str artist "") in
  let track_name := strip_features (Py.or_str track_name "") in
  slug (Py.or_str (Some artist) "unknown") +:+ "-" +:+
  slug (Py.or_str (Some track_name) "unknown") +:+ ".json".

End Killmegod_text.

(** [generate_filename] of [v2.py] (lines 39-46): no feature stripping. *)
Definition generate_filename_v2 (artist track_name : option string) : string :=
  Killmegod_text.slug (Py.or_str artist "unknown") +:+ "-" +:+
  Killmegod_text.slug (Py.or_str track_name "unknown") +:+ ".json".

(** [generate_filename] of [extract_genre_seeds.py] (lines 10-20): no feature
    stripping, and an underscore between the slugs. *)
Definition generate_filename_extract (artist track_name : string) : string :=
  Killmegod_text.slug artist +:+ "_" +:+ Killmegod_text.slug track_name +:+ ".json".

(** *** Standalone feature tokens, declaratively *)

Definition word_opt (o : option ascii) : bool :=
  match o with Some c => Py.is_word c | None => false end.

(** A word character stands right before the end of [pre]. *)
Definition word_before (pre : string) : bool := word_opt (Re.last_char None pre).

(** A word character stands at the start of [post]. *)
Definition word_after (post : string) : bool :=
  match post with String c _ => Py.is_word c | EmptyString => false end.

(** [w] occurs in [s], ignoring case, with no word character directly before
    or after the occurrence. *)
Definition standalone (w s : string) : Prop :=
  exists pre mid post,
    s = pre +:+ mid +:+ post /\ Py.lower mid = w /\
    word_before pre = false /\ word_after post = false.

Definition feature_tokens : list string :=
  ["feat"; "feat."; "ft"; "ft."; "featuring"; "with"].

(** The four words of the marker pattern; the dot after them is optional. *)
Definition four_words : list string := ["feat"; "ft"; "featuring"; "with"].

(** The title of [t] contains a standalone feature token. *)
Definition feature_titled (t : track) : Prop :=
  exists w, w ∈ feature_tokens /\ standalone w (Py.or_str (name t) "").

(** The bundled example of the specification: artist "Beyonce " written with
    e-acute (code point 233) and a title with a feature credit. *)
Definition beyonce : string := "Beyonc" +:+ String (ascii_of_N 233) " ".
Definition crazy_in_love : string := "Crazy In Love (feat. Jay-Z)".

(** ** Genre matching ([killmegod.py] 1330-1343, [v2.py] 955-968) *)

(** [sub] occurs in [s]: the specification of Python's [sub in s]. *)
Definition substring (sub s : string) : Prop :=
  exists pre post, s = pre +:+ sub +:+ post.

(** [rf"\b{re.escape(sg)}\b"]: the escaped name matches itself literally. *)
Definition word_re (sg : string) : Re.regex :=
  Re.Cat Re.Bnd (Re.Cat (Re.lit false sg) Re.Bnd).

(** [any(exclusion.lower() in g.lower() for g in track_genres)] *)
Definition excluded_by (exclusion : string) (track_genres : list string) : bool :=
  existsb (fun g => Py.contains (Py.lower exclusion) (Py.lower g)) track_genres.

(** The global table EXCLUSIONS is a parameter of the model. *)
Definition genre_match (EXCLUSIONS : gmap string (list string))
    (search_genre : string) (track_genres : list string) : bool :=
  let excluded :=
    match EXCLUSIONS !! search_genre with
    | Some exclusions => existsb (fun e => excluded_by e track_genres) exclusions
    | None => false
    end in
  if excluded then false
  else
    let sg := Py.strip (Py.lower search_genre) in
    existsb (fun tg =>
               let t := Py.strip (Py.lower tg) in
               (String.eqb t sg || Re.search (word_re sg) t)%bool)
            track_genres.

(** EXCLUSIONS of [killmegod.py] (lines 493-500; [v2.py] has the same table). *)
Definition EXCLUSIONS_killmegod : gmap string (list string) :=
  list_to_map
    [ ("punk", ["pop punk"; "dance"; "edm"; "electro"; "big room"]);
      ("metal", ["funk metal"]);
      ("electro", ["electropop"; "pop"]);
      ("rock", ["pop rock"; "soft rock"]);
      ("folk", ["indie folk"]);
      ("funk", ["funk carioca"; "baile funk"; "brazilian funk"]) ].

(** EXCLUSIONS of [extract_genre_seeds.py] (lines 94-100), where the list of
    "punk" contains "pop". *)
Definition EXCLUSIONS_extract : gmap string (list string) :=
  list_to_map
    [ ("punk", ["pop punk"; "pop"]);
      ("metal", ["funk metal"; "nu metal"; "rap metal"]);
      ("electro", ["electropop"; "pop"]);
      ("rock", ["pop rock"; "soft rock"]);
      ("folk", ["indie folk"]) ].

(** No configured exclusion of [genre] occurs in any tag. *)
Definition no_exclusion_applies (EXCLUSIONS : gmap string (list string))
    (genre : string) (tags : list string) : Prop :=
  forall exclusions e g,
    EXCLUSIONS !! genre = Some exclusions -> e ∈ exclusions -> g ∈ tags ->
    ~ substring (Py.lower e) (Py.lower g).

(** ** Floating point as CPython computes it *)

Module Fl.

Local Open Scope float_scope.

(** [float(z)] for a Python int: the nearest binary64, ties to even. *)
Definition of_Z (z : Z) : float := SF2Prim (binary_normalize prec emax z 0 false).

(** The exact value of a finite float as [(-1)^s * m * 2^e]; [None] for
    infinities and NaN. *)
Definition exact (x : float) : option (bool * Z * Z) :=
  match Prim2SF x with
  | S754_zero s => Some (s, 0%Z, 0%Z)
  | S754_finite s m e => Some (s, Zpos m, e)
  | _ => None
  end.

(** [math.floor(x)]; [None] where Python raises. *)
Definition floor (x : float) : option Z :=
  match exact x with
  | Some (s, m, e) =>
      let v := if s then Z.opp m else m in
      Some (if (0 <=? e)%Z then v * 2 ^ e else v / 2 ^ (- e))%Z
  | None => None
  end.

(** [int(x)]: truncation toward zero; [None] where Python raises. *)
Definition trunc (x : float) : option Z :=
  match exact x with
  | Some (s, m, e) =>
      let v := if s then Z.opp m else m in
      Some (if (0 <=? e)%Z then v * 2 ^ e else Z.quot v (2 ^ (- e)))%Z
  | None => None
  end.

(** The integer nearest to [num / den], ties to even ([0 <= num], [0 < den]). *)
Definition round_half_even (num den : Z) : Z :=
  let q := (num / den)%Z in
  let r := (num mod den)%Z in
  match (2 * r ?= den)%Z with
  | Lt => q
  | Gt => (q + 1)%Z
  | Eq => if Z.even q then q else (q + 1)%Z
  end.

(** [round(x, 2)]: the exact value of [x] is rounded to two decimals, ties to
    even, and the decimal is converted back to the nearest float. *)
Definition round2 (x : float) : float :=
  match exact x with
  | Some (s, m, e) =>
      let n := if (0 <=? e)%Z then (m * 2 ^ e * 100)%Z
               else round_half_even (m * 100) (2 ^ (- e)) in
      match n with
      | Zpos p => SF2Prim (SFdiv prec emax (S754_finite s p 0) (S754_finite false 100 0))
      | _ => if s then neg_zero else zero
      end
  | None => x
  end.

(** [min(a, b)] as Python evaluates it: [b] only when [b < a]. *)
Definition min (a b : float) : float := if b <? a then b else a.

(** Truth value of a float: zero is falsy, NaN is truthy. *)
Definition truthy (x : float) : bool := negb (x =? 0).

End Fl.

(** ** Rule records *)

(** A rule record of GENRE_RULES.  An absent key and an empty list are the
    same to every reader ([rules.get(k) or []]); so are an absent and a [None]
    bound. *)
Record rule : Type := Rule {
  require_artist_genres_any : list string;
  deny_artist_genres_any : list string;
  allow_artist_genres_any : list string;
  whitelist_artists : list string;
  boost_artist_contains : list string;
  deny_name_contains : list string;
  deny_artist_contains : list string;
  min_year : option Z;
  max_year : option Z;
  popularity_min : option Z;
  popularity_max : option Z
}.

(** Truth value of an optional int: [None] and [0] are falsy. *)
Definition truthy_Z (o : option Z) : option Z :=
  match o with
  | Some z => if (z =? 0)%Z then None else Some z
  | None => None
  end.

(** [float(track.get("popularity", 0) or 0)] *)
Definition pop_or_zero (t : track) : float :=
  match popularity t with
  | Some p => if Fl.truthy p then p else 0%float
  | None => 0%float
  end.

(** [re.compile(rf'\b{re.escape(pat)}\b').search(g)] *)
Definition word_search (pat g : string) : bool := Re.search (word_re pat) g.

Definition is_nil {A} (l : list A) : bool :=
  match l with [] => true | _ => false end.

Module Killmegod_rules.

(** The tag gates of [passes_rules]: hard denies, then require-any. *)
Definition deny_hit (rules : rule) (a_gen : list string) : bool :=
  existsb (fun d => existsb (word_search (Py.lower d)) a_gen)
          (deny_artist_genres_any rules).

Definition require_ok (rules : rule) (a_gen : list string) : bool :=
  (is_nil (require_artist_genres_any rules) ||
   existsb (fun r => existsb (word_search (Py.lower r)) a_gen)
           (require_artist_genres_any rules))%bool.

Definition name_deny_hit (rules : rule) (name : string) : bool :=
  existsb (fun tk => Py.contains (Py.lower tk) name) (deny_name_contains rules).

Definition artist_deny_hit (rules : rule) (artist : string) : bool :=
  existsb (fun tk => Py.contains (Py.lower tk) artist) (deny_artist_contains rules).

Definition whitelisted (rules : rule) (artist : string) : bool :=
  existsb (fun w => Py.contains (Py.lower w) artist) (whitelist_artists rules).

(** The year gate: a year of 0 or no year at all passes. *)
Definition year_ok (rules : rule) (t : track) : bool :=
  match truthy_Z (release_year t) with
  | None => true
  | Some y =>
      (match truthy_Z (min_year rules) with
       | Some m => negb (y <? m)%Z | None => true end &&
       match truthy_Z (max_year rules) with
       | Some m => negb (m <? y)%Z | None => true end)%bool
  end.

Definition popularity_ok (rules : rule) (t : track) : bool :=
  let pop := pop_or_zero t in
  (match truthy_Z (popularity_min rules) with
   | Some m => negb (pop <? Fl.of_Z m)%float | None => true end &&
   match truthy_Z (popularity_max rules) with
   | Some m => negb (Fl.of_Z m <? pop)%float | None => true end)%bool.

(** [passes_rules] of [killmegod.py] (lines 1345-1420). *)
Definition passes_rules (GENRE_RULES : gmap string rule)
    (target_genre : string) (t : track) : bool :=
  match GENRE_RULES !! Py.lower target_genre with
  | None => true
  | Some rules =>
      let a_gen := map Py.lower (raw_tags t) in
      let artist := Py.lower (first_artist t) in
      let name := Py.lower (Py.or_str (name t) "") in
      if deny_hit rules a_gen then false
      else if negb (require_ok rules a_gen) then false
      else if name_deny_hit rules name then false
      else if artist_deny_hit rules artist then false
      else if whitelisted rules artist then true
      else if negb (year_ok rules t) then false
      else popularity_ok rules t
  end.

End Killmegod_rules.

Module V2_rules.

Definition two_overlap_genres : list string :=
  ["east coast hip hop"; "afrobeat"; "bossa nova"; "grunge"; "shoegaze"].

(** [sum(1 for r in req for g in a_gen if r in g)] *)
Definition overlap (req a_gen : list string) : nat :=
  length (flat_map (fun r => filter (fun g => Is_true (Py.contains r g)) a_gen) req).

(** [int(y) if isinstance(y, (int, str)) and str(y).isdigit() else None] on an
    int: negative years have no digit-only rendering. *)
Definition year_of (t : track) : option Z :=
  match release_year t with
  | Some y => if (0 <=? y)%Z then Some y else None
  | None => None
  end.

(** [passes_rules] of [v2.py] (lines 970-1014): no whitelist gate at all. *)
Definition passes_rules (GENRE_RULES : gmap string rule)
    (target_genre : string) (t : track) : bool :=
  match GENRE_RULES !! Py.lower target_genre with
  | None => true
  | Some rules =>
      let a_gen := map Py.lower (raw_tags t) in
      let req := map Py.lower (require_artist_genres_any rules) in
      let deny := map Py.lower (deny_artist_genres_any rules) in
      if existsb (fun g => existsb (fun d => Py.contains d g) deny) a_gen then false
      else if (negb (is_nil req) &&
               ((overlap req a_gen <? 1)%nat ||
                (bool_decide (Py.lower target_genre ∈ two_overlap_genres) &&
                 (overlap req a_gen <? 2)%nat)))%bool then false
      else
        let name := Py.lower (Py.or_str (name t) "") in
        let deny_tokens := map Py.lower (deny_name_contains rules) in
        if existsb (fun tk => Py.contains tk name) deny_tokens then false
        else
          let year_fail :=
            match year_of t with
            | Some y =>
                (match min_year rules with Some m => (y <? m)%Z | None => false end ||
                 match max_year rules with Some m => (m <? y)%Z | None => false end)%bool
            | None => false
            end in
          if year_fail then false
          else
            let pop := pop_or_zero t in
            if match popularity_min rules with
               | Some m => (pop <? Fl.of_Z m)%float | None => false end then false
            else if match popularity_max rules with
               | Some m => (Fl.of_Z m <? pop)%float | None => false end then false
            else true
  end.

End V2_rules.

(** The "shoegaze" record of [killmegod.py] (lines 527-539). *)
Definition shoegaze_rule : rule :=
  {| require_artist_genres_any :=
       ["shoegaze"; "nu gaze"; "dream pop"; "noise pop"; "space rock"; "slowcore"];
     deny_artist_genres_any :=
       ["adult standards"; "dance pop"; "electropop"; "synthpop"];
     allow_artist_genres_any := [];
     whitelist_artists :=
       ["My Bloody Valentine"; "Slowdive"; "Ride"; "Lush"; "Chapterhouse";
        "Pale Saints"; "Nothing"; "Whirr"; "Medicine"; "Catherine Wheel";
        "Cocteau Twins"; "DIIV"];
     boost_artist_contains := [];
     deny_name_contains := ["remix"; "live"; "edit"];
     deny_artist_contains := [];
     min_year := Some 1988; max_year := Some 2024;
     popularity_min := Some 15; popularity_max := Some 80 |}.

Definition shoegaze_table : gmap string rule := {[ "shoegaze" := shoegaze_rule ]}.

(** A track with nothing but an identifier, a title, one artist and tags. *)
Definition simple_track (tid title artist : string) (tags : list string)
    (year : option Z) (pop : option float) : track :=
  {| uri := Some tid; id := None; name := Some title; artists := [artist];
     artist_genres := tags; genres := []; release_year := year;
     popularity := pop; danceability := None; energy := None;
     speechiness := None; acousticness := None; valence := None;
     instrumentalness := None; tempo := None |}.

(** The scenario of the specification: Slowdive tagged "alternative rock". *)
Definition slowdive_alt_rock : track :=
  simple_track "spotify:track:slowdive-1" "Alison" "Slowdive"
               ["alternative rock"] (Some 1993) (Some 50%float).

(** The same artist with a required tag, outside the year and popularity
    windows of the rule. *)
Definition slowdive_shoegaze_old : track :=
  simple_track "spotify:track:slowdive-2" "Avalyn" "Slowdive"
               ["shoegaze"] (Some 1985) (Some 95%float).

(** ** Statistics helpers ([killmegod.py] 113-148, [v2.py] 48-85) *)

(** The outcome of a call that may raise. *)
Inductive result (A : Type) : Type :=
| Ok (a : A)
| Raised.
Arguments Ok {A} a.
Arguments Raised {A}.

Module Stats.

Local Open Scope float_scope.

(** [sorted(vals)] on floats: a stable sort that compares with [<] only.  It
    agrees with Python whenever [<] orders the values (no NaN among them). *)
Fixpoint insert_asc (x : float) (l : list float) : list float :=
  match l with
  | [] => [x]
  | y :: l' => if y <? x then y :: insert_asc x l' else x :: l
  end.

Definition sorted (vals : list float) : list float := foldr insert_asc [] vals.

(** [xs[i]] with Python's negative indices; [None] is IndexError. *)
Definition py_index {A} (xs : list A) (i : Z) : option A :=
  let n := Z.of_nat (length xs) in
  if (0 <=? i)%Z then xs !! Z.to_nat i
  else if (0 <=? n + i)%Z then xs !! Z.to_nat (n + i)
  else None.

(** [median_sorted] of [killmegod.py]; [None] is the ValueError on []. *)
Definition median_sorted (vals : list float) : option float :=
  let n := length vals in
  match n with
  | O => None
  | _ =>
      let mid := (n / 2)%nat in
      if Nat.eqb (n mod 2) 1 then vals !! mid
      else
        match vals !! (mid - 1)%nat, vals !! mid with
        | Some a, Some b => Some ((a + b) / 2)
        | _, _ => None
        end
  end.

Definition median (vals : list float) : option float := median_sorted (sorted vals).

(** [median_sorted] of [v2.py]: with an even count, the lower middle value. *)
Definition median_sorted_v2 (vals : list float) : option float :=
  let n := length vals in
  match n with
  | O => None
  | _ =>
      let mid := (n / 2)%nat in
      if Nat.eqb (n mod 2) 1 then vals !! mid else vals !! (mid - 1)%nat
  end.

Definition median_v2 (vals : list float) : option float :=
  median_sorted_v2 (sorted vals).

(** [linear_quantile(vals, q)]; the inner option is Python's [None]. *)
Definition linear_quantile (vals : list float) (q : float) : result (option float) :=
  let xs := sorted vals in
  let n := length xs in
  match xs with
  | [] => Ok None
  | [x] => Ok (Some x)
  | _ =>
      let h := Fl.of_Z (Z.of_nat n - 1) * q in
      match Fl.floor h with
      | None => Raised
      | Some i =>
          let frac := h - Fl.of_Z i in
          if (i + 1 <? Z.of_nat n)%Z then
            match py_index xs i, py_index xs (i + 1) with
            | Some a, Some b => Ok (Some (a * (1 - frac) + b * frac))
            | _, _ => Raised
            end
          else
            match py_index xs i with
            | Some a => Ok (Some a)
            | None => Raised
            end
      end
  end.

(** [clamp(x, lo, hi)] *)
Definition clamp (x lo hi : float) : float :=
  if x <? lo then lo else if hi <? x then hi else x.

(** [tempo_to_norm(bpm)] for the configured range. *)
Definition tempo_to_norm (min_bpm max_bpm bpm : float) : float :=
  clamp ((bpm - min_bpm) / (max_bpm - min_bpm)) 0 1.

(** [sround(x, 2)] on a float. *)
Definition sround (x : float) : float := Fl.round2 x.

(** [int(median_sorted(years))] on a sorted list of ints, as [killmegod.py]
    computes the median year. *)
Definition median_year (years : list Z) : option Z :=
  let n := length years in
  match n with
  | O => None
  | _ =>
      let mid := (n / 2)%nat in
      if Nat.eqb (n mod 2) 1 then
        match years !! mid with
        | Some y => Fl.trunc (Fl.of_Z y)
        | None => None
        end
      else
        match years !! (mid - 1)%nat, years !! mid with
        | Some a, Some b => Fl.trunc (Fl.of_Z (a + b) / 2)
        | _, _ => None
        end
  end.

(** [years.sort()] on ints. *)
Fixpoint insert_Z (x : Z) (l : list Z) : list Z :=
  match l with
  | [] => [x]
  | y :: l' => if (y <? x)%Z then y :: insert_Z x l' else x :: l
  end.

Definition sorted_Z (l : list Z) : list Z := foldr insert_Z [] l.

End Stats.

(** No element of the list is less than the one before it. *)
Fixpoint ascending (l : list float) : Prop :=
  match l with
  | a :: (b :: _) as rest => (b <? a)%float = false /\ ascending rest
  | _ => True
  end.

(** The values of the quantile example, and Python's [0.10] and [0.5]. *)
Definition quantile_values : list float := [10; 20; 30; 40]%float.
Definition q10 : float := Eval cbv in (1 / 10)%float.
Definition q50 : float := Eval cbv in (1 / 2)%float.

(** ** The genre tree and the shared selection helpers *)

(** A node of GENRE_TREE: the value of "_seeds" when it is a string, and the
    "subgenres" mapping in insertion order (empty when the key is absent). *)
#[warnings="-register-all"]
Inductive node : Type :=
| Node (seeds_key : option string) (subgenres : list (string * node)).

Definition SYNTHETIC : string := "__synthetic__".

(** [norm_tags(tags)]: falsy tags are skipped, the others lowered and stripped. *)
Definition norm_tags (tags : list string) : list string :=
  map (fun g => Py.strip (Py.lower g)) (filter (fun g => Is_true (Py.truthy g)) tags).

(** Membership of an optional identifier in a set of strings; [None] is in no
    set. *)
Definition in_set (o : option string) (s : gset string) : bool :=
  match o with
  | Some x => bool_decide (x ∈ s)
  | None => false
  end.

(** [s.add(tid)]; the scripts only add identifiers they have checked to be
    truthy, so [None] never reaches a set. *)
Definition add_opt (o : option string) (s : gset string) : gset string :=
  match o with
  | Some x => {[ x ]} ∪ s
  | None => s
  end.

(** [tracks_by_genre[tg].append(track)] on an insertion-ordered dict. *)
Fixpoint bucket_append (key : string) (t : track)
    (idx : list (string * list track)) : list (string * list track) :=
  match idx with
  | [] => [(key, [t])]
  | (k, l) :: rest =>
      if String.eqb k key then (k, l ++ [t]) :: rest
      else (k, l) :: bucket_append key t rest
  end.

(** The indexing loop (the same in [killmegod.py] and [v2.py]). *)
Definition index_tracks (TRACK_DENY_URIS : gset string) (tracks : list track)
    : list (string * list track) :=
  foldl (fun idx t =>
           if in_set (tid_uri_first t) TRACK_DENY_URIS then idx
           else foldl (fun idx tg => bucket_append tg t idx) idx
                      (norm_tags (raw_tags t)))
        [] tracks.

(** [list.sort(key=..., reverse=True)] on precomputed keys: stable, descending,
    comparing with [<] only. *)
Fixpoint insert_desc {A} (x : float * A) (l : list (float * A)) : list (float * A) :=
  match l with
  | [] => [x]
  | y :: l' => if (fst x <? fst y)%float then y :: insert_desc x l' else x :: l
  end.

Definition sort_desc {A} (l : list (float * A)) : list (float * A) :=
  foldr insert_desc [] l.

(** [list.sort(key=...)]: stable, ascending. *)
Fixpoint insert_by_key {A} (x : float * A) (l : list (float * A)) : list (float * A) :=
  match l with
  | [] => [x]
  | y :: l' => if (fst y <? fst x)%float then y :: insert_by_key x l' else x :: l
  end.

Definition sort_asc {A} (l : list (float * A)) : list (float * A) :=
  foldr insert_by_key [] l.

(** The seven FEATURE_FIELDS and [t.get(f)]. *)
Definition FEATURE_FIELDS : list string :=
  ["danceability"; "energy"; "speechiness"; "acousticness"; "valence";
   "popularity"; "instrumentalness"].

Definition track_get (f : string) (t : track) : option float :=
  if String.eqb f "danceability" then danceability t
  else if String.eqb f "energy" then energy t
  else if String.eqb f "speechiness" then speechiness t
  else if String.eqb f "acousticness" then acousticness t
  else if String.eqb f "valence" then valence t
  else if String.eqb f "popularity" then popularity t
  else if String.eqb f "instrumentalness" then instrumentalness t
  else if String.eqb f "tempo" then tempo t
  else None.

(** The rule record that stands for [{}]. *)
Definition no_rule : rule :=
  {| require_artist_genres_any := []; deny_artist_genres_any := [];
     allow_artist_genres_any := []; whitelist_artists := [];
     boost_artist_contains := []; deny_name_contains := [];
     deny_artist_contains := []; min_year := None; max_year := None;
     popularity_min := None; popularity_max := None |}.

(** CONFIG of [killmegod.py] (lines 22-48), without the file names. *)
Record config : Type := Config {
  seeds_per_genre : nat;
  random_seed : Z;
  min_bpm : float;
  max_bpm : float;
  score_exact_match : float;
  score_whitelist_bonus : float;
  score_boost_bonus : float;
  score_contamination_penalty : float;
  score_random_noise : float;
  pop_center : float;
  pop_plateau : float;
  pop_width : float;
  pop_weight : float
}.

Local Set Warnings "-inexact-float".

Definition CONFIG : config :=
  {| seeds_per_genre := 5; random_seed := 42;
     min_bpm := 70%float; max_bpm := 200%float;
     score_exact_match := 2.5%float; score_whitelist_bonus := 1.5%float;
     score_boost_bonus := 0.8%float; score_contamination_penalty := (-0.3)%float;
     score_random_noise := 0.05%float;
     pop_center := 69%float; pop_plateau := 5%float; pop_width := 55%float;
     pop_weight := 0.5%float |}.

(** What a run takes from outside the program text: the state of the global
    generator before the script seeds it, and the order in which a set literal
    is iterated (it depends on string hashing). *)
Record environment (rng : Type) : Type := Environment {
  ambient_rng : rng;
  set_iter : list string -> list string
}.
Arguments ambient_rng {rng} e.
Arguments set_iter {rng} e l.

(** The static tables of a script. *)
Record tables : Type := Tables {
  GENRE_TREE : list (string * node);
  GENRE_RULES : gmap string rule;
  EXCLUSIONS : gmap string (list string);
  TRACK_DENY_URIS : gset string
}.

(** ** Seed selection of [killmegod.py] *)

Module Killmegod.

Import Killmegod_rules.

Section Run.

Context {rng : Type}.
(** [random.seed(n)] and [random.random()] of the standard library. *)
Variable rng_seed : Z -> rng.
Variable rng_random : rng -> float * rng.

Variable cfg : config.
Variable tb : tables.

(** [random.seed(n)] replaces the state of the global generator. *)
Definition py_seed (n : Z) (_ : rng) : rng := rng_seed n.

(** [gather_playable_genres]: the seeds of the tree in pre-order, without the
    synthetic marker, duplicates removed. *)
Fixpoint walk_playable (n : node) : list string :=
  match n with
  | Node seed subs =>
      match seed with
      | Some s => if String.eqb s SYNTHETIC then [] else [s]
      | None => []
      end ++ flat_map (fun kv => walk_playable (snd kv)) subs
  end.

Fixpoint unique_in_order (seen : gset string) (l : list string) : list string :=
  match l with
  | [] => []
  | g :: rest =>
      if bool_decide (g ∈ seen) then unique_in_order seen rest
      else g :: unique_in_order ({[ g ]} ∪ seen) rest
  end.

Definition gather_playable_genres (tree : list (string * node)) : list string :=
  unique_in_order ∅ (flat_map (fun kv => walk_playable (snd kv)) tree).

(** [pop_component] *)
Definition pop_component (pop center plateau width weight : float) : float :=
  let delta := abs (pop - center) in
  let score :=
    (if delta <=? plateau then 1
     else if width <=? delta then 0
     else 1 - (delta - plateau) / (width - plateau))%float in
  (weight * score)%float.

Definition bad_tokens : list string := ["dance pop"; "pop"; "electropop"; "soundtrack"].

(** [proto_score]: the score and the generator after the draw.  The [None]
    of [popularity] is read as the missing key, which counts as 0; on a JSON
    null [float(None)] raises and the run ends before any result. *)
Definition proto_score (env : environment rng) (target_genre : string) (t : track)
    (g : rng) : float * rng :=
  let tags := norm_tags (raw_tags t) in
  let target := Py.lower target_genre in
  let artists := map Py.lower (artists t) in
  let exact := if existsb (fun g => String.eqb g target) tags
               then score_exact_match cfg else 0%float in
  let rules := default no_rule (GENRE_RULES tb !! target) in
  let whitelist := map Py.lower (whitelist_artists rules) in
  let boost := map Py.lower (boost_artist_contains rules) in
  let whitelist_bonus :=
    if existsb (fun a => existsb (fun w => Py.contains w a) whitelist) artists
    then score_whitelist_bonus cfg else 0%float in
  let boost_bonus :=
    if existsb (fun a => existsb (fun b => Py.contains b a) boost) artists
    then score_boost_bonus cfg else 0%float in
  let pop := default 0%float (popularity t) in
  let pop_score := pop_component pop (pop_center cfg) (pop_plateau cfg)
                                 (pop_width cfg) (pop_weight cfg) in
  let contam :=
    if existsb (fun bt => existsb (fun g => Py.contains bt g) tags)
               (set_iter env bad_tokens)
    then score_contamination_penalty cfg else 0%float in
  let allow := map Py.lower (allow_artist_genres_any rules) in
  let deny := map Py.lower (deny_artist_genres_any rules) in
  let match_bonus :=
    Fl.min 1.2%float
           (0.4 * Fl.of_Z (Z.of_nat (length (filter (fun g => g ∈ tags) allow))))%float in
  let deny_penalty :=
    (if existsb (fun d => bool_decide (d ∈ tags)) deny then -0.5 else 0)%float in
  let (u, g') := rng_random g in
  let noise := (u * score_random_noise cfg)%float in
  (exact + whitelist_bonus + boost_bonus + pop_score + contam + match_bonus
   + deny_penalty + noise, g')%float.

(** The key function is called once per element, in list order. *)
Fixpoint score_all (env : environment rng) (genre : string) (l : list track) (g : rng)
    : list (float * track) * rng :=
  match l with
  | [] => ([], g)
  | t :: rest =>
      let (s, g1) := proto_score env genre t g in
      let (scored, g2) := score_all env genre rest g1 in
      ((s, t) :: scored, g2)
  end.

(** The candidates of a genre: every bucket whose key contains the genre name
    on word boundaries, filtered by identifier, matcher and rules. *)
Definition candidates_of (idx : list (string * list track)) (genre : string)
    : list track :=
  flat_map (fun kv =>
              if word_search (Py.lower genre) (fst kv)
              then filter (fun t => Is_true
                             (negb (falsy (tid_uri_first t)) &&
                              genre_match (EXCLUSIONS tb) genre (norm_tags (raw_tags t)) &&
                              passes_rules (GENRE_RULES tb) genre t))
                          (snd kv)
              else [])
           idx.

(** [((t.get("artists") or [""])[0] or "").strip()] *)
Definition artist_stripped (t : track) : string := Py.strip (first_artist t).
Definition artist_key (t : track) : string := Py.lower (artist_stripped t).

(** The per-genre de-duplication loop. *)
Fixpoint dedupe (seen_ids seen_artists : gset string) (l : list track) : list track :=
  match l with
  | [] => []
  | t :: rest =>
      if (falsy (tid_uri_first t) || negb (Py.truthy (artist_stripped t)))%bool
      then dedupe seen_ids seen_artists rest
      else if (in_set (tid_uri_first t) seen_ids ||
               bool_decide (artist_key t ∈ seen_artists))%bool
      then dedupe seen_ids seen_artists rest
      else t :: dedupe (add_opt (tid_uri_first t) seen_ids)
                       ({[ artist_key t ]} ∪ seen_artists) rest
  end.

(** What the selection loops share and update. *)
Record state : Type := State {
  results : gmap string (list track);
  global_seen_ids : gset string;
  global_seen_artists : gset string;
  generator : rng
}.

(** The final pick: walk the sorted candidates until [seeds_per_genre] tracks
    are taken, skipping what the global sets hold. *)
Fixpoint pick_top_k (unique : list track) (top_k : list track)
    (ids artists : gset string) : list track * gset string * gset string :=
  match unique with
  | [] => (top_k, ids, artists)
  | t :: rest =>
      if (seeds_per_genre cfg <=? length top_k)%nat then (top_k, ids, artists)
      else if (in_set (tid_uri_first t) ids ||
               bool_decide (artist_key t ∈ artists))%bool
      then pick_top_k rest top_k ids artists
      else pick_top_k rest (top_k ++ [t]) (add_opt (tid_uri_first t) ids)
                      ({[ artist_key t ]} ∪ artists)
  end.

(** One iteration of the loop over PLAYABLE_GENRES. *)
Definition select_genre (env : environment rng) (idx : list (string * list track))
    (st : state) (genre : string) : state :=
  let candidates := candidates_of idx genre in
  if is_nil candidates
  then State (<[genre := []]> (results st)) (global_seen_ids st)
             (global_seen_artists st) (generator st)
  else
    let unique := dedupe ∅ ∅ candidates in
    if is_nil unique
    then State (<[genre := []]> (results st)) (global_seen_ids st)
               (global_seen_artists st) (generator st)
    else
      let (scored, g') := score_all env genre unique (generator st) in
      let sorted := map snd (sort_desc scored) in
      let '(top_k, ids, arts) :=
        pick_top_k sorted [] (global_seen_ids st) (global_seen_artists st) in
      State (<[genre := top_k]> (results st)) ids arts g'.

(** *** Seeds of the synthetic parent nodes (lines 1641-1826) *)

(** [gather_synthetic_genres]: path, display name and the real seeds of the
    direct children of every synthetic node that has such children. *)
Fixpoint walk_synthetic (n : node) (node_path node_name : string)
    : list (string * string * list string) :=
  match n with
  | Node seed subs =>
      let children_seeds :=
        flat_map (fun kv =>
                    match snd kv with
                    | Node (Some cs) _ => if String.eqb cs SYNTHETIC then [] else [cs]
                    | Node None _ => []
                    end) subs in
      (if (bool_decide (seed = Some SYNTHETIC) && negb (is_nil children_seeds))%bool
       then [(node_path, node_name, children_seeds)] else [])
      ++ flat_map (fun kv =>
                     walk_synthetic (snd kv)
                       (if Py.truthy node_path then node_path +:+ "/" +:+ fst kv
                        else fst kv)
                       (fst kv)) subs
  end.

Definition gather_synthetic_genres (tree : list (string * node))
    : list (string * string * list string) :=
  flat_map (fun kv => walk_synthetic (snd kv) (fst kv) (fst kv)) tree.

Definition fsum (l : list float) : float := foldl PrimFloat.add 0%float l.

(** [compute_aggregate_features]: the mean of every feature over the seeds of
    the children; [None] when the children have no seeds. *)
Definition compute_aggregate_features (res : gmap string (list track))
    (child_genres : list string) : option (gmap string float) :=
  let all_tracks := flat_map (fun c => default [] (res !! c)) child_genres in
  if is_nil all_tracks then None
  else
    let mean_of (vals : list float) (k : string) (m : gmap string float) :=
      if is_nil vals then m
      else <[k := (fsum vals / Fl.of_Z (Z.of_nat (length vals)))%float]> m in
    let feats :=
      foldl (fun m f => mean_of (omap (track_get f) all_tracks) f m) ∅ FEATURE_FIELDS in
    Some (mean_of (map (Stats.tempo_to_norm (min_bpm cfg) (max_bpm cfg))
                       (omap tempo all_tracks))
                  "tempo_norm" feats).

(** [feature_distance]; [x ** 2] is taken as [x * x]. *)
Definition feature_distance (t : track) (target : gmap string float) : float :=
  let step (acc : float * nat) (d : option float) : float * nat :=
    match d with
    | Some x => ((fst acc + x * x)%float, S (snd acc))
    | None => acc
    end in
  let acc :=
    foldl (fun acc f =>
             step acc (match target !! f, track_get f t with
                       | Some tv, Some v => Some (v - tv)%float
                       | _, _ => None
                       end))
          (0%float, O) FEATURE_FIELDS in
  let acc :=
    step acc (match target !! "tempo_norm", tempo t with
              | Some tv, Some bpm =>
                  Some (Stats.tempo_to_norm (min_bpm cfg) (max_bpm cfg) bpm - tv)%float
              | _, _ => None
              end) in
  if (0 <? snd acc)%nat
  then sqrt (fst acc / Fl.of_Z (Z.of_nat (snd acc)))%float
  else infinity.

(** A candidate of a synthetic node. *)
Record candidate : Type := Candidate {
  c_track : track;
  c_child_genre : string;
  c_distance : float
}.

Definition synthetic_candidates (idx : list (string * list track))
    (seen_ids : gset string) (aggregate : gmap string float)
    (child_seeds : list string) : list candidate :=
  flat_map (fun child =>
    flat_map (fun kv =>
      if word_search (Py.lower child) (fst kv)
      then
        flat_map (fun t =>
          if (falsy (tid_uri_first t) || in_set (tid_uri_first t) seen_ids)%bool then []
          else if negb (genre_match (EXCLUSIONS tb) child (norm_tags (raw_tags t))) then []
          else if negb (passes_rules (GENRE_RULES tb) child t) then []
          else [Candidate t child (feature_distance t aggregate)])
          (snd kv)
      else []) idx) child_seeds.

(** "Remove duplicates within candidates": by identifier only. *)
Fixpoint dedupe_candidates (seen : gset string) (l : list candidate) : list candidate :=
  match l with
  | [] => []
  | c :: rest =>
      if in_set (tid_uri_first (c_track c)) seen then dedupe_candidates seen rest
      else c :: dedupe_candidates (add_opt (tid_uri_first (c_track c)) seen) rest
  end.

Definition eligible (ids artists : gset string) (t : track) : bool :=
  (negb (in_set (tid_uri_first t) ids) &&
   negb (bool_decide (artist_key t ∈ artists)))%bool.

(** The first candidate of [child] that is still eligible, and the list
    without it ([unique_candidates.remove(c)]). *)
Fixpoint take_for_child (child : string) (ids artists : gset string)
    (l : list candidate) : option (candidate * list candidate) :=
  match l with
  | [] => None
  | c :: rest =>
      if (String.eqb (c_child_genre c) child && eligible ids artists (c_track c))%bool
      then Some (c, rest)
      else match take_for_child child ids artists rest with
           | Some (c', rest') => Some (c', c :: rest')
           | None => None
           end
  end.

(** What the two passes thread along. *)
Record picking : Type := Picking {
  selected : list track;
  p_ids : gset string;
  p_artists : gset string;
  remaining : list candidate
}.

(** First pass: one track per child where possible. *)
Fixpoint first_pass (children : list string) (p : picking) : picking :=
  match children with
  | [] => p
  | child :: rest =>
      if (5 <=? length (selected p))%nat then p
      else
        match take_for_child child (p_ids p) (p_artists p) (remaining p) with
        | Some (c, remaining') =>
            first_pass rest
              (Picking (selected p ++ [c_track c])
                       (add_opt (tid_uri_first (c_track c)) (p_ids p))
                       ({[ artist_key (c_track c) ]} ∪ p_artists p)
                       remaining')
        | None => first_pass rest p
        end
  end.

(** Second pass: fill up by distance. *)
Fixpoint second_pass (l : list candidate) (sel : list track)
    (ids artists : gset string) : list track * gset string * gset string :=
  match l with
  | [] => (sel, ids, artists)
  | c :: rest =>
      if (5 <=? length sel)%nat then (sel, ids, artists)
      else if eligible ids artists (c_track c)
      then second_pass rest (sel ++ [c_track c])
                       (add_opt (tid_uri_first (c_track c)) ids)
                       ({[ artist_key (c_track c) ]} ∪ artists)
      else second_pass rest sel ids artists
  end.

(** One iteration of the loop over the synthetic nodes. *)
Definition select_synthetic (idx : list (string * list track)) (st : state)
    (syn : string * string * list string) : state :=
  let '(full_path, display_name, child_seeds) := syn in
  match compute_aggregate_features (results st) child_seeds with
  | None => State (<[display_name := []]> (results st)) (global_seen_ids st)
                  (global_seen_artists st) (generator st)
  | Some aggregate =>
      if bool_decide (aggregate = ∅)
      then State (<[display_name := []]> (results st)) (global_seen_ids st)
                 (global_seen_artists st) (generator st)
      else
        let candidates :=
          synthetic_candidates idx (global_seen_ids st) aggregate child_seeds in
        let unique := dedupe_candidates ∅ candidates in
        let sorted := map snd (sort_asc (map (fun c => (c_distance c, c)) unique)) in
        let p := first_pass child_seeds
                   (Picking [] (global_seen_ids st) (global_seen_artists st) sorted) in
        let '(sel, ids, arts) :=
          second_pass (remaining p) (selected p) (p_ids p) (p_artists p) in
        State (<[display_name := sel]> (results st)) ids arts (generator st)
  end.

(** [synthetic_path_to_name] *)
Definition synthetic_path_to_name : gmap string string :=
  list_to_map (map (fun syn => (fst (fst syn), snd (fst syn)))
                   (rev (gather_synthetic_genres (GENRE_TREE tb)))).

(** The whole selection: seeding, cleaning, indexing, the loop over the
    playable genres and the loop over the synthetic nodes.  The generator the
    run starts with is replaced by [random.seed(CONFIG['random_seed'])]. *)
Definition select_all (env : environment rng) (tracks : list track) : state :=
  let g0 := py_seed (random_seed cfg) (ambient_rng env) in
  let cleaned := Killmegod_text.cleaned_tracks tracks in
  let idx := index_tracks (TRACK_DENY_URIS tb) cleaned in
  let st := foldl (select_genre env idx) (State ∅ ∅ ∅ g0)
                  (gather_playable_genres (GENRE_TREE tb)) in
  foldl (select_synthetic idx) st (gather_synthetic_genres (GENRE_TREE tb)).

End Run.

End Killmegod.

(** ** Seed selection of [v2.py] *)

Module V2.

Import V2_rules.

Section Run.

Context {rng : Type}.
Variable rng_seed : Z -> rng.
Variable rng_random : rng -> float * rng.

(** GLOBAL_UNIQUENESS (line 53, [True] in the script). *)
Variable GLOBAL_UNIQUENESS : bool.

(** GENRE_TO_PARENT.  The script computes it with [build_parent_maps] called on
    the mapping of the roots, which has no "subgenres" key of its own; any
    parent map is covered here. *)
Variable GENRE_TO_PARENT : gmap string string.

Variable tb : tables.

Definition py_seed (n : Z) (_ : rng) : rng := rng_seed n.

(** [gather_playable_genres] of [v2.py]: every "_seeds" string in pre-order,
    duplicates removed. *)
Fixpoint walk_playable (n : node) : list string :=
  match n with
  | Node seed subs =>
      match seed with Some s => [s] | None => [] end
      ++ flat_map (fun kv => walk_playable (snd kv)) subs
  end.

Definition gather_playable_genres (tree : list (string * node)) : list string :=
  Killmegod.unique_in_order ∅ (flat_map (fun kv => walk_playable (snd kv)) tree).

Definition bad_tokens : list string :=
  ["dance pop"; "pop"; "electropop"; "synthpop"; "soundtrack"; "broadway";
   "film soundtrack"; "show tunes"].

Local Set Warnings "-inexact-float".

(** [proto_score] of [v2.py] (lines 1139-1152); a missing popularity counts as
    0, as in [killmegod.py]. *)
Definition proto_score (env : environment rng) (target_genre : string) (t : track)
    (g : rng) : float * rng :=
  let tags := norm_tags (raw_tags t) in
  let target := Py.lower target_genre in
  let exact := (if existsb (fun g => String.eqb g target) tags then 1 else 0)%float in
  let boundary := (if existsb (word_search target) tags then 1 else 0)%float in
  let pop := (default 0 (popularity t) / 100)%float in
  let has_bad :=
    existsb (fun g => existsb (fun bt => Py.contains bt g) (set_iter env bad_tokens))
            tags in
  let pop_penalty := (if 0.85 <=? pop then 0.25 else 0)%float in
  let contam_penalty := (if has_bad then 0.30 else 0)%float in
  let artist_penalty := (if 90 <=? default 0 (popularity t) then 0.15 else 0)%float in
  let (u, g') := rng_random g in
  let jitter := (u * 0.03)%float in
  ((2.5 * exact) + (1.5 * boundary) + (0.5 * pop) - pop_penalty - contam_penalty
   - artist_penalty + jitter, g')%float.

Fixpoint score_all (env : environment rng) (genre : string) (l : list track) (g : rng)
    : list (float * track) * rng :=
  match l with
  | [] => ([], g)
  | t :: rest =>
      let (s, g1) := proto_score env genre t g in
      let (scored, g2) := score_all env genre rest g1 in
      ((s, t) :: scored, g2)
  end.

(** ADJACENT of [relax_rules_if_sparse]. *)
Definition ADJACENT : gmap string (list string) :=
  list_to_map
    [ ("thrash metal", ["speed metal"; "classic metal"; "heavy metal"]);
      ("shoegaze", ["dream pop"; "noise pop"; "space rock"; "slowcore"; "indie rock"]);
      ("post-rock", ["instrumental rock"; "math rock"; "ambient"; "experimental rock"]);
      ("acid house", ["chicago house"; "acid techno"; "rave"]);
      ("breakbeat", ["big beat"; "nu skool breaks"; "progressive breaks"]);
      ("dub", ["dub reggae"; "roots reggae"; "rocksteady"]);
      ("soca", ["power soca"; "groovy soca"; "chutney soca"]) ].

(** What [relax_rules_if_sparse] does to the record it got from GENRE_RULES
    when the candidates are fewer than [target_min]; [list(set(l))] keeps one
    copy of each element, in the iteration order of the set. *)
Definition relax_record (env : environment rng) (genre : string) (rules : rule) : rule :=
  {| require_artist_genres_any :=
       set_iter env (remove_dups (require_artist_genres_any rules
                                  ++ default [] (ADJACENT !! genre)));
     deny_artist_genres_any := deny_artist_genres_any rules;
     allow_artist_genres_any := allow_artist_genres_any rules;
     whitelist_artists := whitelist_artists rules;
     boost_artist_contains := boost_artist_contains rules;
     deny_name_contains :=
       filter (fun s => s ∉ ["radio edit"; "edit"]) (deny_name_contains rules);
     deny_artist_contains := deny_artist_contains rules;
     min_year := min_year rules;
     max_year := max_year rules;
     popularity_min := popularity_min rules;
     popularity_max := None |}.

(** [relax_rules_if_sparse(genre, candidates)] with [target_min = 4]: the
    candidates come back unchanged; the record of [genre] in the shared table,
    when there is one, is overwritten. *)
Definition relax_rules_if_sparse (env : environment rng) (rules_table : gmap string rule)
    (genre : string) (candidates : list track) : gmap string rule * list track :=
  if (4 <=? length candidates)%nat then (rules_table, candidates)
  else
    match rules_table !! genre with
    | Some rules => (<[genre := relax_record env genre rules]> rules_table, candidates)
    | None => (rules_table, candidates)
    end.

Record state : Type := State {
  rules_table : gmap string rule;
  results : gmap string (list track);
  used_track_ids_global : gset string;
  used_artists_global : gset string;
  used_track_ids_by_parent : gmap string (gset string);
  used_artists_by_parent : gmap string (gset string);
  generator : rng
}.

(** The candidate loop over the bucket of the genre: the rules are read from
    the table as it is when the track is examined, and relaxed after every
    accepted track while fewer than four are held. *)
Fixpoint gather_candidates (env : environment rng) (genre parent : string)
    (family_ids : gset string) (bucket : list track)
    (rules_table : gmap string rule) (candidates : list track)
    : gmap string rule * list track :=
  match bucket with
  | [] => (rules_table, candidates)
  | t :: rest =>
      if negb (genre_match (EXCLUSIONS tb) genre (norm_tags (raw_tags t)))
      then gather_candidates env genre parent family_ids rest rules_table candidates
      else if negb (passes_rules rules_table genre t)
      then gather_candidates env genre parent family_ids rest rules_table candidates
      else if (Py.truthy parent && negb (falsy (tid_uri_first t)) &&
               in_set (tid_uri_first t) family_ids)%bool
      then gather_candidates env genre parent family_ids rest rules_table candidates
      else
        let (rules_table', candidates') :=
          relax_rules_if_sparse env rules_table genre (candidates ++ [t]) in
        gather_candidates env genre parent family_ids rest rules_table' candidates'
  end.

(** The de-duplication loop: the identifier is read id first here. *)
Fixpoint dedupe (ids_global artists_global seen_ids seen_artists : gset string)
    (l : list track) : list track :=
  match l with
  | [] => []
  | t :: rest =>
      if (falsy (tid_id_first t) || negb (Py.truthy (first_artist t)))%bool
      then dedupe ids_global artists_global seen_ids seen_artists rest
      else if (GLOBAL_UNIQUENESS &&
               (in_set (tid_id_first t) ids_global ||
                bool_decide (first_artist t ∈ artists_global)))%bool
      then dedupe ids_global artists_global seen_ids seen_artists rest
      else if (in_set (tid_id_first t) seen_ids ||
               bool_decide (first_artist t ∈ seen_artists))%bool
      then dedupe ids_global artists_global seen_ids seen_artists rest
      else t :: dedupe ids_global artists_global
                       (add_opt (tid_id_first t) seen_ids)
                       ({[ first_artist t ]} ∪ seen_artists) rest
  end.

(** The sets the final pick updates. *)
Record marks : Type := Marks {
  k_ids_global : gset string;
  k_artists_global : gset string;
  k_family_ids : gset string;
  k_family_artists : gset string
}.

(** The final pick: at most four tracks, skipping the artists the family
    already holds; the identifier is read uri first here. *)
Fixpoint pick_top_k (parent : string) (unique : list track) (top_k : list track)
    (m : marks) : list track * marks :=
  match unique with
  | [] => (top_k, m)
  | t :: rest =>
      if (4 <=? length top_k)%nat then (top_k, m)
      else if (Py.truthy parent &&
               bool_decide (first_artist t ∈ k_family_artists m))%bool
      then pick_top_k parent rest top_k m
      else
        let tid := tid_uri_first t in
        let tid := if falsy tid then None else tid in
        pick_top_k parent rest (top_k ++ [t])
          (Marks (if GLOBAL_UNIQUENESS then add_opt tid (k_ids_global m)
                  else k_ids_global m)
                 (if GLOBAL_UNIQUENESS then {[ first_artist t ]} ∪ k_artists_global m
                  else k_artists_global m)
                 (if Py.truthy parent then add_opt tid (k_family_ids m)
                  else k_family_ids m)
                 (if Py.truthy parent then {[ first_artist t ]} ∪ k_family_artists m
                  else k_family_artists m))
  end.

Definition bucket_of (idx : list (string * list track)) (key : string) : list track :=
  default [] (snd <$> find (fun kv => String.eqb (fst kv) key) idx).

Definition family_set (m : gmap string (gset string)) (parent : string) : gset string :=
  default ∅ (m !! parent).

(** The unique candidates of a genre in a given state, and the table as the
    candidate loop leaves it. *)
Definition unique_candidates (env : environment rng) (idx : list (string * list track))
    (st : state) (genre : string) : gmap string rule * list track :=
  let parent := default "" (GENRE_TO_PARENT !! genre) in
  let (table', candidates) :=
    gather_candidates env genre parent
      (family_set (used_track_ids_by_parent st) parent)
      (bucket_of idx (Py.lower genre)) (rules_table st) [] in
  (table', dedupe (used_track_ids_global st) (used_artists_global st) ∅ ∅ candidates).

(** One iteration of the loop over PLAYABLE_GENRES. *)
Definition select_genre (env : environment rng) (idx : list (string * list track))
    (st : state) (genre : string) : state :=
  let parent := default "" (GENRE_TO_PARENT !! genre) in
  let (table', unique) := unique_candidates env idx st genre in
  if is_nil unique
  then State table' (<[genre := []]> (results st))
             (used_track_ids_global st) (used_artists_global st)
             (used_track_ids_by_parent st) (used_artists_by_parent st)
             (generator st)
  else
    let (scored, g') := score_all env genre unique (generator st) in
    let sorted := map snd (sort_desc scored) in
    let (top_k, m) :=
      pick_top_k parent sorted []
        (Marks (used_track_ids_global st) (used_artists_global st)
               (family_set (used_track_ids_by_parent st) parent)
               (family_set (used_artists_by_parent st) parent)) in
    State table' (<[genre := top_k]> (results st))
          (k_ids_global m) (k_artists_global m)
          (if Py.truthy parent
           then <[parent := k_family_ids m]> (used_track_ids_by_parent st)
           else used_track_ids_by_parent st)
          (if Py.truthy parent
           then <[parent := k_family_artists m]> (used_artists_by_parent st)
           else used_artists_by_parent st)
          g'.

(** The whole selection of [v2.py]: [random.seed(42)], indexing, the loop. *)
Definition select_all (env : environment rng) (tracks : list track) : state :=
  let g0 := py_seed 42 (ambient_rng env) in
  let idx := index_tracks (TRACK_DENY_URIS tb) tracks in
  foldl (select_genre env idx)
        (State (GENRE_RULES tb) ∅ ∅ ∅ ∅ ∅ g0)
        (gather_playable_genres (GENRE_TREE tb)).

End Run.

End V2.

(** ** The manifest ([killmegod.py] 1832-1943) *)

(** One entry of the "seeds" payload. *)
Record seed_payload : Type := SeedPayload {
  p_uri : option string;
  p_name : option string;
  p_artist : string;
  p_popularity : float;
  p_filename : string
}.

(** A built node.  An absent "seeds", "features" or "subgenres" key is the
    empty list or map; inside "features", [None] is a JSON null. *)
#[warnings="-register-all"]
Inductive mnode : Type :=
| MNode (m_seeds : list seed_payload)
        (m_features : gmap string (option float))
        (m_median_year : option Z)
        (m_subgenres : list (string * mnode)).

Definition m_features_of (n : mnode) : gmap string (option float) :=
  match n with MNode _ f _ _ => f end.
Definition m_median_year_of (n : mnode) : option Z :=
  match n with MNode _ _ y _ => y end.
Definition m_seeds_of (n : mnode) : list seed_payload :=
  match n with MNode s _ _ _ => s end.
Definition m_subgenres_of (n : mnode) : list (string * mnode) :=
  match n with MNode _ _ _ s => s end.

Module Manifest.

Section Build.

Variable cfg : config.
(** [results] and [synthetic_path_to_name] as the selection left them. *)
Variable res : gmap string (list track).
Variable path_to_name : gmap string string.

(** The non-null values of field [f] over the tracks, as floats. *)
Definition field_values (f : string) (tracks : list track) : list float :=
  omap (track_get f) tracks.

(** [feat[k] = sround(median(vals), 2)] when [vals] is not empty. *)
Definition put_median (k : string) (vals : list float)
    (feat : gmap string (option float)) : gmap string (option float) :=
  match vals with
  | [] => feat
  | _ =>
      match Stats.median vals with
      | Some m => <[k := Some (Stats.sround m)]> feat
      | None => feat
      end
  end.

Definition compute_features_from_tracks (seed_tracks : list track)
    : gmap string (option float) * option Z :=
  let feat :=
    foldl (fun feat f => put_median f (field_values f seed_tracks) feat)
          ∅ FEATURE_FIELDS in
  let tempos := omap tempo seed_tracks in
  let feat :=
    match tempos with
    | [] => feat
    | _ =>
        match Stats.median tempos with
        | Some med_bpm =>
            <["tempo_norm" :=
                Some (Stats.sround
                        (Stats.tempo_to_norm (min_bpm cfg) (max_bpm cfg) med_bpm))]>
              (<["tempo_bpm" := Some (Stats.sround med_bpm)]> feat)
        | None => feat
        end
    end in
  (feat, Stats.median_year (Stats.sorted_Z (omap release_year seed_tracks))).

(** The entries of the children that carry key [k], in the order of the
    children; a null entry is [None]. *)
Definition child_entries (k : string) (children : list (string * mnode))
    : list (option float) :=
  omap (fun kv => m_features_of (snd kv) !! k) children.

(** The non-null values of key [k] over the children. *)
Definition child_values (k : string) (children : list (string * mnode)) : list float :=
  omap (fun v => v) (child_entries k children).

Definition aggregate_features_from_children (children : list (string * mnode))
    : gmap string (option float) * option Z :=
  let agg_lists : gmap string (list (option float)) :=
    foldl (fun acc kv =>
             union_with (fun a b => Some (a ++ b)) acc
                        ((fun v => [v]) <$> m_features_of (snd kv)))
          ∅ children in
  let out_feat : gmap string (option float) :=
    omap (fun vals =>
            let num_vals := omap (fun v => v) vals in
            match num_vals with
            | [] => None
            | _ => match Stats.median num_vals with
                   | Some m => Some (Some (Stats.sround m))
                   | None => None
                   end
            end) agg_lists in
  (out_feat,
   Stats.median_year (Stats.sorted_Z (omap (fun kv => m_median_year_of (snd kv)) children))).

(** [node_features.setdefault(k, None)] *)
Definition setdefault_null (k : string) (feat : gmap string (option float))
    : gmap string (option float) :=
  match feat !! k with
  | Some _ => feat
  | None => <[k := None]> feat
  end.

(** The seed list a node resolves: by its seed key, or by the display name of
    its path when the key is the synthetic marker. *)
Definition node_seeds (seeds_key : option string) (genre_path : string) : list track :=
  match seeds_key with
  | Some key =>
      let lookup_key :=
        if String.eqb key SYNTHETIC
        then default genre_path (path_to_name !! genre_path)
        else key in
      default [] (res !! lookup_key)
  | None => []
  end.

Definition payload_of (t : track) : seed_payload :=
  let artist_name := match artists t with [] => "Unknown" | a :: _ => a end in
  {| p_uri := uri t; p_name := name t; p_artist := artist_name;
     p_popularity := default 0%float (popularity t);
     p_filename := Killmegod_text.generate_filename (Some artist_name) (name t) |}.

(** The features of a node from its own seeds, before any fallback. *)
Definition direct_features (seeds : list track) : gmap string (option float) * option Z :=
  if is_nil seeds then (∅, None) else compute_features_from_tracks seeds.

Definition all_feature_keys : list string := FEATURE_FIELDS ++ ["tempo_bpm"; "tempo_norm"].

(** What a node emits, given its seeds and its built children. *)
Definition assemble (seeds : list track) (built_sub : list (string * mnode)) : mnode :=
  let '(node_features, node_median_year) := direct_features seeds in
  let '(node_features, node_median_year) :=
    if (bool_decide (node_features = ∅) && negb (is_nil built_sub))%bool
    then
      let '(child_feat, child_year) := aggregate_features_from_children built_sub in
      (if bool_decide (child_feat = ∅) then node_features else child_feat,
       match child_year with Some y => Some y | None => node_median_year end)
    else (node_features, node_median_year) in
  let node_features :=
    if bool_decide (node_features = ∅) then node_features
    else foldl (fun feat k => setdefault_null k feat) node_features all_feature_keys in
  MNode (map payload_of seeds) node_features node_median_year built_sub.

Definition child_path (genre_path child_name : string) : string :=
  if Py.truthy genre_path then genre_path +:+ "/" +:+ child_name else child_name.

(** [build_manifest(tree, genre_path)]: children first. *)
Fixpoint build_manifest (n : node) (genre_path : string) : mnode :=
  match n with
  | Node seeds_key subs =>
      let built_sub :=
        map (fun kv => (fst kv, build_manifest (snd kv) (child_path genre_path (fst kv))))
            subs in
      assemble (node_seeds seeds_key genre_path) built_sub
  end.

(** The tree part of the manifest. *)
Definition manifest_tree (tree : list (string * node)) : list (string * mnode) :=
  map (fun kv => (fst kv, build_manifest (snd kv) (fst kv))) tree.

End Build.

End Manifest.

(** ** A small dataset for the examples *)

(** A generator for the examples: a counter whose draws are all 0.5. *)
Definition toy_seed (n : Z) : Z := n.
Definition toy_random (g : Z) : float * Z := (0.5%float, (g + 1)%Z).

Definition env_forward : environment Z := Environment Z 0%Z (fun l => l).
Definition env_backward : environment Z := Environment Z 7%Z (@rev string).

Definition demo_heavy : node :=
  Node (Some SYNTHETIC)
       [ ("metal", Node (Some "metal") []);
         ("hard rock", Node (Some "hard rock") []) ].

Definition demo_root : node :=
  Node (Some "rock") [ ("punk", Node (Some "punk") []); ("Heavy", demo_heavy) ].

Definition demo_tree : list (string * node) := [ ("rock", demo_root) ].

Definition demo_tables : tables :=
  {| GENRE_TREE := demo_tree;
     GENRE_RULES := shoegaze_table;
     EXCLUSIONS := EXCLUSIONS_killmegod;
     TRACK_DENY_URIS := {[ "spotify:track:denied" ]} |}.

Definition with_feature (t : track) (d : float) : track :=
  Track (uri t) (id t) (name t) (artists t) (artist_genres t) (genres t)
        (release_year t) (popularity t) (Some d) (energy t) (speechiness t)
        (acousticness t) (valence t) (instrumentalness t) (tempo t).

Local Set Warnings "-inexact-float".

Definition demo_tracks : list track :=
  [ with_feature (simple_track "u1" "Anthem" "The Band" ["rock"; "punk"] (Some 1979%Z) (Some 60%float)) 0.123;
    with_feature (simple_track "u2" "Riot" "The Clash" ["punk"; "post-punk"] (Some 1977%Z) (Some 64%float)) 0.5;
    with_feature (simple_track "u3" "Duet (feat. Guest)" "Someone" ["rock"] (Some 2001%Z) (Some 70%float)) 0.9;
    with_feature (simple_track "u4" "Battery" "Metallica" ["metal"; "thrash metal"] (Some 1986%Z) (Some 70%float)) 0.4;
    with_feature (simple_track "u5" "Second" "The Band" ["rock"] (Some 1980%Z) (Some 69%float)) 0.7;
    with_feature (simple_track "u6" "Iron" "Maiden" ["heavy metal"] (Some 1982%Z) (Some 66%float)) 0.3;
    with_feature (simple_track "u7" "Thunder" "AC" ["hard rock"] (Some 1990%Z) (Some 80%float)) 0.6;
    with_feature (simple_track "u8" "Steel" "Priest" ["metal"] (Some 1984%Z) (Some 50%float)) 0.2 ].

(** The two selections on the demonstration data, and two of their lists. *)
Definition demo_killmegod : @Killmegod.state Z :=
  Killmegod.select_all toy_seed toy_random CONFIG demo_tables env_forward demo_tracks.

Definition demo_v2 : @V2.state Z :=
  V2.select_all toy_seed toy_random true ∅ demo_tables env_forward demo_tracks.

Definition demo_killmegod_rock : list track :=
  Eval vm_compute in default [] (Killmegod.results demo_killmegod !! "rock").
Definition demo_killmegod_metal : list track :=
  Eval vm_compute in default [] (Killmegod.results demo_killmegod !! "metal").
Definition demo_v2_rock : list track :=
  Eval vm_compute in default [] (V2.results demo_v2 !! "rock").
Definition demo_v2_metal : list track :=
  Eval vm_compute in default [] (V2.results demo_v2 !! "metal").

Definition first_of (l : list track) : track :=
  default (simple_track "" "" "" [] None None) (head l).

(** ** Predicates of the selection invariants *)

(** Every seed held by the results map is recorded in the global sets. *)
Definition covered (res : gmap string (list track)) (ids artists : gset string) : Prop :=
  forall g l t, res !! g = Some l -> t ∈ l ->
    in_set (tid_uri_first t) ids = true /\ Killmegod.artist_key t ∈ artists.

(** Seeds of different genres differ in identifier and in primary artist. *)
Definition separated (res : gmap string (list track)) : Prop :=
  forall g1 g2 l1 l2 t1 t2,
    g1 <> g2 -> res !! g1 = Some l1 -> res !! g2 = Some l2 ->
    t1 ∈ l1 -> t2 ∈ l2 ->
    tid_uri_first t1 <> tid_uri_first t2 /\
    Killmegod.artist_key t1 <> Killmegod.artist_key t2.

(** No track of [l] is recorded in the sets. *)
Definition fresh (ids artists : gset string) (l : list track) : Prop :=
  forall t, t ∈ l ->
    in_set (tid_uri_first t) ids = false /\ Killmegod.artist_key t ∉ artists.

(** Every track of [l] is recorded in the sets. *)
Definition marked (ids artists : gset string) (l : list track) : Prop :=
  forall t, t ∈ l ->
    in_set (tid_uri_first t) ids = true /\ Killmegod.artist_key t ∈ artists.

(** In the dataset an identifier (URI, with the ID as fallback) comes with one
    primary artist. *)
Definition identifiers_unique (tracks : list track) : Prop :=
  forall t1 t2, t1 ∈ tracks -> t2 ∈ tracks ->
    tid_uri_first t1 = tid_uri_first t2 -> first_artist t1 = first_artist t2.

(** One track listed twice, under each of its two artists and with the tags of
    that artist; and the part of the tables of [v2.py] that two genres without
    a rule record see. *)
Definition clash_track (artist other tag : string) : track :=
  {| uri := Some "spotify:track:B"; id := Some "B"; name := Some "Song";
     artists := [artist; other]; artist_genres := [tag]; genres := [];
     release_year := Some 1990%Z; popularity := Some 50%float;
     danceability := None; energy := None; speechiness := None;
     acousticness := None; valence := None; instrumentalness := None;
     tempo := None |}.

Definition clash_tracks : list track :=
  [clash_track "X" "Y" "rock"; clash_track "Y" "X" "jazz"].

Definition clash_tables : tables :=
  {| GENRE_TREE := [ ("rock", Node (Some "rock") []); ("jazz", Node (Some "jazz") []) ];
     GENRE_RULES := ∅;
     EXCLUSIONS := EXCLUSIONS_killmegod;
     TRACK_DENY_URIS := ∅ |}.

(** The invariant of the selection loops of [killmegod.py]. *)
Definition killmegod_inv {rng : Type} (st : @Killmegod.state rng) : Prop :=
  covered (Killmegod.results st) (Killmegod.global_seen_ids st)
          (Killmegod.global_seen_artists st) /\
  separated (Killmegod.results st).

(** Every seed of the results map is a track of [pool]. *)
Definition sourced (res : gmap string (list track)) (pool : list track) : Prop :=
  forall g l t, res !! g = Some l -> t ∈ l -> t ∈ pool.

(** The invariant of the selection loop of [v2.py] under global uniqueness:
    the primary artists of the seeds are recorded, seeds of different genres
    have different primary artists, and every seed is a track of the dataset. *)
Definition v2_inv {rng : Type} (tracks : list track) (st : @V2.state rng) : Prop :=
  (forall g l t, V2.results st !! g = Some l -> t ∈ l ->
     first_artist t ∈ V2.used_artists_global st) /\
  (forall g1 g2 l1 l2 t1 t2,
     g1 <> g2 -> V2.results st !! g1 = Some l1 -> V2.results st !! g2 = Some l2 ->
     t1 ∈ l1 -> t2 ∈ l2 -> first_artist t1 <> first_artist t2) /\
  sourced (V2.results st) tracks.

(** ** The pools of the seed-count property *)

(** [killmegod.py]: the de-duplicated candidates of [genre] that the global
    sets of state [st] do not exclude. *)
Definition killmegod_pool {rng : Type} (tb : tables) (idx : list (string * list track))
    (st : @Killmegod.state rng) (genre : string) : list track :=
  filter (fun t => Killmegod.eligible (Killmegod.global_seen_ids st)
                     (Killmegod.global_seen_artists st) t = true)
         (Killmegod.dedupe ∅ ∅ (Killmegod.candidates_of tb idx genre)).

(** [v2.py]: the family gate of the final pick, and the unique candidates
    (already cleared of globally used tracks and artists) that pass it. *)
Definition family_ok (parent : string) (family_artists : gset string) (t : track) : bool :=
  negb (Py.truthy parent && bool_decide (first_artist t ∈ family_artists)).

Definition v2_pool {rng : Type} (G : bool) (parents : gmap string string) (tb : tables)
    (env : environment rng) (idx : list (string * list track))
    (st : @V2.state rng) (genre : string) : list track :=
  let parent := default "" (parents !! genre) in
  filter (fun t => family_ok parent
                     (V2.family_set (V2.used_artists_by_parent st) parent) t = true)
         (snd (V2.unique_candidates G parents tb env idx st genre)).

(** Every list of a results map has at most [n] tracks. *)
Definition bounded (n : nat) (res : gmap string (list track)) : Prop :=
  forall g l, res !! g = Some l -> (length l <= n)%nat.

(** The state of the loop over the playable genres of [killmegod.py] after
    the genres of [pre], and the index it works on. *)
Definition killmegod_index (tb : tables) (tracks : list track)
    : list (string * list track) :=
  index_tracks (TRACK_DENY_URIS tb) (Killmegod_text.cleaned_tracks tracks).

Definition killmegod_before {rng : Type} (rng_seed : Z -> rng)
    (rng_random : rng -> float * rng) (cfg : config) (tb : tables)
    (env : environment rng) (tracks : list track) (pre : list string)
    : @Killmegod.state rng :=
  foldl (Killmegod.select_genre rng_random cfg tb env (killmegod_index tb tracks))
        (Killmegod.State ∅ ∅ ∅ (Killmegod.py_seed rng_seed (random_seed cfg)
                                                   (ambient_rng env)))
        pre.

(** The same for the loop of [v2.py]. *)
Definition v2_before {rng : Type} (rng_seed : Z -> rng)
    (rng_random : rng -> float * rng) (G : bool) (parents : gmap string string)
    (tb : tables) (env : environment rng) (tracks : list track) (pre : list string)
    : @V2.state rng :=
  foldl (V2.select_genre rng_random G parents tb env
                         (index_tracks (TRACK_DENY_URIS tb) tracks))
        (V2.State (GENRE_RULES tb) ∅ ∅ ∅ ∅ ∅ (V2.py_seed rng_seed 42 (ambient_rng env)))
        pre.

(** The keys under which the synthetic pass stores its lists. *)
Definition synthetic_names (tb : tables) : list string :=
  map (fun syn => snd (fst syn)) (Killmegod.gather_synthetic_genres (GENRE_TREE tb)).

(** Iterating a set literal visits each of its elements once, in some order. *)
Definition faithful_iteration {rng : Type} (env : environment rng) : Prop :=
  forall l, set_iter env l ≡ₚ l.

(** ** The record of "thrash metal" in [v2.py] and a sparse pool for it *)

(** GENRE_RULES["thrash metal"] after the patches of lines 320, 492, 857, 863
    and 871. *)
Definition thrash_rule : rule :=
  {| require_artist_genres_any :=
       ["thrash metal"; "bay area thrash"; "crossover thrash"; "teutonic thrash";
        "speed metal"];
     deny_artist_genres_any := ["glam metal"; "nu metal"; "alternative metal"; "hard rock"];
     allow_artist_genres_any := [];
     whitelist_artists :=
       ["Metallica"; "Slayer"; "Megadeth"; "Anthrax"; "Testament"; "Exodus"; "Overkill";
        "Kreator"; "Sodom"; "Sepultura"];
     boost_artist_contains := [];
     deny_name_contains := [];
     deny_artist_contains := [];
     min_year := None; max_year := None;
     popularity_min := None; popularity_max := Some 85%Z |}.

Definition thrash_tables : tables :=
  {| GENRE_TREE := [ ("metal", Node None [ ("thrash metal", Node (Some "thrash metal") []) ]) ];
     GENRE_RULES := {[ "thrash metal" := thrash_rule ]};
     EXCLUSIONS := ∅;
     TRACK_DENY_URIS := ∅ |}.

Definition thrash_quiet : track :=
  simple_track "t1" "Raining Blood" "Slayer" ["thrash metal"] (Some 1986%Z)
               (Some 60%float).
Definition thrash_loud : track :=
  simple_track "t2" "Enter Sandman" "Metallica" ["thrash metal"] (Some 1991%Z)
               (Some 90%float).

Definition thrash_tracks : list track := [thrash_quiet; thrash_loud].

Definition thrash_run : @V2.state Z :=
  V2.select_all toy_seed toy_random true ∅ thrash_tables env_forward thrash_tracks.

(** ** Manifest nodes of the demonstration run *)

Definition demo_build (n : node) (genre_path : string) : mnode :=
  Manifest.build_manifest CONFIG (Killmegod.results demo_killmegod)
                          (Killmegod.synthetic_path_to_name demo_tables) n genre_path.

Definition demo_seeds (seeds_key : option string) (genre_path : string) : list track :=
  Manifest.node_seeds (Killmegod.results demo_killmegod)
                      (Killmegod.synthetic_path_to_name demo_tables) seeds_key genre_path.

(** Two seeds of danceability 0.123 and 0.6 under the leaf "rock". *)
Definition rounding_seeds : list track :=
  [ with_feature (simple_track "r1" "One" "A" ["rock"] None None) 0.123%float;
    with_feature (simple_track "r2" "Two" "B" ["rock"] None None) 0.6%float ].

Definition rounding_leaf : mnode :=
  Manifest.build_manifest CONFIG {[ "rock" := rounding_seeds ]} ∅
                          (Node (Some "rock") []) "rock".

(** ** The index, bucket by bucket *)

(** What the indexing loop appends to the bucket of [key] for track [t]: one
    copy for every normalised tag equal to [key], none for a denied track. *)
Definition indexed_copies (TRACK_DENY_URIS : gset string) (key : string) (t : track)
    : list track :=
  if in_set (tid_uri_first t) TRACK_DENY_URIS then []
  else map (fun _ => t) (filter (fun tg => tg = key) (norm_tags (raw_tags t))).

(** An index has one entry per key and no empty bucket. *)
Definition index_well_formed (idx : list (string * list track)) : Prop :=
  NoDup (map fst idx) /\ (forall kv, kv ∈ idx -> snd kv <> []).

(** ** The ranking behind a seed list *)

(** No element of the list is greater than the one before it. *)
Fixpoint descending (l : list float) : Prop :=
  match l with
  | a :: (b :: _) as rest => (a <? b)%float = false /\ descending rest
  | _ => True
  end.

(** [killmegod.py]: the unique candidates of [genre] with their scores, as
    [unique.sort(key=proto_score, reverse=True)] leaves them in state [st]. *)
Definition killmegod_ranked {rng : Type} (rng_random : rng -> float * rng)
    (cfg : config) (tb : tables) (env : environment rng)
    (idx : list (string * list track)) (st : @Killmegod.state rng) (genre : string)
    : list (float * track) :=
  sort_desc
    (fst (Killmegod.score_all rng_random cfg tb env genre
            (Killmegod.dedupe ∅ ∅ (Killmegod.candidates_of tb idx genre))
            (Killmegod.generator st))).

(** [v2.py]: the same for the unique candidates of [genre]. *)
Definition v2_ranked {rng : Type} (rng_random : rng -> float * rng) (G : bool)
    (parents : gmap string string) (tb : tables) (env : environment rng)
    (idx : list (string * list track)) (st : @V2.state rng) (genre : string)
    : list (float * track) :=
  sort_desc
    (fst (V2.score_all rng_random env genre
            (snd (V2.unique_candidates G parents tb env idx st genre))
            (V2.generator st))).

(** Within every list of a results map the identifiers are pairwise different,
    and so are the artists after strip and lower. *)
Definition lists_distinct (res : gmap string (list track)) : Prop :=
  forall g l, res !! g = Some l ->
    NoDup (map tid_uri_first l) /\ NoDup (map Killmegod.artist_key l).

(** A selection in progress: no identifier and no artist twice, and all of
    them recorded in the sets. *)
Definition picked (ids arts : gset string) (sel : list track) : Prop :=
  NoDup (map tid_uri_first sel) /\ NoDup (map Killmegod.artist_key sel) /\
  marked ids arts sel.

(** ** Word-boundary occurrences *)

(** [pat] occurs in [s] with a word boundary on each side: the reading of
    [rf"\b{re.escape(pat)}\b"] searched in [s]. *)
Definition occurs_at_boundaries (pat s : string) : Prop :=
  exists pre post,
    s = pre +:+ pat +:+ post /\
    Re.at_boundary (Re.last_char None pre) (pat +:+ post) = true /\
    Re.at_boundary (Re.last_char (Re.last_char None pre) pat) post = true.

(** [pat] occurs in [s] with no word character right before or right after. *)
Definition occurs_as_word (pat s : string) : Prop :=
  exists pre post,
    s = pre +:+ pat +:+ post /\ word_before pre = false /\ word_after post = false.

(** The first and the last character of [pat] are word characters. *)
Definition word_edged (pat : string) : Prop :=
  word_after pat = true /\ word_before pat = true.

(** ** The shape of a slug *)

Fixpoint all_chars (p : ascii -> bool) (s : string) : bool :=
  match s with
  | EmptyString => true
  | String c s' => (p c && all_chars p s')%bool
  end.

(** The first character of [s] satisfies [p]. *)
Definition starts_with (p : ascii -> bool) (s : string) : bool :=
  match s with String c _ => p c | EmptyString => false end.

(** The last character of [s] satisfies [p]. *)
Definition ends_with (p : ascii -> bool) (s : string) : bool :=
  match Re.last_char None s with Some c => p c | None => false end.

(** No two neighbours in [s] both satisfy [p]. *)
Fixpoint no_double (p : ascii -> bool) (s : string) : bool :=
  match s with
  | String a (String b _ as s') => (negb (p a && p b) && no_double p s')%bool
  | _ => true
  end.

(** The characters a slug is made of: [a-z0-9-]. *)
Definition slug_char (c : ascii) : bool :=
  (Py.is_lower_az c || Py.is_digit c || Killmegod_text.is_char "-" c)%bool.

(** ** Feature summaries *)

(** Every entry of [feat] is a number, under a key of [K]. *)
Definition numeric_within (K : list string) (feat : gmap string (option float)) : Prop :=
  forall k v, feat !! k = Some v -> is_Some v /\ k ∈ K.

(** The seeds of "thrash metal" in that run. *)
Definition thrash_seeds : list track :=
  Eval vm_compute in default [] (V2.results thrash_run !! "thrash metal").

(** ** Rule tables that relaxing only widens *)

(** No record lists a required tag twice, and a record of a genre with
    adjacent genres has a require list to extend. *)
Definition relaxable (table : gmap string rule) : Prop :=
  forall g rules, table !! g = Some rules ->
    NoDup (require_artist_genres_any rules) /\
    (require_artist_genres_any rules <> [] \/ V2.ADJACENT !! g = None).

(** What the candidate and de-duplication loops of [v2.py] ask of a track of
    the dataset for it to be a seed of [genre], with the rules of [table]. *)
Definition v2_admissible (tb : tables) (tracks : list track) (table : gmap string rule)
    (genre : string) (t : track) : Prop :=
  t ∈ tracks /\
  in_set (tid_uri_first t) (TRACK_DENY_URIS tb) = false /\
  Py.lower genre ∈ norm_tags (raw_tags t) /\
  genre_match (EXCLUSIONS tb) genre (norm_tags (raw_tags t)) = true /\
  falsy (tid_id_first t) = false /\
  Py.truthy (first_artist t) = true /\
  V2_rules.passes_rules table genre t = true.

(** The invariant of the loop over the genres of [v2.py]. *)
Definition v2_seeds_ok {rng : Type} (tb : tables) (tracks : list track)
    (st : @V2.state rng) : Prop :=
  relaxable (V2.rules_table st) /\
  forall g l t, V2.results st !! g = Some l -> t ∈ l ->
    v2_admissible tb tracks (V2.rules_table st) g t.

(** ** Seeds of a synthetic node *)

(** A synthetic node "Heavy" over the genre "metal", and seven tracks of
    seven artists tagged "metal": five become seeds of "metal", the other two
    are left for "Heavy". *)
Definition heavy_tree : list (string * node) :=
  [ ("rock", Node (Some "rock")
       [ ("Heavy", Node (Some SYNTHETIC) [ ("metal", Node (Some "metal") []) ]) ]) ].

Definition heavy_tables : tables :=
  {| GENRE_TREE := heavy_tree; GENRE_RULES := ∅; EXCLUSIONS := ∅;
     TRACK_DENY_URIS := ∅ |}.

Local Set Warnings "-inexact-float".

Definition heavy_tracks : list track :=
  map (fun i => with_feature
                  (simple_track ("h" +:+ i) ("Song " +:+ i) ("Artist " +:+ i) ["metal"]
                                (Some 1990%Z) (Some 60%float)) 0.5)
      ["1"; "2"; "3"; "4"; "5"; "6"; "7"].

Definition heavy_run : @Killmegod.state Z :=
  Killmegod.select_all toy_seed toy_random CONFIG heavy_tables env_forward heavy_tracks.

Definition heavy_seeds : list track :=
  Eval vm_compute in default [] (Killmegod.results heavy_run !! "Heavy").

(** What the candidate loop of a synthetic node asks of a track for one of
    the child genres of the node. *)
Definition qualifies_for (tb : tables) (child : string) (t : track) : Prop :=
  falsy (tid_uri_first t) = false /\
  in_set (tid_uri_first t) (TRACK_DENY_URIS tb) = false /\
  (exists tag, tag ∈ norm_tags (raw_tags t) /\
               word_search (Py.lower child) tag = true) /\
  genre_match (EXCLUSIONS tb) child (norm_tags (raw_tags t)) = true /\
  Killmegod_rules.passes_rules (GENRE_RULES tb) child t = true.

(** Every track stored under the display name of one of the synthetic nodes
    [syns] qualifies for a child genre of a node of that name. *)
Definition synthetic_from_children (tb : tables)
    (syns : list (string * string * list string)) (res : gmap string (list track))
    : Prop :=
  forall name l t,
    name ∈ map (fun syn => snd (fst syn)) syns ->
    res !! name = Some l -> t ∈ l ->
    exists syn, syn ∈ syns /\ snd (fst syn) = name /\
      exists child, child ∈ snd syn /\ qualifies_for tb child t.

(** * Properties *)

(** Membership in an explicit list. *)
Ltac in_list := repeat first [ apply list_elem_of_here | apply list_elem_of_further ].
Ltac not_in_list H :=
  repeat (apply elem_of_cons in H as [H|H]; [discriminate H|]);
  by apply elem_of_nil in H.

(** ** The matcher against the declarative reading of patterns *)

Module Re_facts.
Import Re.

Lemma star_greedy_sound {A} p (k : cont A) s prev x :
  star_greedy p prev s k = Some x ->
  exists prev' s', matches (Star p) prev s prev' s' /\ k prev' s' = Some x.
Proof.
  revert prev. induction s as [|c s IH]; intros prev H; simpl in H.
  - exists prev, EmptyString. split; [apply M_star_nil | exact H].
  - destruct (p c) eqn:Hp.
    + destruct (star_greedy p (Some c) s k) eqn:Hs.
      * inversion H; subst. apply IH in Hs as (prev' & s' & Hm & Hk).
        exists prev', s'. split; [by apply M_star_cons | exact Hk].
      * exists prev, (String c s). split; [apply M_star_nil | exact H].
    + exists prev, (String c s). split; [apply M_star_nil | exact H].
Qed.

Lemma star_greedy_complete {A} p (k : cont A) s prev prev' s' x :
  matches (Star p) prev s prev' s' -> k prev' s' = Some x ->
  is_Some (star_greedy p prev s k).
Proof.
  intros Hm Hk. remember (Star p) as r eqn:Hr.
  induction Hm; inversion Hr; subst.
  - destruct s as [|c s]; simpl; [by eexists|].
    destruct (p c); [|by eexists].
    destruct (star_greedy p (Some c) s k); by eexists.
  - simpl. rewrite H. destruct (IHHm eq_refl Hk) as [y ->]. by eexists.
Qed.

Lemma plus_lazy_sound {A} p (k : cont A) s prev x :
  plus_lazy p prev s k = Some x ->
  exists prev' s', matches (PlusLazy p) prev s prev' s' /\ k prev' s' = Some x.
Proof.
  revert prev. induction s as [|c s IH]; intros prev H; simpl in H; [done|].
  destruct (p c) eqn:Hp; [|done].
  destruct (k (Some c) s) eqn:Hk.
  - inversion H; subst. exists (Some c), s. split; [|exact Hk].
    apply M_plus_lazy; [exact Hp | apply M_star_nil].
  - apply IH in H as (prev' & s' & Hm & Hk').
    exists prev', s'. split; [|exact Hk'].
    inversion Hm; subst. apply M_plus_lazy; [exact Hp|].
    by apply M_star_cons.
Qed.

Lemma plus_lazy_complete {A} p (k : cont A) c s prev prev' s' x :
  p c = true -> matches (Star p) (Some c) s prev' s' -> k prev' s' = Some x ->
  is_Some (plus_lazy p prev (String c s) k).
Proof.
  intros Hp Hm Hk. revert prev.
  remember (Star p) as r eqn:Hr. remember (Some c) as pc eqn:Hpc.
  revert c Hp Hpc.
  induction Hm; inversion Hr; subst; intros c0 Hp Hpc prev0; subst.
  - simpl. rewrite Hp, Hk. by eexists.
  - simpl. rewrite Hp. destruct (k (Some c0) (String c s)); [by eexists|].
    apply (IHHm eq_refl Hk c H eq_refl (Some c0)).
Qed.

(** Whatever the matcher accepts is a match of the pattern. *)
Lemma run_sound {A} r : forall (k : cont A) prev s x,
  run r prev s k = Some x ->
  exists prev' s', matches r prev s prev' s' /\ k prev' s' = Some x.
Proof.
  induction r as [|p| |r1 IH1 r2 IH2|r1 IH1 r2 IH2|r1 IH1|p|p|p];
    intros k prev s x H; simpl in H.
  - exists prev, s. split; [apply M_eps | exact H].
  - destruct s as [|c s]; [done|]. destruct (p c) eqn:Hp; [|done].
    exists (Some c), s. split; [by apply M_chr | exact H].
  - destruct (at_boundary prev s) eqn:Hb; [|done].
    exists prev, s. split; [by apply M_bnd | exact H].
  - apply IH1 in H as (p1 & s1 & Hm1 & H). apply IH2 in H as (p2 & s2 & Hm2 & H).
    exists p2, s2. split; [by eapply M_cat | exact H].
  - destruct (run r1 prev s k) eqn:H1.
    + inversion H; subst. apply IH1 in H1 as (p1 & s1 & Hm & Hk).
      exists p1, s1. split; [by apply M_alt_l | exact Hk].
    + apply IH2 in H as (p1 & s1 & Hm & Hk).
      exists p1, s1. split; [by apply M_alt_r | exact Hk].
  - destruct (run r1 prev s k) eqn:H1.
    + inversion H; subst. apply IH1 in H1 as (p1 & s1 & Hm & Hk).
      exists p1, s1. split; [by apply M_opt_some | exact Hk].
    + exists prev, s. split; [apply M_opt_none | exact H].
  - by apply star_greedy_sound.
  - destruct s as [|c s]; [done|]. destruct (p c) eqn:Hp; [|done].
    apply star_greedy_sound in H as (p1 & s1 & Hm & Hk).
    exists p1, s1. split; [by apply M_plus | exact Hk].
  - by apply plus_lazy_sound.
Qed.

(** Backtracking is exhaustive: if some match of the pattern is accepted by
    the continuation, the matcher accepts (possibly another match). *)
Lemma run_complete {A} r : forall (k : cont A) prev s prev' s' x,
  matches r prev s prev' s' -> k prev' s' = Some x -> is_Some (run r prev s k).
Proof.
  induction r as [|p| |r1 IH1 r2 IH2|r1 IH1 r2 IH2|r1 IH1|p|p|p];
    intros k prev s prev' s' x Hm Hk; inversion Hm; subst; cbn [run].
  - by eexists.
  - match goal with H : p _ = true |- _ => rewrite H end. by eexists.
  - match goal with H : at_boundary _ _ = true |- _ => rewrite H end. by eexists.
  - match goal with
    | H1 : matches r1 _ _ _ _, H2 : matches r2 _ _ _ _ |- _ =>
        destruct (IH2 k _ _ _ _ _ H2 Hk) as [y Hy];
        exact (IH1 _ _ _ _ _ _ H1 Hy)
    end.
  - match goal with H1 : matches r1 _ _ _ _ |- _ =>
      destruct (IH1 k _ _ _ _ _ H1 Hk) as [y ->] end.
    by eexists.
  - destruct (run r1 prev s k); [by eexists|].
    match goal with H2 : matches r2 _ _ _ _ |- _ =>
      exact (IH2 k _ _ _ _ _ H2 Hk) end.
  - match goal with H1 : matches r1 _ _ _ _ |- _ =>
      destruct (IH1 k _ _ _ _ _ H1 Hk) as [y ->] end.
    by eexists.
  - destruct (run r1 prev' s' k); by eexists.
  - exact (star_greedy_complete p k _ _ _ _ _ Hm Hk).
  - exact (star_greedy_complete p k _ _ _ _ _ Hm Hk).
  - match goal with H : p _ = true, H1 : matches (Star p) _ _ _ _ |- _ =>
      rewrite H; exact (star_greedy_complete p k _ _ _ _ _ H1 Hk) end.
  - match goal with H : p _ = true, H1 : matches (Star p) _ _ _ _ |- _ =>
      exact (plus_lazy_complete p k _ _ _ _ _ _ H H1 Hk) end.
Qed.

(** Inversion of [matches], one lemma per pattern former. *)
Lemma matches_eps_inv prev s prev' s' :
  matches Eps prev s prev' s' -> prev' = prev /\ s' = s.
Proof. intros H. by inversion H. Qed.

Lemma matches_chr_inv p prev s prev' s' :
  matches (Chr p) prev s prev' s' ->
  exists c, s = String c s' /\ prev' = Some c /\ p c = true.
Proof. intros H. inversion H; subst. eauto. Qed.

Lemma matches_bnd_inv prev s prev' s' :
  matches Bnd prev s prev' s' -> prev' = prev /\ s' = s /\ at_boundary prev s = true.
Proof. intros H. by inversion H. Qed.

Lemma matches_cat_inv r1 r2 prev s prev' s' :
  matches (Cat r1 r2) prev s prev' s' ->
  exists p1 s1, matches r1 prev s p1 s1 /\ matches r2 p1 s1 prev' s'.
Proof. intros H. inversion H; subst. eauto. Qed.

Lemma matches_alt_inv r1 r2 prev s prev' s' :
  matches (Alt r1 r2) prev s prev' s' ->
  matches r1 prev s prev' s' \/ matches r2 prev s prev' s'.
Proof. intros H. inversion H; subst; auto. Qed.

Lemma matches_opt_inv r prev s prev' s' :
  matches (Opt r) prev s prev' s' ->
  matches r prev s prev' s' \/ (prev' = prev /\ s' = s).
Proof. intros H. inversion H; subst; auto. Qed.

Lemma match_here_iff r prev s :
  is_Some (match_here r prev s) <-> exists prev' s', matches r prev s prev' s'.
Proof.
  unfold match_here. split.
  - intros [[p1 s1] H]. apply run_sound in H as (p2 & s2 & Hm & _). eauto.
  - intros (p1 & s1 & Hm). by eapply run_complete.
Qed.

Lemma app_empty_l (s : string) : "" +:+ s = s.
Proof. reflexivity. Qed.

Lemma app_cons (c : ascii) (s1 s2 : string) :
  String c s1 +:+ s2 = String c (s1 +:+ s2).
Proof. reflexivity. Qed.

Lemma search_from_here r prev s :
  is_Some (match_here r prev s) -> is_Some (search_from r prev s).
Proof.
  intros [m Hm]. destruct s; simpl; rewrite Hm; by eexists.
Qed.

Lemma search_from_later r prev c s :
  is_Some (search_from r (Some c) s) -> is_Some (search_from r prev (String c s)).
Proof.
  intros [[pre m] Hs]. simpl. rewrite Hs.
  destruct (match_here r prev (String c s)); by eexists.
Qed.

Lemma search_from_inv r prev s :
  is_Some (search_from r prev s) ->
  is_Some (match_here r prev s) \/
  exists c s', s = String c s' /\ is_Some (search_from r (Some c) s').
Proof.
  intros Hs. destruct (match_here r prev s) as [m|] eqn:Hm; [left; by eexists|].
  right. destruct s as [|c s]; simpl in Hs; rewrite Hm in Hs.
  - by destruct Hs.
  - exists c, s. split; [done|].
    destruct (search_from r (Some c) s) as [[pre m]|]; [by eexists|].
    by destruct Hs.
Qed.

(** [re.search] succeeds exactly when the pattern matches at some offset. *)
Lemma search_from_iff r : forall s prev,
  is_Some (search_from r prev s) <->
  exists pre post prev' s', s = pre +:+ post /\
    matches r (last_char prev pre) post prev' s'.
Proof.
  induction s as [|c s IH]; intros prev; split.
  - intros Hs. apply search_from_inv in Hs as [Hs|(c & s' & Heq & _)]; [|done].
    apply match_here_iff in Hs as (p1 & s1 & Hs).
    by exists EmptyString, EmptyString, p1, s1.
  - intros (pre & post & p1 & s1 & Heq & Hmt).
    destruct pre as [|c pre]; [|by rewrite app_cons in Heq].
    rewrite app_empty_l in Heq. subst post.
    apply search_from_here, match_here_iff. eauto.
  - intros Hs. apply search_from_inv in Hs as [Hs|(c' & s' & Heq & Hs)].
    + apply match_here_iff in Hs as (p1 & s1 & Hs).
      by exists EmptyString, (String c s), p1, s1.
    + injection Heq as <- <-.
      apply IH in Hs as (pre & post & p1 & s1 & -> & Hmt).
      by exists (String c pre), post, p1, s1.
  - intros (pre & post & p1 & s1 & Heq & Hmt).
    destruct pre as [|c' pre].
    + rewrite app_empty_l in Heq. subst post.
      apply search_from_here, match_here_iff. eauto.
    + rewrite app_cons in Heq. injection Heq as <- ->.
      apply search_from_later, IH. by exists pre, post, p1, s1.
Qed.

Lemma search_iff r s :
  search r s = true <->
  exists pre post prev' s', s = pre +:+ post /\
    matches r (last_char None pre) post prev' s'.
Proof.
  unfold search. rewrite <- search_from_iff.
  destruct (search_from r None s); split; intros H; try done; by destruct H.
Qed.

End Re_facts.

(** ** Strings *)

Module Py_facts.

Lemma app_assoc (a b c : string) : (a +:+ b) +:+ c = a +:+ b +:+ c.
Proof. induction a as [|x a IH]; [done|]. by rewrite !Re_facts.app_cons, IH. Qed.

Lemma smap_app f (a b : string) : Py.smap f (a +:+ b) = Py.smap f a +:+ Py.smap f b.
Proof.
  induction a as [|x a IH]; [done|].
  rewrite Re_facts.app_cons. simpl. by rewrite IH.
Qed.

Lemma lower_app (a b : string) : Py.lower (a +:+ b) = Py.lower a +:+ Py.lower b.
Proof. apply smap_app. Qed.

Lemma prefixb_iff (p s : string) :
  Py.prefixb p s = true <-> exists post, s = p +:+ post.
Proof.
  revert s. induction p as [|a p IH]; intros s; simpl.
  - split; [intros _; by exists s | done].
  - destruct s as [|b s].
    + split; [done | intros [post H]; by rewrite Re_facts.app_cons in H].
    + rewrite andb_true_iff, IH. split.
      * intros [Hab [post ->]]. apply Ascii.eqb_eq in Hab as ->. by exists post.
      * intros [post H]. rewrite Re_facts.app_cons in H. injection H as -> ->.
        split; [apply Ascii.eqb_refl | by exists post].
Qed.

(** Python's [sub in s] decides the occurrence of [sub] in [s]. *)
Lemma contains_iff (sub s : string) : Py.contains sub s = true <-> substring sub s.
Proof.
  unfold substring. induction s as [|c s IH]; simpl.
  - rewrite orb_false_r, prefixb_iff. split.
    + intros [post H]. by exists EmptyString, post.
    + intros (pre & post & H). destruct pre as [|x pre]; [by exists post|].
      by rewrite Re_facts.app_cons in H.
  - rewrite orb_true_iff, prefixb_iff, IH. split.
    + intros [[post H]|(pre & post & ->)].
      * by exists EmptyString, post.
      * by exists (String c pre), post.
    + intros (pre & post & H). destruct pre as [|x pre].
      * left. by exists post.
      * right. rewrite Re_facts.app_cons in H. injection H as -> ->.
        by exists pre, post.
Qed.

Lemma app_empty_r (s : string) : s +:+ "" = s.
Proof. induction s as [|c s IH]; [done|]. by rewrite Re_facts.app_cons, IH. Qed.

Lemma contains_refl (s : string) : Py.contains s s = true.
Proof. apply contains_iff. exists EmptyString, EmptyString. by rewrite app_empty_r. Qed.

Lemma existsb_elem_of {A} (f : A -> bool) (l : list A) :
  existsb f l = true <-> exists x, x ∈ l /\ f x = true.
Proof.
  rewrite existsb_exists. split; intros (x & Hx & Hf); exists x; split; try done;
    by apply list_elem_of_In.
Qed.

Lemma existsb_false_elem_of {A} (f : A -> bool) (l : list A) :
  existsb f l = false <-> forall x, x ∈ l -> f x = false.
Proof.
  split.
  - intros H x Hx. destruct (f x) eqn:Hf; [|done].
    assert (existsb f l = true) by (apply existsb_elem_of; eauto). congruence.
  - intros H. destruct (existsb f l) eqn:He; [|done].
    apply existsb_elem_of in He as (x & Hx & Hf). rewrite (H x Hx) in Hf. done.
Qed.

End Py_facts.

(** ** Genre matching *)

(** C6. With genre "punk": a tag list that contains "post-punk" and triggers
    no exclusion matches (the word-boundary pattern finds "punk" inside the
    compound tag); and as soon as the exclusion list of "punk" contains "pop",
    every tag list with a tag that has "pop" as a substring is rejected,
    whatever the other tags are. *)
Theorem genre_match_punk_boundary_and_exclusion
    (EXCLUSIONS : gmap string (list string)) (tags : list string) :
  ("post-punk" ∈ tags -> no_exclusion_applies EXCLUSIONS "punk" tags ->
   genre_match EXCLUSIONS "punk" tags = true) /\
  (forall exclusions g,
     EXCLUSIONS !! "punk" = Some exclusions -> "pop" ∈ exclusions ->
     g ∈ tags -> substring "pop" g ->
     genre_match EXCLUSIONS "punk" tags = false).
Proof.
  split.
  - intros Hin Hno. unfold genre_match.
    assert (match EXCLUSIONS !! "punk" with
            | Some exclusions => existsb (fun e => excluded_by e tags) exclusions
            | None => false
            end = false) as ->.
    { destruct (EXCLUSIONS !! "punk") as [excl|] eqn:HE; [|done].
      apply Py_facts.existsb_false_elem_of. intros e He.
      apply Py_facts.existsb_false_elem_of. intros g Hg.
      destruct (Py.contains (Py.lower e) (Py.lower g)) eqn:Hc; [|done].
      apply Py_facts.contains_iff in Hc. by destruct (Hno excl e g). }
    apply Py_facts.existsb_elem_of. exists "post-punk". split; [done|].
    vm_compute. reflexivity.
  - intros excl g HE Hpop Hg (pre & post & ->). unfold genre_match. rewrite HE.
    assert (existsb (fun e => excluded_by e tags) excl = true) as ->; [|done].
    apply Py_facts.existsb_elem_of. exists "pop". split; [done|].
    apply Py_facts.existsb_elem_of. eexists. split; [exact Hg|].
    apply Py_facts.contains_iff. rewrite !Py_facts.lower_app.
    by exists (Py.lower pre), (Py.lower post).
Qed.

(** Witness for C6: the table of [killmegod.py] on ["post-punk"], and the
    table of [extract_genre_seeds.py] on ["post-punk"; "pop punk"]. *)
Lemma genre_match_punk_boundary_and_exclusion_witness :
  genre_match EXCLUSIONS_killmegod "punk" ["post-punk"] = true /\
  genre_match EXCLUSIONS_extract "punk" ["post-punk"; "pop punk"] = false.
Proof.
  split.
  - apply (proj1 (genre_match_punk_boundary_and_exclusion
                    EXCLUSIONS_killmegod ["post-punk"])).
    + apply list_elem_of_here.
    + intros excl e g HE He Hg Hsub.
      apply Py_facts.contains_iff in Hsub.
      vm_compute in HE. injection HE as <-.
      apply list_elem_of_singleton in Hg as ->.
      repeat (apply elem_of_cons in He as [->|He];
                [vm_compute in Hsub; discriminate|]).
      by apply not_elem_of_nil in He.
  - apply (proj2 (genre_match_punk_boundary_and_exclusion
                    EXCLUSIONS_extract ["post-punk"; "pop punk"])
             ["pop punk"; "pop"] "pop punk").
    + vm_compute. reflexivity.
    + apply list_elem_of_further, list_elem_of_here.
    + apply list_elem_of_further, list_elem_of_here.
    + by exists EmptyString, " punk".
Defined.

(** ** Feature credits *)

Module Text_facts.
Import Re Re_facts Killmegod_text.

Lemma lower_char_word c : Py.is_word (Py.lower_char c) = Py.is_word c.
Proof. destruct c as [[] [] [] [] [] [] [] []]; reflexivity. Qed.

Lemma at_boundary_xor prev s :
  at_boundary prev s = xorb (word_opt prev) (word_after s).
Proof. reflexivity. Qed.

Lemma last_char_app prev a b : last_char prev (a +:+ b) = last_char (last_char prev a) b.
Proof. revert prev. induction a as [|c a IH]; intros prev; [done|]. apply IH. Qed.

Lemma lower_cons c s : Py.lower (String c s) = String (Py.lower_char c) (Py.lower s).
Proof. reflexivity. Qed.

(** A case-insensitive literal matches exactly the strings that lower to it. *)
Lemma matches_lit_ci w : forall prev s prev' s',
  matches (lit true w) prev s prev' s' <->
  exists mid, s = mid +:+ s' /\ prev' = last_char prev mid /\
              Py.lower mid = Py.lower w.
Proof.
  induction w as [|a w IH]; intros prev s prev' s'; simpl; split.
  - intros H. apply matches_eps_inv in H as [-> ->]. by exists EmptyString.
  - intros (mid & -> & -> & Hl). destruct mid; [|done]. apply M_eps.
  - intros H. apply matches_cat_inv in H as (p1 & s1 & H1 & H2).
    apply matches_chr_inv in H1 as (c & -> & -> & Hc).
    apply IH in H2 as (mid & -> & -> & Hl).
    exists (String c mid). split; [done|]. split; [done|].
    rewrite !lower_cons, Hl. f_equal. by apply Ascii.eqb_eq in Hc.
  - intros (mid & -> & -> & Hl). destruct mid as [|c mid]; [done|].
    rewrite !lower_cons in Hl. injection Hl as Hc Hl.
    eapply M_cat.
    + apply M_chr. unfold chr_eq. rewrite Hc. apply Ascii.eqb_refl.
    + apply IH. by exists mid.
Qed.

Lemma matches_word_dot w prev s prev' s' :
  matches (Cat (lit true w) (Opt (Chr (is_char ".")))) prev s prev' s' <->
  exists mid, Py.lower mid = Py.lower w /\
    ((s = mid +:+ s' /\ prev' = last_char prev mid) \/
     (s = mid +:+ String "." s' /\ prev' = Some "."%char)).
Proof.
  split.
  - intros H. apply matches_cat_inv in H as (p1 & s1 & H1 & H2).
    apply matches_lit_ci in H1 as (mid & -> & -> & Hl).
    exists mid. split; [exact Hl|].
    apply matches_opt_inv in H2 as [Hd|[-> ->]]; [|by left].
    apply matches_chr_inv in Hd as (c & -> & -> & Hc).
    apply Ascii.eqb_eq in Hc as ->. by right.
  - intros (mid & Hl & [[-> ->]|[-> ->]]).
    + eapply M_cat; [|apply M_opt_none]. apply matches_lit_ci. by exists mid.
    + eapply M_cat.
      * apply matches_lit_ci. by exists mid.
      * apply M_opt_some, M_chr. reflexivity.
Qed.

(** What the alternation of feature words matches: one of the four words,
    ignoring case, optionally followed by a dot after "feat" and "ft". *)
Lemma matches_feature_word prev s prev' s' :
  matches feature_word prev s prev' s' <->
  exists w mid, Py.lower mid = w /\
    ((w ∈ ["feat"; "ft"; "featuring"; "with"] /\
      s = mid +:+ s' /\ prev' = last_char prev mid) \/
     (w ∈ ["feat"; "ft"] /\ s = mid +:+ String "." s' /\ prev' = Some "."%char)).
Proof.
  unfold feature_word. split.
  - intros H. apply matches_alt_inv in H as [H|H].
    { apply matches_word_dot in H as (mid & Hl & [[-> ->]|[-> ->]]);
        exists "feat", mid; (split; [exact Hl|]); [left|right];
        (split; [in_list|done]). }
    apply matches_alt_inv in H as [H|H].
    { apply matches_word_dot in H as (mid & Hl & [[-> ->]|[-> ->]]);
        exists "ft", mid; (split; [exact Hl|]); [left|right];
        (split; [in_list|done]). }
    apply matches_alt_inv in H as [H|H].
    + apply (matches_lit_ci "featuring") in H as (mid & -> & -> & Hl).
      exists "featuring", mid. split; [exact Hl|]. left. split; [in_list|done].
    + apply (matches_lit_ci "with") in H as (mid & -> & -> & Hl).
      exists "with", mid. split; [exact Hl|]. left. split; [in_list|done].
  - intros (w & mid & Hl & [(Hw & -> & ->)|(Hw & -> & ->)]).
    + repeat (apply elem_of_cons in Hw as [->|Hw]).
      * apply M_alt_l, matches_word_dot. exists mid. split; [done|by left].
      * apply M_alt_r, M_alt_l, matches_word_dot. exists mid. split; [done|by left].
      * apply M_alt_r, M_alt_r, M_alt_l, (matches_lit_ci "featuring"). by exists mid.
      * apply M_alt_r, M_alt_r, M_alt_r, (matches_lit_ci "with"). by exists mid.
      * by apply elem_of_nil in Hw.
    + repeat (apply elem_of_cons in Hw as [->|Hw]).
      * apply M_alt_l, matches_word_dot. exists mid. split; [done|by right].
      * apply M_alt_r, M_alt_l, matches_word_dot. exists mid. split; [done|by right].
      * by apply elem_of_nil in Hw.
Qed.

Lemma word_after_app_lower mid x :
  mid <> EmptyString -> word_after (mid +:+ x) = word_after (Py.lower mid).
Proof. destruct mid as [|c mid]; [done|]. intros _. simpl. by rewrite lower_char_word. Qed.

Lemma word_opt_last_lower mid : forall prev,
  mid <> EmptyString ->
  word_opt (last_char prev mid) = word_opt (last_char None (Py.lower mid)).
Proof.
  induction mid as [|c mid IH]; intros prev Hne; [done|].
  destruct mid as [|c' mid].
  - simpl. by rewrite lower_char_word.
  - change (last_char prev (String c (String c' mid)))
      with (last_char (Some c) (String c' mid)).
    rewrite (IH (Some c)) by done.
    rewrite (lower_cons c).
    change (last_char None (String (Py.lower_char c) (Py.lower (String c' mid))))
      with (last_char (Some (Py.lower_char c)) (Py.lower (String c' mid))).
    by rewrite lower_cons.
Qed.

Lemma lower_split a : forall w1 w2,
  Py.lower a = w1 +:+ w2 ->
  exists m1 m2, a = m1 +:+ m2 /\ Py.lower m1 = w1 /\ Py.lower m2 = w2.
Proof.
  induction a as [|c a IH]; intros w1 w2 H.
  - destruct w1; [|done]. exists EmptyString, EmptyString.
    split; [done|]. split; [done|exact H].
  - destruct w1 as [|x w1].
    + exists EmptyString, (String c a). split; [done|]. split; [done|exact H].
    + rewrite lower_cons, app_cons in H. injection H as Hx H.
      apply IH in H as (m1 & m2 & -> & H1 & H2).
      exists (String c m1), m2. by rewrite lower_cons, H1, Hx.
Qed.


Lemma four_words_shape w mid x prev :
  w ∈ four_words -> Py.lower mid = w ->
  word_after (mid +:+ x) = true /\ word_opt (last_char prev mid) = true.
Proof.
  intros Hw Hl.
  assert (mid <> EmptyString) as Hne.
  { intros ->. subst w. unfold four_words in Hw. not_in_list Hw. }
  rewrite word_after_app_lower, (word_opt_last_lower mid prev) by done.
  rewrite Hl. unfold four_words in Hw.
  repeat (apply elem_of_cons in Hw as [->|Hw]); try done.
  by apply elem_of_nil in Hw.
Qed.

(** The marker pattern finds a match exactly in the strings that contain one
    of the four feature words standing alone. *)
Lemma feature_marker_search s :
  search feature_marker_re s = true <->
  exists w, w ∈ four_words /\ standalone w s.
Proof.
  rewrite search_iff. unfold feature_marker_re, seq. simpl. split.
  - intros (pre & post & p' & s' & -> & H).
    apply matches_cat_inv in H as (p1 & s1 & Hb1 & H).
    apply matches_bnd_inv in Hb1 as (-> & -> & Hb1).
    apply matches_cat_inv in H as (p2 & s2 & Hw & H).
    apply matches_cat_inv in H as (p3 & s3 & Hb2 & H).
    apply matches_bnd_inv in Hb2 as (-> & -> & Hb2).
    apply matches_eps_inv in H as [-> ->].
    apply matches_feature_word in Hw as (w & mid & Hl & [(Hw & -> & ->)|(Hw & -> & ->)]).
    + exists w. split; [exact Hw|]. exists pre, mid, s2.
      destruct (four_words_shape w mid s2 (last_char None pre) Hw Hl) as [Ha Hz].
      rewrite at_boundary_xor in Hb1, Hb2. rewrite Ha in Hb1. rewrite Hz in Hb2.
      repeat split; try done.
      * unfold word_before. by destruct (word_opt (last_char None pre)).
      * by destruct (word_after s2).
    + assert (w ∈ four_words) as Hw4.
      { unfold four_words.
        repeat (apply elem_of_cons in Hw as [->|Hw]); [in_list..|].
        by apply elem_of_nil in Hw. }
      exists w. split; [exact Hw4|]. exists pre, mid, (String "." s2).
      destruct (four_words_shape w mid (String "." s2) (last_char None pre) Hw4 Hl)
        as [Ha _].
      rewrite at_boundary_xor in Hb1. rewrite Ha in Hb1.
      repeat split; try done.
      unfold word_before. by destruct (word_opt (last_char None pre)).
  - intros (w & Hw & pre & mid & post & -> & Hl & Hpre & Hpost).
    destruct (four_words_shape w mid post (last_char None pre) Hw Hl) as [Ha Hz].
    exists pre, (mid +:+ post), (last_char (last_char None pre) mid), post.
    split; [done|].
    eapply M_cat.
    { apply M_bnd. rewrite at_boundary_xor, Ha. unfold word_before in Hpre.
      by rewrite Hpre. }
    eapply M_cat.
    { apply matches_feature_word. exists w, mid. split; [exact Hl|]. by left. }
    eapply M_cat; [|apply M_eps].
    apply M_bnd. by rewrite at_boundary_xor, Hz, Hpost.
Qed.

Lemma lower_char_dot c : Py.lower_char c = "."%char -> Py.is_word c = false.
Proof. intros H. by rewrite <- lower_char_word, H. Qed.

(** The dotted tokens add nothing: a standalone "feat." contains a standalone
    "feat", since the dot is not a word character. *)
Lemma feature_tokens_four s :
  (exists w, w ∈ feature_tokens /\ standalone w s) <->
  (exists w, w ∈ four_words /\ standalone w s).
Proof.
  split.
  - intros (w & Hw & pre & mid & post & -> & Hl & Hpre & Hpost).
    assert (forall v, w = v +:+ "." -> v ∈ four_words ->
            exists w, w ∈ four_words /\ standalone w (pre +:+ mid +:+ post)) as Hdot.
    { intros v -> Hv. apply lower_split in Hl as (m1 & m2 & -> & H1 & H2).
      exists v. split; [exact Hv|]. exists pre, m1, (m2 +:+ post).
      rewrite Py_facts.app_assoc. repeat split; try done.
      destruct m2 as [|c m2]; [done|]. rewrite lower_cons in H2.
      injection H2 as Hc _. rewrite app_cons. simpl. by apply lower_char_dot. }
    unfold feature_tokens in Hw.
    repeat (apply elem_of_cons in Hw as [->|Hw]).
    + exists "feat". split; [unfold four_words; in_list|]. by exists pre, mid, post.
    + apply (Hdot "feat"); [done|unfold four_words; in_list].
    + exists "ft". split; [unfold four_words; in_list|]. by exists pre, mid, post.
    + apply (Hdot "ft"); [done|unfold four_words; in_list].
    + exists "featuring". split; [unfold four_words; in_list|].
      by exists pre, mid, post.
    + exists "with". split; [unfold four_words; in_list|]. by exists pre, mid, post.
    + by apply elem_of_nil in Hw.
  - intros (w & Hw & Hs). exists w. split; [|exact Hs].
    unfold four_words in Hw. unfold feature_tokens.
    repeat (apply elem_of_cons in Hw as [->|Hw]); [in_list..|].
    by apply elem_of_nil in Hw.
Qed.

Lemma has_feature_marker_iff t : has_feature_marker t = true <-> feature_titled t.
Proof.
  unfold has_feature_marker, feature_titled.
  by rewrite feature_marker_search, feature_tokens_four.
Qed.

Lemma cleaned_tracks_filter tracks :
  cleaned_tracks tracks =
  clean_track <$> filter (fun t => has_feature_marker t = false) tracks.
Proof.
  induction tracks as [|t tracks IH]; [done|]. simpl.
  rewrite filter_cons. destruct (has_feature_marker t) eqn:Hm.
  - rewrite decide_False by done. exact IH.
  - rewrite decide_True by done. rewrite fmap_cons. by f_equal.
Qed.

End Text_facts.

(** ** Rule gates *)

(** C2, counterexample.  The "shoegaze" record has a whitelist with "Slowdive"
    and a require list; the Slowdive track tagged only "alternative rock" is
    rejected, by [killmegod.py] at the require gate and by [v2.py], which has
    no whitelist gate. *)
Lemma passes_rules_whitelist_counterexample :
  shoegaze_table !! Py.lower "shoegaze" = Some shoegaze_rule /\
  "Slowdive" ∈ whitelist_artists shoegaze_rule /\
  require_artist_genres_any shoegaze_rule <> [] /\
  first_artist slowdive_alt_rock = "Slowdive" /\
  Killmegod_rules.require_ok shoegaze_rule (map Py.lower (raw_tags slowdive_alt_rock)) = false /\
  Killmegod_rules.passes_rules shoegaze_table "shoegaze" slowdive_alt_rock = false /\
  V2_rules.passes_rules shoegaze_table "shoegaze" slowdive_alt_rock = false.
Proof.
  split; [by vm_compute|]. split; [in_list|]. split; [done|].
  split; [done|]. split; [by vm_compute|]. split; by vm_compute.
Qed.

(** C2, as the code has it.  For a track whose primary artist is a whitelist
    entry (ignoring case), [passes_rules] of [killmegod.py] admits the track
    exactly when the four text gates pass: no denied tag, a required tag when
    a require list is configured, no denied title token, no denied artist
    token.  The year and popularity windows are skipped; the require gate is
    not. *)
Theorem passes_rules_whitelist_skips_numeric_gates
    (GENRE_RULES : gmap string rule) (genre : string) (rules : rule) (t : track) :
  GENRE_RULES !! Py.lower genre = Some rules ->
  (exists w, w ∈ whitelist_artists rules /\ Py.lower w = Py.lower (first_artist t)) ->
  Killmegod_rules.passes_rules GENRE_RULES genre t = true <->
  Killmegod_rules.deny_hit rules (map Py.lower (raw_tags t)) = false /\
  Killmegod_rules.require_ok rules (map Py.lower (raw_tags t)) = true /\
  Killmegod_rules.name_deny_hit rules (Py.lower (Py.or_str (name t) "")) = false /\
  Killmegod_rules.artist_deny_hit rules (Py.lower (first_artist t)) = false.
Proof.
  intros Hr (w & Hw & Hl). unfold Killmegod_rules.passes_rules. rewrite Hr.
  assert (Killmegod_rules.whitelisted rules (Py.lower (first_artist t)) = true) as Hwl.
  { apply Py_facts.existsb_elem_of. exists w. split; [exact Hw|].
    rewrite Hl. apply Py_facts.contains_refl. }
  cbv zeta.
  destruct (Killmegod_rules.deny_hit rules _);
    [split; [done | by intros (? & ? & ? & ?)]|].
  destruct (Killmegod_rules.require_ok rules _); simpl;
    [|split; [done | by intros (? & ? & ? & ?)]].
  destruct (Killmegod_rules.name_deny_hit rules _);
    [split; [done | by intros (? & ? & ? & ?)]|].
  destruct (Killmegod_rules.artist_deny_hit rules _);
    [split; [done | by intros (? & ? & ? & ?)]|].
  by rewrite Hwl.
Qed.

(** Witness for C2: Slowdive with a "shoegaze" tag is admitted although the
    track is older than [min_year] and more popular than [popularity_max]. *)
Lemma passes_rules_whitelist_skips_numeric_gates_witness :
  Killmegod_rules.year_ok shoegaze_rule slowdive_shoegaze_old = false /\
  Killmegod_rules.popularity_ok shoegaze_rule slowdive_shoegaze_old = false /\
  Killmegod_rules.passes_rules shoegaze_table "shoegaze" slowdive_shoegaze_old = true.
Proof.
  split; [by vm_compute|]. split; [by vm_compute|].
  apply (passes_rules_whitelist_skips_numeric_gates
           shoegaze_table "shoegaze" shoegaze_rule slowdive_shoegaze_old).
  - by vm_compute.
  - exists "Slowdive". split; [in_list | by vm_compute].
  - repeat split; by vm_compute.
Defined.

(** ** Statistics *)

Module Stats_facts.
Import Stats.

Lemma insert_asc_perm x l : insert_asc x l ≡ₚ x :: l.
Proof.
  induction l as [|y l IH]; simpl; [done|].
  destruct (y <? x)%float; [|done].
  rewrite IH. apply Permutation_swap.
Qed.

(** [sorted] rearranges its argument. *)
Lemma sorted_perm vals : sorted vals ≡ₚ vals.
Proof.
  induction vals as [|x vals IH]; simpl; [done|].
  rewrite insert_asc_perm. by constructor.
Qed.

Lemma SFltb_asym f1 f2 : SFltb f1 f2 = true -> SFltb f2 f1 = false.
Proof.
  unfold SFltb, SFcompare.
  destruct f1 as [s1|s1| |s1 m1 e1], f2 as [s2|s2| |s2 m2 e2];
    try destruct s1; try destruct s2; try done.
  - rewrite (Z.compare_antisym e1 e2), (ZC4 m2 m1).
    destruct (e1 ?= e2)%Z; simpl; try done.
    by destruct (Pos.compare_cont Eq m1 m2).
  - rewrite (Z.compare_antisym e1 e2), (ZC4 m2 m1).
    destruct (e1 ?= e2)%Z; simpl; try done.
    by destruct (Pos.compare_cont Eq m1 m2).
Qed.

Lemma ltb_asym (a b : float) : (a <? b)%float = true -> (b <? a)%float = false.
Proof. rewrite !ltb_spec. apply SFltb_asym. Qed.

Lemma insert_asc_ascending x l : ascending l -> ascending (insert_asc x l).
Proof.
  induction l as [|y l IH]; intros Hl; [done|].
  cbn [insert_asc]. destruct (y <? x)%float eqn:Hyx.
  - assert (ascending l) as Hl' by (destruct l; [done | by destruct Hl]).
    specialize (IH Hl'). destruct l as [|z l]; cbn [insert_asc] in *.
    + split; [by apply ltb_asym | done].
    + destruct (z <? x)%float.
      * split; [by destruct Hl | done].
      * split; [by apply ltb_asym | done].
  - split; [done|done].
Qed.

(** [sorted] puts its argument in ascending order. *)
Lemma sorted_ascending vals : ascending (sorted vals).
Proof.
  induction vals as [|x vals IH]; [done|].
  by apply insert_asc_ascending.
Qed.

Lemma sorted_length vals : length (sorted vals) = length vals.
Proof. apply Permutation_length, sorted_perm. Qed.

Lemma py_index_nonneg {A} (xs : list A) i :
  (0 <= i)%Z -> py_index xs i = xs !! Z.to_nat i.
Proof. intros Hi. unfold py_index. by rewrite (proj2 (Z.leb_le 0 i) Hi). Qed.

End Stats_facts.

(** C5.  [linear_quantile] sorts the values (the sorted list is a
    rearrangement in ascending order), returns the only value when there is
    one, and otherwise interpolates linearly between the order statistics
    around index [(n-1)*q]; on [10, 20, 30, 40] it returns 25.0 at q = 0.5 and
    13.0 at q = 0.10, in binary64 arithmetic. *)
Theorem linear_quantile_interpolates (vals : list float) (q : float) :
  Stats.sorted vals ≡ₚ vals /\
  ascending (Stats.sorted vals) /\
  (forall x, vals = [x] -> Stats.linear_quantile vals q = Ok (Some x)) /\
  (forall i a b,
     (2 <= length vals)%nat ->
     Fl.floor (Fl.of_Z (Z.of_nat (length vals) - 1) * q)%float = Some i ->
     (0 <= i)%Z -> (i + 1 < Z.of_nat (length vals))%Z ->
     Stats.sorted vals !! Z.to_nat i = Some a ->
     Stats.sorted vals !! Z.to_nat (i + 1) = Some b ->
     let frac := (Fl.of_Z (Z.of_nat (length vals) - 1) * q - Fl.of_Z i)%float in
     Stats.linear_quantile vals q = Ok (Some (a * (1 - frac) + b * frac)%float)) /\
  Stats.linear_quantile quantile_values q50 = Ok (Some 25%float) /\
  Stats.linear_quantile quantile_values q10 = Ok (Some 13%float).
Proof.
  split; [apply Stats_facts.sorted_perm|].
  split; [apply Stats_facts.sorted_ascending|].
  split; [intros x ->; reflexivity|].
  split; [|split; by vm_compute].
  intros i a b Hn Hfl Hi0 Hi1 Ha Hb frac. subst frac.
  unfold Stats.linear_quantile.
  pose proof (Stats_facts.sorted_length vals) as Hlen.
  destruct (Stats.sorted vals) as [|x [|y xs]] eqn:Hs; simpl in Hlen; [lia..|].
  rewrite <- Hs in *. rewrite Stats_facts.sorted_length.
  rewrite Hfl. rewrite (proj2 (Z.ltb_lt _ _) Hi1).
  rewrite !Stats_facts.py_index_nonneg by lia.
  by rewrite Ha, Hb.
Qed.

(** Witness for C5: the median of [10, 20, 30, 40] through the interpolation
    clause, index 1.5. *)
Lemma linear_quantile_interpolates_witness :
  Stats.linear_quantile quantile_values q50 =
  Ok (Some (20 * (1 - (3 * q50 - 1)) + 30 * (3 * q50 - 1))%float).
Proof.
  apply (proj1 (proj2 (proj2 (proj2 (linear_quantile_interpolates quantile_values q50))))
           1%Z).
  - simpl. lia.
  - by vm_compute.
  - lia.
  - simpl. lia.
  - reflexivity.
  - reflexivity.
Defined.

(** ** File names *)

(** C7, at the input of the specification.  [strip_features] deletes the
    marker and a single following character, because the lazy [[^)]+?] is
    followed by an optional [\)?]; the credit "(feat. Jay-Z)" leaves "ay-Z)"
    behind and the file name is not "beyonc-crazy-in-love.json".  The variants
    without feature stripping keep the whole credit. *)
Theorem generate_filename_feature_credit :
  Killmegod_text.strip_features crazy_in_love = "Crazy In Loveay-Z)" /\
  Killmegod_text.generate_filename (Some beyonce) (Some crazy_in_love)
    = "beyonc-crazy-in-loveay-z.json" /\
  Killmegod_text.generate_filename (Some beyonce) (Some crazy_in_love)
    <> "beyonc-crazy-in-love.json" /\
  generate_filename_v2 (Some beyonce) (Some crazy_in_love)
    = "beyonc-crazy-in-love-feat-jay-z.json" /\
  generate_filename_extract beyonce crazy_in_love
    = "beyonc_crazy-in-love-feat-jay-z.json".
Proof. repeat split; by vm_compute. Qed.

(** A credit of a single character is removed whole, parenthesis included. *)
Example strip_features_short_credit :
  Killmegod_text.strip_features "Song (feat. A)" = "Song" /\
  Killmegod_text.generate_filename (Some "Artist") (Some "Song (feat. A)")
    = "artist-song.json".
Proof. split; by vm_compute. Qed.

(** A title without any feature credit is altered when a word ends in "ft". *)
Example strip_features_soft_machine :
  Killmegod_text.strip_features "Soft Machine" = "Soachine".
Proof. by vm_compute. Qed.

(** ** Sorting and scoring keep the candidates *)

Module Sel_facts.

Lemma insert_desc_perm {A} (x : float * A) l : insert_desc x l ≡ₚ x :: l.
Proof.
  induction l as [|y l IH]; simpl; [done|].
  destruct (fst x <? fst y)%float; [|done].
  rewrite IH. apply Permutation_swap.
Qed.

Lemma sort_desc_perm {A} (l : list (float * A)) : sort_desc l ≡ₚ l.
Proof.
  induction l as [|x l IH]; simpl; [done|].
  rewrite insert_desc_perm. by constructor.
Qed.

Lemma insert_by_key_perm {A} (x : float * A) l : insert_by_key x l ≡ₚ x :: l.
Proof.
  induction l as [|y l IH]; simpl; [done|].
  destruct (fst y <? fst x)%float; [|done].
  rewrite IH. apply Permutation_swap.
Qed.

Lemma sort_asc_perm {A} (l : list (float * A)) : sort_asc l ≡ₚ l.
Proof.
  induction l as [|x l IH]; simpl; [done|].
  rewrite insert_by_key_perm. by constructor.
Qed.

Lemma in_set_mono o (s s' : gset string) :
  s ⊆ s' -> in_set o s = true -> in_set o s' = true.
Proof.
  destruct o as [x|]; simpl; [|done]. intros Hs H.
  apply bool_decide_eq_true in H. apply bool_decide_eq_true. set_solver.
Qed.

Lemma in_set_anti o (s s' : gset string) :
  s ⊆ s' -> in_set o s' = false -> in_set o s = false.
Proof.
  intros Hs H. destruct (in_set o s) eqn:E; [|done].
  by rewrite (in_set_mono o s s' Hs E) in H.
Qed.

Lemma in_set_add o (s : gset string) :
  falsy o = false -> in_set o (add_opt o s) = true.
Proof.
  destruct o as [x|]; simpl; [|done]. intros _.
  apply bool_decide_eq_true. set_solver.
Qed.

Lemma add_opt_subseteq o (s : gset string) : s ⊆ add_opt o s.
Proof. destruct o; simpl; set_solver. Qed.

Lemma subseteq_add_opt o (s s' : gset string) : s ⊆ s' -> s ⊆ add_opt o s'.
Proof. intros H. etrans; [exact H | apply add_opt_subseteq]. Qed.

Lemma subseteq_add x (s s' : gset string) : s ⊆ s' -> s ⊆ {[ x ]} ∪ s'.
Proof. set_solver. Qed.

Lemma add_subseteq_inv x (s s' : gset string) : {[ x ]} ∪ s ⊆ s' -> s ⊆ s'.
Proof. set_solver. Qed.

Lemma add_opt_subseteq_inv o (s s' : gset string) : add_opt o s ⊆ s' -> s ⊆ s'.
Proof. intros H. etrans; [apply add_opt_subseteq | exact H]. Qed.

Lemma elem_add_here x (s : gset string) : x ∈ {[ x ]} ∪ s.
Proof. set_solver. Qed.

Lemma elem_add_there x y (s : gset string) : x ∈ s -> x ∈ {[ y ]} ∪ s.
Proof. set_solver. Qed.

Lemma not_elem_anti x (s s' : gset string) : s ⊆ s' -> x ∉ s' -> x ∉ s.
Proof. set_solver. Qed.

Lemma elem_mono x (s s' : gset string) : s ⊆ s' -> x ∈ s -> x ∈ s'.
Proof. set_solver. Qed.

Lemma in_set_add_ne o o' (s : gset string) :
  o <> o' -> in_set o (add_opt o' s) = in_set o s.
Proof.
  destruct o as [x|], o' as [y|]; simpl; try done. intros Hne.
  apply bool_decide_ext. set_solver.
Qed.

Lemma foldl_inv {A B} (P : A -> Prop) (f : A -> B -> A) l : forall a,
  P a -> (forall a b, P a -> P (f a b)) -> P (foldl f a l).
Proof.
  induction l as [|b l IH]; intros a Ha Hf; simpl; [done|].
  apply IH; [by apply Hf | done].
Qed.

End Sel_facts.

(** ** Uniqueness across genres: [killmegod.py] *)

Module Killmegod_facts.
Import Sel_facts Killmegod.

Section Facts.
Context {rng : Type} (rng_seed : Z -> rng) (rng_random : rng -> float * rng).
Variable cfg : config.
Variable tb : tables.

Lemma score_all_tracks env genre l g :
  map snd (fst (score_all rng_random cfg tb env genre l g)) = l.
Proof.
  revert g. induction l as [|t l IH]; intros g; simpl; [done|].
  destruct (proto_score rng_random cfg tb env genre t g) as [s g1].
  specialize (IH g1).
  destruct (score_all rng_random cfg tb env genre l g1) as [scored g2].
  simpl in *. by rewrite IH.
Qed.

(** Storing a fresh, marked list keeps the two invariants of the results. *)
Lemma store_list res ids arts ids' arts' g l :
  covered res ids arts -> separated res ->
  ids ⊆ ids' -> arts ⊆ arts' ->
  fresh ids arts l -> marked ids' arts' l ->
  covered (<[g := l]> res) ids' arts' /\ separated (<[g := l]> res).
Proof.
  intros Hc Hs Hi Ha Hf Hm. split.
  - intros g' l' t Hl Ht. destruct (decide (g = g')) as [->|Hne].
    + rewrite lookup_insert_eq in Hl. injection Hl as <-. by apply Hm.
    + rewrite lookup_insert_ne in Hl by done.
      destruct (Hc g' l' t Hl Ht) as [H1 H2]. split.
      * by eapply in_set_mono.
      * by eapply elem_mono.
  - intros g1 g2 l1 l2 t1 t2 Hne H1 H2 Ht1 Ht2.
    destruct (decide (g = g1)) as [E1|Hn1]; destruct (decide (g = g2)) as [E2|Hn2];
      try subst g1; try subst g2.
    + done.
    + rewrite lookup_insert_eq in H1. injection H1 as <-.
      rewrite lookup_insert_ne in H2 by done.
      destruct (Hf t1 Ht1) as [Hf1 Hf2]. destruct (Hc g2 l2 t2 H2 Ht2) as [Hc1 Hc2].
      split; intros Heq;
        [rewrite Heq in Hf1; congruence | rewrite Heq in Hf2; exact (Hf2 Hc2)].
    + rewrite lookup_insert_eq in H2. injection H2 as <-.
      rewrite lookup_insert_ne in H1 by done.
      destruct (Hf t2 Ht2) as [Hf1 Hf2]. destruct (Hc g1 l1 t1 H1 Ht1) as [Hc1 Hc2].
      split; intros Heq;
        [rewrite <- Heq in Hf1; congruence | rewrite <- Heq in Hf2; exact (Hf2 Hc2)].
    + rewrite lookup_insert_ne in H1, H2 by done.
      exact (Hs g1 g2 l1 l2 t1 t2 Hne H1 H2 Ht1 Ht2).
Qed.

Lemma store_empty res ids arts g :
  covered res ids arts -> separated res ->
  covered (<[g := []]> res) ids arts /\ separated (<[g := []]> res).
Proof.
  intros Hc Hs. apply (store_list res ids arts ids arts g []); try done.
  - intros t Ht. by apply elem_of_nil in Ht.
  - intros t Ht. by apply elem_of_nil in Ht.
Qed.

Lemma dedupe_truthy s1 s2 l t :
  t ∈ dedupe s1 s2 l -> falsy (tid_uri_first t) = false /\ t ∈ l.
Proof.
  revert s1 s2. induction l as [|x l IH]; intros s1 s2 H; simpl in H.
  - by apply elem_of_nil in H.
  - destruct (falsy (tid_uri_first x)) eqn:Hf; simpl in H.
    { apply IH in H as [? ?]. split; [done | by right]. }
    destruct (negb (Py.truthy (artist_stripped x))); simpl in H.
    { apply IH in H as [? ?]. split; [done | by right]. }
    destruct (in_set (tid_uri_first x) s1 || bool_decide (artist_key x ∈ s2))%bool.
    { apply IH in H as [? ?]. split; [done | by right]. }
    apply elem_of_cons in H as [->|H]; [split; [done | by left]|].
    apply IH in H as [? ?]. split; [done | by right].
Qed.

(** The final pick only takes tracks the sets do not hold yet, and records
    each of them. *)
Lemma pick_top_k_inv ids0 arts0 : forall unique top ids arts top' ids' arts',
  pick_top_k cfg unique top ids arts = (top', ids', arts') ->
  (forall t, t ∈ unique -> falsy (tid_uri_first t) = false) ->
  ids0 ⊆ ids -> arts0 ⊆ arts -> fresh ids0 arts0 top -> marked ids arts top ->
  ids ⊆ ids' /\ arts ⊆ arts' /\ fresh ids0 arts0 top' /\ marked ids' arts' top' /\
  (forall t, t ∈ top' -> t ∈ top \/ t ∈ unique).
Proof.
  induction unique as [|t rest IH]; intros top ids arts top' ids' arts' H Ht Hi Ha Hf Hm;
    simpl in H.
  - injection H as <- <- <-. do 4 (split; [done|]). intros x Hx. by left.
  - destruct (seeds_per_genre cfg <=? length top)%nat.
    { injection H as <- <- <-. do 4 (split; [done|]). intros x Hx. by left. }
    destruct (in_set (tid_uri_first t) ids) eqn:Hin; simpl in H.
    { apply IH in H as (? & ? & ? & ? & Hsub); try done.
      - do 4 (split; [done|]). intros x Hx. destruct (Hsub x Hx); [by left|].
        right. by right.
      - intros x Hx. apply Ht. by right. }
    destruct (bool_decide (artist_key t ∈ arts)) eqn:Hart; simpl in H.
    { apply IH in H as (? & ? & ? & ? & Hsub); try done.
      - do 4 (split; [done|]). intros x Hx. destruct (Hsub x Hx); [by left|].
        right. by right.
      - intros x Hx. apply Ht. by right. }
    apply bool_decide_eq_false in Hart.
    assert (falsy (tid_uri_first t) = false) as Htt by (apply Ht; by left).
    apply IH in H as (Hi' & Ha' & Hf' & Hm' & Hsub).
    + split; [by eapply add_opt_subseteq_inv|].
      split; [by eapply add_subseteq_inv|]. split; [done|]. split; [done|].
      intros x Hx. destruct (Hsub x Hx) as [Hx'|Hx'].
      * apply elem_of_app in Hx' as [Hx'|Hx']; [by left|].
        apply list_elem_of_singleton in Hx' as ->. right. by left.
      * right. by right.
    + intros x Hx. apply Ht. by right.
    + by apply subseteq_add_opt.
    + by apply subseteq_add.
    + intros x Hx. apply elem_of_app in Hx as [Hx|Hx]; [by apply Hf|].
      apply list_elem_of_singleton in Hx as ->. split.
      * by eapply in_set_anti.
      * by eapply not_elem_anti.
    + intros x Hx. apply elem_of_app in Hx as [Hx|Hx].
      * destruct (Hm x Hx) as [H1 H2]. split.
        -- eapply in_set_mono; [apply add_opt_subseteq | done].
        -- by apply elem_add_there.
      * apply list_elem_of_singleton in Hx as ->. split.
        -- by apply in_set_add.
        -- apply elem_add_here.
Qed.

Lemma select_genre_inv env idx st genre :
  killmegod_inv st -> killmegod_inv (select_genre rng_random cfg tb env idx st genre).
Proof.
  intros [Hc Hs]. unfold select_genre.
  destruct (is_nil (candidates_of tb idx genre)); [by apply store_empty|].
  destruct (is_nil (dedupe ∅ ∅ (candidates_of tb idx genre))); [by apply store_empty|].
  pose proof (score_all_tracks env genre (dedupe ∅ ∅ (candidates_of tb idx genre))
                (generator st)) as Hsc.
  destruct (score_all rng_random cfg tb env genre _ (generator st)) as [scored g'].
  simpl in Hsc.
  destruct (pick_top_k cfg (map snd (sort_desc scored)) [] (global_seen_ids st)
              (global_seen_artists st)) as [[top_k ids] arts] eqn:Hp.
  apply (pick_top_k_inv (global_seen_ids st) (global_seen_artists st)) in Hp
    as (Hi & Ha & Hf & Hm & _); try done.
  - by apply store_list with (ids := global_seen_ids st) (arts := global_seen_artists st).
  - intros t Ht.
    assert (t ∈ dedupe ∅ ∅ (candidates_of tb idx genre)) as Hd.
    { rewrite <- Hsc. rewrite <- (sort_desc_perm scored). done. }
    by apply dedupe_truthy in Hd as [? _].
  - intros t Ht. by apply elem_of_nil in Ht.
  - intros t Ht. by apply elem_of_nil in Ht.
Qed.

Lemma take_for_child_spec child ids arts : forall l c rest,
  take_for_child child ids arts l = Some (c, rest) ->
  c ∈ l /\ eligible ids arts (c_track c) = true /\ (forall x, x ∈ rest -> x ∈ l).
Proof.
  induction l as [|x l IH]; intros c rest H; simpl in H; [done|].
  destruct (String.eqb (c_child_genre x) child && eligible ids arts (c_track x))%bool
    eqn:Hx.
  - injection H as <- <-. apply andb_true_iff in Hx as [_ Hx].
    split; [by left|]. split; [done|]. intros y Hy. by right.
  - destruct (take_for_child child ids arts l) as [[c' rest']|] eqn:Ht; [|done].
    injection H as <- <-. destruct (IH c' rest' eq_refl) as (Hc & He & Hr).
    split; [by right|]. split; [done|].
    intros y Hy. apply elem_of_cons in Hy as [->|Hy]; [by left|]. right. by apply Hr.
Qed.

Lemma eligible_fresh ids arts t :
  eligible ids arts t = true ->
  in_set (tid_uri_first t) ids = false /\ artist_key t ∉ arts.
Proof.
  unfold eligible. intros H. apply andb_true_iff in H as [H1 H2].
  apply negb_true_iff in H1. apply negb_true_iff in H2.
  by apply bool_decide_eq_false in H2.
Qed.

(** Adding an eligible, identified track keeps the picture of a pick. *)
Lemma pick_step ids0 arts0 ids arts sel t :
  ids0 ⊆ ids -> arts0 ⊆ arts -> fresh ids0 arts0 sel -> marked ids arts sel ->
  eligible ids arts t = true -> falsy (tid_uri_first t) = false ->
  ids0 ⊆ add_opt (tid_uri_first t) ids /\ arts0 ⊆ {[ artist_key t ]} ∪ arts /\
  fresh ids0 arts0 (sel ++ [t]) /\
  marked (add_opt (tid_uri_first t) ids) ({[ artist_key t ]} ∪ arts) (sel ++ [t]).
Proof.
  intros Hi Ha Hf Hm He Ht. apply eligible_fresh in He as [He1 He2].
  split; [by apply subseteq_add_opt|]. split; [by apply subseteq_add|]. split.
  - intros x Hx. apply elem_of_app in Hx as [Hx|Hx]; [by apply Hf|].
    apply list_elem_of_singleton in Hx as ->. split.
    + by eapply in_set_anti.
    + by eapply not_elem_anti.
  - intros x Hx. apply elem_of_app in Hx as [Hx|Hx].
    + destruct (Hm x Hx) as [H1 H2]. split.
      * eapply in_set_mono; [apply add_opt_subseteq | done].
      * by apply elem_add_there.
    + apply list_elem_of_singleton in Hx as ->. split.
      * by apply in_set_add.
      * apply elem_add_here.
Qed.

Lemma first_pass_cons child rest p :
  first_pass (child :: rest) p =
  if (5 <=? length (selected p))%nat then p
  else match take_for_child child (p_ids p) (p_artists p) (remaining p) with
       | Some (c, remaining') =>
           first_pass rest
             (Picking (selected p ++ [c_track c])
                      (add_opt (tid_uri_first (c_track c)) (p_ids p))
                      ({[ artist_key (c_track c) ]} ∪ p_artists p)
                      remaining')
       | None => first_pass rest p
       end.
Proof. reflexivity. Qed.

Lemma second_pass_cons c rest sel ids arts :
  second_pass (c :: rest) sel ids arts =
  if (5 <=? length sel)%nat then (sel, ids, arts)
  else if eligible ids arts (c_track c)
  then second_pass rest (sel ++ [c_track c])
                   (add_opt (tid_uri_first (c_track c)) ids)
                   ({[ artist_key (c_track c) ]} ∪ arts)
  else second_pass rest sel ids arts.
Proof. reflexivity. Qed.

Lemma first_pass_inv ids0 arts0 : forall children p,
  (forall c, c ∈ remaining p -> falsy (tid_uri_first (c_track c)) = false) ->
  ids0 ⊆ p_ids p -> arts0 ⊆ p_artists p ->
  fresh ids0 arts0 (selected p) -> marked (p_ids p) (p_artists p) (selected p) ->
  let p' := first_pass children p in
  ids0 ⊆ p_ids p' /\ arts0 ⊆ p_artists p' /\
  fresh ids0 arts0 (selected p') /\ marked (p_ids p') (p_artists p') (selected p') /\
  (forall c, c ∈ remaining p' -> c ∈ remaining p) /\
  (forall t, t ∈ selected p' ->
     t ∈ selected p \/ exists c, c ∈ remaining p /\ t = c_track c).
Proof.
  induction children as [|child rest IH]; intros p Ht Hi Ha Hf Hm; cbv zeta in *.
  - simpl. do 4 (split; [done|]). split; [done|]. intros t Hx. by left.
  - rewrite first_pass_cons. destruct (5 <=? length (selected p))%nat eqn:Hlen.
    { do 4 (split; [done|]). split; [done|]. intros t Hx. by left. }
    destruct (take_for_child child (p_ids p) (p_artists p) (remaining p))
      as [[c remaining']|] eqn:Htk.
    + apply take_for_child_spec in Htk as (Hc & He & Hr).
      destruct (pick_step ids0 arts0 (p_ids p) (p_artists p) (selected p) (c_track c))
        as (Hi' & Ha' & Hf' & Hm'); try done; [by apply Ht|].
      edestruct (IH (Picking (selected p ++ [c_track c])
                       (add_opt (tid_uri_first (c_track c)) (p_ids p))
                       ({[ artist_key (c_track c) ]} ∪ p_artists p) remaining'))
        as (H1 & H2 & H3 & H4 & H5 & H6); simpl; try done.
      { intros x Hx. apply Ht. by apply Hr. }
      do 4 (split; [done|]). split.
      * intros x Hx. apply Hr. by apply H5.
      * intros t Hx. destruct (H6 t Hx) as [Hs|(c' & Hc' & ->)]; simpl in *.
        -- apply elem_of_app in Hs as [Hs|Hs]; [by left|].
           apply list_elem_of_singleton in Hs as ->. right. by exists c.
        -- right. exists c'. split; [by apply Hr | done].
    + by apply IH.
Qed.

Lemma second_pass_inv ids0 arts0 : forall l sel ids arts sel' ids' arts',
  second_pass l sel ids arts = (sel', ids', arts') ->
  (forall c, c ∈ l -> falsy (tid_uri_first (c_track c)) = false) ->
  ids0 ⊆ ids -> arts0 ⊆ arts -> fresh ids0 arts0 sel -> marked ids arts sel ->
  ids0 ⊆ ids' /\ arts0 ⊆ arts' /\ fresh ids0 arts0 sel' /\ marked ids' arts' sel' /\
  (forall t, t ∈ sel' -> t ∈ sel \/ exists c, c ∈ l /\ t = c_track c).
Proof.
  induction l as [|c rest IH]; intros sel ids arts sel' ids' arts' H Ht Hi Ha Hf Hm.
  - simpl in H. injection H as <- <- <-. do 4 (split; [done|]). intros t Hx. by left.
  - rewrite second_pass_cons in H. destruct (5 <=? length sel)%nat.
    { injection H as <- <- <-. do 4 (split; [done|]). intros t Hx. by left. }
    destruct (eligible ids arts (c_track c)) eqn:He.
    + destruct (pick_step ids0 arts0 ids arts sel (c_track c))
        as (Hi' & Ha' & Hf' & Hm'); try done; [apply Ht; by left|].
      apply IH in H as (H1 & H2 & H3 & H4 & H5); try done.
      * do 4 (split; [done|]). intros t Hx.
        destruct (H5 t Hx) as [Hs|(c' & Hc' & ->)].
        -- apply elem_of_app in Hs as [Hs|Hs]; [by left|].
           apply list_elem_of_singleton in Hs as ->. right. exists c. split; [by left|done].
        -- right. exists c'. split; [by right|done].
      * intros x Hx. apply Ht. by right.
    + apply IH in H as (H1 & H2 & H3 & H4 & H5); try done.
      * do 4 (split; [done|]). intros t Hx.
        destruct (H5 t Hx) as [Hs|(c' & Hc' & ->)]; [by left|].
        right. exists c'. split; [by right|done].
      * intros x Hx. apply Ht. by right.
Qed.

Lemma synthetic_candidates_spec idx seen agg children c :
  c ∈ synthetic_candidates cfg tb idx seen agg children ->
  falsy (tid_uri_first (c_track c)) = false /\
  exists kv, kv ∈ idx /\ c_track c ∈ snd kv.
Proof.
  unfold synthetic_candidates. intros H.
  apply list_elem_of_In, in_flat_map in H as (child & _ & H).
  apply in_flat_map in H as (kv & Hkv & H).
  destruct (word_search (Py.lower child) (fst kv)); [|done].
  apply in_flat_map in H as (t & Ht & H).
  destruct (falsy (tid_uri_first t)) eqn:Hf; simpl in H; [done|].
  destruct (in_set (tid_uri_first t) seen); simpl in H; [done|].
  destruct (negb (genre_match (EXCLUSIONS tb) child (norm_tags (raw_tags t)))); [done|].
  destruct (negb (Killmegod_rules.passes_rules (GENRE_RULES tb) child t)); [done|].
  destruct H as [<-|[]]. simpl. split; [done|].
  exists kv. split; by apply list_elem_of_In.
Qed.

Lemma dedupe_candidates_sub : forall l seen c,
  c ∈ dedupe_candidates seen l -> c ∈ l.
Proof.
  induction l as [|x l IH]; intros seen c H; simpl in H; [done|].
  destruct (in_set (tid_uri_first (c_track x)) seen).
  - right. by eapply IH.
  - apply elem_of_cons in H as [->|H]; [by left|]. right. by eapply IH.
Qed.

Lemma sorted_candidates_perm (l : list candidate) :
  map snd (sort_asc (map (fun c => (c_distance c, c)) l)) ≡ₚ l.
Proof.
  rewrite sort_asc_perm, map_map. simpl. by rewrite map_id.
Qed.

Lemma select_synthetic_inv idx (st : @state rng) syn :
  killmegod_inv st -> killmegod_inv (select_synthetic cfg tb idx st syn).
Proof.
  intros [Hc Hs]. unfold select_synthetic. destruct syn as [[full_path name] children].
  destruct (compute_aggregate_features cfg (results st) children) as [agg|];
    [|by apply store_empty].
  destruct (bool_decide (agg = ∅)); [by apply store_empty|].
  set (sorted := map snd (sort_asc (map (fun c => (c_distance c, c))
        (dedupe_candidates ∅ (synthetic_candidates cfg tb idx (global_seen_ids st)
                                 agg children))))).
  assert (forall c, c ∈ sorted -> falsy (tid_uri_first (c_track c)) = false) as Htr.
  { intros c Hx. unfold sorted in Hx. rewrite sorted_candidates_perm in Hx.
    apply dedupe_candidates_sub in Hx. by apply synthetic_candidates_spec in Hx as [? _]. }
  destruct (first_pass_inv (global_seen_ids st) (global_seen_artists st) children
              (Picking [] (global_seen_ids st) (global_seen_artists st) sorted))
    as (H1 & H2 & H3 & H4 & H5 & _); simpl; try done.
  { intros t Hx. by apply elem_of_nil in Hx. }
  { intros t Hx. by apply elem_of_nil in Hx. }
  set (p := first_pass children _) in *.
  destruct (second_pass (remaining p) (selected p) (p_ids p) (p_artists p))
    as [[sel ids] arts] eqn:Hsp.
  apply (second_pass_inv (global_seen_ids st) (global_seen_artists st)) in Hsp
    as (Hi & Ha & Hf & Hm & _); try done.
  - by apply store_list with (ids := global_seen_ids st) (arts := global_seen_artists st).
  - intros c Hx. apply Htr. by apply H5.
Qed.

Lemma select_all_inv env tracks :
  killmegod_inv (select_all rng_seed rng_random cfg tb env tracks).
Proof.
  unfold select_all. apply foldl_inv; [|intros; by apply select_synthetic_inv].
  apply foldl_inv; [|intros; by apply select_genre_inv].
  split.
  - intros g l t H. simpl in H. by rewrite lookup_empty in H.
  - intros g1 g2 l1 l2 t1 t2 _ H. simpl in H. by rewrite lookup_empty in H.
Qed.

End Facts.

End Killmegod_facts.

(** ** Where the candidates come from *)

Module Index_facts.
Import Sel_facts.

Lemma foldl_inv_elem {A B} (P : A -> Prop) (f : A -> B -> A) l : forall a,
  P a -> (forall a b, b ∈ l -> P a -> P (f a b)) -> P (foldl f a l).
Proof.
  induction l as [|b l IH]; intros a Ha Hf; simpl; [done|].
  apply IH; [apply Hf; [by left | done]|].
  intros a' b' Hb'. apply Hf. by right.
Qed.

Lemma bucket_append_elem key t : forall idx kv x,
  kv ∈ bucket_append key t idx -> x ∈ snd kv ->
  x = t \/ exists kv', kv' ∈ idx /\ x ∈ snd kv'.
Proof.
  induction idx as [|[k l] idx IH]; intros kv x Hkv Hx; simpl in Hkv.
  - apply list_elem_of_singleton in Hkv as ->. simpl in Hx.
    apply list_elem_of_singleton in Hx. by left.
  - destruct (String.eqb k key).
    + apply elem_of_cons in Hkv as [->|Hkv].
      * simpl in Hx. apply elem_of_app in Hx as [Hx|Hx].
        -- right. exists (k, l). split; [by left | done].
        -- apply list_elem_of_singleton in Hx. by left.
      * right. exists kv. split; [by right | done].
    + apply elem_of_cons in Hkv as [->|Hkv].
      * right. exists (k, l). split; [by left | done].
      * destruct (IH kv x Hkv Hx) as [->|(kv' & Hkv' & Hx')]; [by left|].
        right. exists kv'. split; [by right | done].
Qed.

(** Every track of every bucket of the index is a track of the dataset. *)
Lemma index_tracks_elem deny tracks kv t :
  kv ∈ index_tracks deny tracks -> t ∈ snd kv -> t ∈ tracks.
Proof.
  unfold index_tracks. revert kv t.
  apply (foldl_inv_elem
           (fun idx => forall kv t, kv ∈ idx -> t ∈ snd kv -> t ∈ tracks)).
  - intros kv t H. by apply elem_of_nil in H.
  - intros idx x Hx Hidx.
    destruct (in_set (tid_uri_first x) deny); [done|].
    apply (foldl_inv
             (fun idx => forall kv t, kv ∈ idx -> t ∈ snd kv -> t ∈ tracks)); [done|].
    intros idx' tg Hidx' kv t Hkv Ht.
    destruct (bucket_append_elem tg x idx' kv t Hkv Ht) as [->|(kv' & Hkv' & Ht')];
      [done|]. by eapply Hidx'.
Qed.

End Index_facts.

(** ** Uniqueness across genres: [v2.py] *)

Module V2_facts.
Import Sel_facts Index_facts V2.

Section Facts.
Context {rng : Type} (rng_seed : Z -> rng) (rng_random : rng -> float * rng).
Variable GENRE_TO_PARENT : gmap string string.
Variable tb : tables.

Lemma v2_score_all_tracks env genre l g :
  map snd (fst (score_all rng_random env genre l g)) = l.
Proof.
  revert g. induction l as [|t l IH]; intros g; simpl; [done|].
  destruct (proto_score rng_random env genre t g) as [s g1].
  specialize (IH g1).
  destruct (score_all rng_random env genre l g1) as [scored g2].
  simpl in *. by rewrite IH.
Qed.

Lemma relax_candidates (env : environment rng) table genre cands :
  snd (relax_rules_if_sparse env table genre cands) = cands.
Proof.
  unfold relax_rules_if_sparse. destruct (4 <=? length cands)%nat; [done|].
  by destruct (table !! genre).
Qed.

Lemma gather_candidates_elem (env : environment rng) genre parent fam :
  forall bucket table cands t,
  t ∈ snd (gather_candidates tb env genre parent fam bucket table cands) ->
  t ∈ cands \/ t ∈ bucket.
Proof.
  induction bucket as [|x bucket IH]; intros table cands t H; simpl in H; [by left|].
  destruct (negb (genre_match (EXCLUSIONS tb) genre (norm_tags (raw_tags x)))).
  { destruct (IH _ _ _ H); [by left | right; by right]. }
  destruct (negb (V2_rules.passes_rules table genre x)).
  { destruct (IH _ _ _ H); [by left | right; by right]. }
  destruct (Py.truthy parent && negb (falsy (tid_uri_first x)) &&
            in_set (tid_uri_first x) fam)%bool.
  { destruct (IH _ _ _ H); [by left | right; by right]. }
  pose proof (relax_candidates env table genre (cands ++ [x])) as Hr.
  destruct (relax_rules_if_sparse env table genre (cands ++ [x])) as [table' cands'].
  simpl in Hr. subst cands'.
  destruct (IH _ _ _ H) as [Hc|Hb]; [|right; by right].
  apply elem_of_app in Hc as [Hc|Hc]; [by left|].
  apply list_elem_of_singleton in Hc as ->. right. by left.
Qed.

Lemma dedupe_spec ig ag : forall l si sa t,
  t ∈ dedupe true ig ag si sa l -> (first_artist t ∉ ag) /\ t ∈ l.
Proof.
  induction l as [|x l IH]; intros si sa t H; simpl in H; [by apply elem_of_nil in H|].
  destruct (falsy (tid_id_first x) || negb (Py.truthy (first_artist x)))%bool.
  { apply IH in H as [? ?]. split; [done | by right]. }
  destruct (in_set (tid_id_first x) ig || bool_decide (first_artist x ∈ ag))%bool eqn:Hg.
  { apply IH in H as [? ?]. split; [done | by right]. }
  apply orb_false_iff in Hg as [_ Hg]. apply bool_decide_eq_false in Hg.
  destruct (in_set (tid_id_first x) si || bool_decide (first_artist x ∈ sa))%bool.
  { apply IH in H as [? ?]. split; [done | by right]. }
  apply elem_of_cons in H as [->|H]; [split; [done | by left]|].
  apply IH in H as [? ?]. split; [done | by right].
Qed.

Lemma v2_pick_top_k_cons G parent t rest top m :
  pick_top_k G parent (t :: rest) top m =
  if (4 <=? length top)%nat then (top, m)
  else if (Py.truthy parent && bool_decide (first_artist t ∈ k_family_artists m))%bool
  then pick_top_k G parent rest top m
  else
    let tid := tid_uri_first t in
    let tid := if falsy tid then None else tid in
    pick_top_k G parent rest (top ++ [t])
      (Marks (if G then add_opt tid (k_ids_global m) else k_ids_global m)
             (if G then {[ first_artist t ]} ∪ k_artists_global m
              else k_artists_global m)
             (if Py.truthy parent then add_opt tid (k_family_ids m)
              else k_family_ids m)
             (if Py.truthy parent then {[ first_artist t ]} ∪ k_family_artists m
              else k_family_artists m)).
Proof. reflexivity. Qed.

(** Under global uniqueness the final pick records the artist of every track
    it takes, and takes tracks of its input only. *)
Lemma v2_pick_top_k_inv parent : forall unique top m top' m',
  pick_top_k true parent unique top m = (top', m') ->
  (forall t, t ∈ top -> first_artist t ∈ k_artists_global m) ->
  k_artists_global m ⊆ k_artists_global m' /\
  (forall t, t ∈ top' -> first_artist t ∈ k_artists_global m') /\
  (forall t, t ∈ top' -> t ∈ top \/ t ∈ unique).
Proof.
  induction unique as [|t rest IH]; intros top m top' m' H Hm.
  - simpl in H. injection H as <- <-. split; [done|]. split; [done|].
    intros x Hx. by left.
  - rewrite v2_pick_top_k_cons in H. destruct (4 <=? length top)%nat.
    { injection H as <- <-. split; [done|]. split; [done|]. intros x Hx. by left. }
    destruct (Py.truthy parent && bool_decide (first_artist t ∈ k_family_artists m))%bool.
    { apply IH in H as (H1 & H2 & H3); [|done]. split; [done|]. split; [done|].
      intros x Hx. destruct (H3 x Hx); [by left | right; by right]. }
    cbv zeta in H. apply IH in H as (H1 & H2 & H3).
    + simpl in H1. split; [by eapply add_subseteq_inv|]. split; [done|].
      intros x Hx. destruct (H3 x Hx) as [Hx'|Hx']; [|right; by right].
      apply elem_of_app in Hx' as [Hx'|Hx']; [by left|].
      apply list_elem_of_singleton in Hx' as ->. right. by left.
    + simpl. intros x Hx. apply elem_of_app in Hx as [Hx|Hx].
      * apply elem_add_there. by apply Hm.
      * apply list_elem_of_singleton in Hx as ->. apply elem_add_here.
Qed.

Lemma bucket_of_elem idx key t :
  t ∈ bucket_of idx key -> exists kv, kv ∈ idx /\ t ∈ snd kv.
Proof.
  unfold bucket_of.
  destruct (find (fun kv => String.eqb (fst kv) key) idx) as [kv|] eqn:Hf; simpl.
  - intros Ht. exists kv. split; [|done].
    apply find_some in Hf as [Hin _]. by apply list_elem_of_In.
  - intros Ht. by apply elem_of_nil in Ht.
Qed.

Lemma unique_candidates_spec env idx (st : @state rng) genre table unique t :
  unique_candidates true GENRE_TO_PARENT tb env idx st genre = (table, unique) ->
  t ∈ unique ->
  (first_artist t ∉ used_artists_global st) /\
  exists kv, kv ∈ idx /\ t ∈ snd kv.
Proof.
  unfold unique_candidates. intros H Ht.
  destruct (gather_candidates tb env genre _ _ _ (rules_table st) [])
    as [table' cands] eqn:Hg.
  injection H as <- <-. apply dedupe_spec in Ht as [Ha Ht]. split; [done|].
  assert (t ∈ snd (gather_candidates tb env genre
            (default "" (GENRE_TO_PARENT !! genre))
            (family_set (used_track_ids_by_parent st)
               (default "" (GENRE_TO_PARENT !! genre)))
            (bucket_of idx (Py.lower genre)) (rules_table st) [])) as Hin
    by (by rewrite Hg).
  apply gather_candidates_elem in Hin as [Hin|Hin]; [by apply elem_of_nil in Hin|].
  by apply bucket_of_elem in Hin.
Qed.

Lemma v2_select_genre_inv env tracks (st : @state rng) genre :
  v2_inv tracks st ->
  v2_inv tracks
    (select_genre rng_random true GENRE_TO_PARENT tb env
       (index_tracks (TRACK_DENY_URIS tb) tracks) st genre).
Proof.
  intros (Hc & Hs & Hsrc). unfold select_genre.
  set (idx := index_tracks (TRACK_DENY_URIS tb) tracks).
  destruct (unique_candidates true GENRE_TO_PARENT tb env idx st genre)
    as [table' unique] eqn:Hu.
  assert (forall top, (forall t, t ∈ top -> first_artist t ∉ used_artists_global st) ->
            (forall t, t ∈ top -> t ∈ tracks) ->
            forall ag, used_artists_global st ⊆ ag ->
            (forall t, t ∈ top -> first_artist t ∈ ag) ->
            (forall g l t, <[genre := top]> (results st) !! g = Some l -> t ∈ l ->
               first_artist t ∈ ag) /\
            (forall g1 g2 l1 l2 t1 t2, g1 <> g2 ->
               <[genre := top]> (results st) !! g1 = Some l1 ->
               <[genre := top]> (results st) !! g2 = Some l2 ->
               t1 ∈ l1 -> t2 ∈ l2 -> first_artist t1 <> first_artist t2) /\
            sourced (<[genre := top]> (results st)) tracks) as Hstore.
  { intros top Hfresh Hin ag Hag Hmark. split; [|split].
    - intros g l t Hl Ht. destruct (decide (genre = g)) as [->|Hne].
      + rewrite lookup_insert_eq in Hl. injection Hl as <-. by apply Hmark.
      + rewrite lookup_insert_ne in Hl by done. eapply elem_mono; [done|]. by eapply Hc.
    - intros g1 g2 l1 l2 t1 t2 Hne H1 H2 Ht1 Ht2.
      destruct (decide (genre = g1)) as [E1|Hn1]; destruct (decide (genre = g2)) as [E2|Hn2];
        try subst g1; try subst g2.
      + done.
      + rewrite lookup_insert_eq in H1. injection H1 as <-.
        rewrite lookup_insert_ne in H2 by done.
        intros Heq. apply (Hfresh t1 Ht1). rewrite Heq. by eapply Hc.
      + rewrite lookup_insert_eq in H2. injection H2 as <-.
        rewrite lookup_insert_ne in H1 by done.
        intros Heq. apply (Hfresh t2 Ht2). rewrite <- Heq. by eapply Hc.
      + rewrite lookup_insert_ne in H1, H2 by done.
        exact (Hs g1 g2 l1 l2 t1 t2 Hne H1 H2 Ht1 Ht2).
    - intros g l t Hl Ht. destruct (decide (genre = g)) as [->|Hne].
      + rewrite lookup_insert_eq in Hl. injection Hl as <-. by apply Hin.
      + rewrite lookup_insert_ne in Hl by done. by eapply Hsrc. }
  destruct (is_nil unique).
  { apply (Hstore []); try done; intros t Ht; by apply elem_of_nil in Ht. }
  pose proof (v2_score_all_tracks env genre unique (generator st)) as Hsc.
  destruct (score_all rng_random env genre unique (generator st)) as [scored g'].
  simpl in Hsc.
  destruct (pick_top_k true _ (map snd (sort_desc scored)) [] _) as [top_k m] eqn:Hp.
  apply v2_pick_top_k_inv in Hp as (H1 & H2 & H3);
    [|intros t Ht; by apply elem_of_nil in Ht].
  simpl in H1.
  assert (forall t, t ∈ top_k -> t ∈ unique) as Hsub.
  { intros t Ht. destruct (H3 t Ht) as [Hx|Hx]; [by apply elem_of_nil in Hx|].
    rewrite <- Hsc. by rewrite <- (sort_desc_perm scored). }
  apply (Hstore top_k); simpl; try done.
  - intros t Ht.
    by destruct (unique_candidates_spec env idx st genre table' unique t Hu (Hsub t Ht))
      as [Ha _].
  - intros t Ht.
    destruct (unique_candidates_spec env idx st genre table' unique t Hu (Hsub t Ht))
      as (_ & kv & Hkv & Hin).
    by eapply index_tracks_elem.
Qed.

Lemma v2_select_all_inv env tracks :
  v2_inv tracks
    (select_all rng_seed rng_random true GENRE_TO_PARENT tb env tracks).
Proof.
  unfold select_all. apply foldl_inv; [|intros; by apply v2_select_genre_inv].
  split; [|split].
  - intros g l t H. simpl in H. by rewrite lookup_empty in H.
  - intros g1 g2 l1 l2 t1 t2 _ H. simpl in H. by rewrite lookup_empty in H.
  - intros g l t H. simpl in H. by rewrite lookup_empty in H.
Qed.

End Facts.

End V2_facts.

(** ** Seed counts: [killmegod.py] *)

Module Killmegod_count.
Import Sel_facts Killmegod Killmegod_facts.

Section Facts.
Context {rng : Type} (rng_seed : Z -> rng) (rng_random : rng -> float * rng).
Variable cfg : config.
Variable tb : tables.

Lemma pick_top_k_cons t rest top ids arts :
  pick_top_k cfg (t :: rest) top ids arts =
  if (seeds_per_genre cfg <=? length top)%nat then (top, ids, arts)
  else if (in_set (tid_uri_first t) ids || bool_decide (artist_key t ∈ arts))%bool
  then pick_top_k cfg rest top ids arts
  else pick_top_k cfg rest (top ++ [t]) (add_opt (tid_uri_first t) ids)
                  ({[ artist_key t ]} ∪ arts).
Proof. reflexivity. Qed.

Lemma eligible_alt ids arts t :
  eligible ids arts t =
  negb (in_set (tid_uri_first t) ids || bool_decide (artist_key t ∈ arts)).
Proof. unfold eligible. by rewrite negb_orb. Qed.

(** The de-duplicated candidates have pairwise different identifiers and
    pairwise different artists, and none of them is in the sets the loop
    started with. *)
Lemma dedupe_nodup : forall l s1 s2,
  NoDup (map tid_uri_first (dedupe s1 s2 l)) /\
  NoDup (map artist_key (dedupe s1 s2 l)) /\
  (forall t, t ∈ dedupe s1 s2 l ->
     in_set (tid_uri_first t) s1 = false /\ (artist_key t ∉ s2)).
Proof.
  induction l as [|x l IH]; intros s1 s2; simpl.
  - split; [constructor|]. split; [constructor|]. intros t Ht. by apply elem_of_nil in Ht.
  - destruct (falsy (tid_uri_first x)) eqn:Hf; simpl; [apply IH|].
    destruct (negb (Py.truthy (artist_stripped x))); simpl; [apply IH|].
    destruct (in_set (tid_uri_first x) s1) eqn:H1; simpl; [apply IH|].
    destruct (bool_decide (artist_key x ∈ s2)) eqn:H2; simpl; [apply IH|].
    apply bool_decide_eq_false in H2.
    destruct (IH (add_opt (tid_uri_first x) s1) ({[ artist_key x ]} ∪ s2))
      as (Hn1 & Hn2 & Hfr).
    split; [|split].
    + constructor; [|done]. intros Hin. apply list_elem_of_fmap in Hin as (t & Heq & Ht).
      destruct (Hfr t Ht) as [Hc _]. rewrite <- Heq in Hc.
      by rewrite in_set_add in Hc.
    + constructor; [|done]. intros Hin. apply list_elem_of_fmap in Hin as (t & Heq & Ht).
      destruct (Hfr t Ht) as [_ Hc]. apply Hc. rewrite <- Heq. apply elem_add_here.
    + intros t Ht. apply elem_of_cons in Ht as [->|Ht]; [done|].
      destruct (Hfr t Ht) as [Hc1 Hc2]. split.
      * eapply in_set_anti; [apply add_opt_subseteq | done].
      * eapply not_elem_anti; [|done]. by apply subseteq_add.
Qed.

Lemma filter_length_ext {A} (P Q : A -> Prop) `{!forall x, Decision (P x)}
    `{!forall x, Decision (Q x)} (l : list A) :
  (forall x, x ∈ l -> P x <-> Q x) -> length (filter P l) = length (filter Q l).
Proof.
  induction l as [|x l IH]; intros Hpq; [done|].
  rewrite !filter_cons.
  assert (P x <-> Q x) as Hx by (apply Hpq; by left).
  assert (length (filter P l) = length (filter Q l)) as Hl.
  { apply IH. intros y Hy. apply Hpq. by right. }
  destruct (decide (P x)), (decide (Q x)); simpl; try tauto; by rewrite Hl.
Qed.

(** The final pick takes the first [seeds_per_genre] eligible tracks. *)
Lemma pick_top_k_length : forall unique top ids arts,
  NoDup (map tid_uri_first unique) -> NoDup (map artist_key unique) ->
  (forall t, t ∈ unique -> falsy (tid_uri_first t) = false) ->
  (length top <= seeds_per_genre cfg)%nat ->
  length (fst (fst (pick_top_k cfg unique top ids arts))) =
  Nat.min (seeds_per_genre cfg)
          (length top + length (filter (fun t => eligible ids arts t = true) unique)).
Proof.
  induction unique as [|t rest IH]; intros top ids arts Hn1 Hn2 Ht Hlen.
  - simpl. lia.
  - rewrite pick_top_k_cons.
    apply NoDup_cons in Hn1 as [Hx1 Hn1]. apply NoDup_cons in Hn2 as [Hx2 Hn2].
    assert (forall x, x ∈ rest -> falsy (tid_uri_first x) = false) as Ht'
      by (intros x Hx; apply Ht; by right).
    destruct (seeds_per_genre cfg <=? length top)%nat eqn:Hk.
    { apply Nat.leb_le in Hk. simpl. lia. }
    apply Nat.leb_gt in Hk.
    rewrite filter_cons, eligible_alt.
    destruct (in_set (tid_uri_first t) ids || bool_decide (artist_key t ∈ arts))%bool
      eqn:He.
    + rewrite decide_False by (simpl; done). by apply IH.
    + rewrite decide_True by (simpl; done). rewrite IH; try done; [|rewrite length_app; simpl; lia].
      rewrite length_app. simpl.
      rewrite (filter_length_ext
                 (fun x => eligible (add_opt (tid_uri_first t) ids)
                             ({[ artist_key t ]} ∪ arts) x = true)
                 (fun x => eligible ids arts x = true)); [lia|].
      intros x Hx. unfold eligible.
      assert (tid_uri_first x <> tid_uri_first t) as Hne1.
      { intros Heq. apply Hx1. rewrite <- Heq. by apply list_elem_of_fmap_2. }
      assert (artist_key x <> artist_key t) as Hne2.
      { intros Heq. apply Hx2. rewrite <- Heq. by apply list_elem_of_fmap_2. }
      rewrite in_set_add_ne by done.
      assert (bool_decide (artist_key x ∈ {[ artist_key t ]} ∪ arts) =
              bool_decide (artist_key x ∈ arts)) as ->; [|done].
      apply bool_decide_ext. set_solver.
Qed.

Lemma pick_top_k_bound : forall unique top ids arts,
  (length top <= seeds_per_genre cfg)%nat ->
  (length (fst (fst (pick_top_k cfg unique top ids arts))) <= seeds_per_genre cfg)%nat.
Proof.
  induction unique as [|t rest IH]; intros top ids arts Hlen; [done|].
  rewrite pick_top_k_cons.
  destruct (seeds_per_genre cfg <=? length top)%nat eqn:Hk; [done|].
  apply Nat.leb_gt in Hk.
  destruct (in_set (tid_uri_first t) ids || bool_decide (artist_key t ∈ arts))%bool.
  - by apply IH.
  - apply IH. rewrite length_app. simpl. lia.
Qed.

(** What one iteration stores for its genre. *)
Lemma select_genre_stored env idx (st : @state rng) genre :
  exists l, results (select_genre rng_random cfg tb env idx st genre) !! genre = Some l /\
    length l = Nat.min (seeds_per_genre cfg) (length (killmegod_pool tb idx st genre)) /\
    (forall g, g <> genre ->
       results (select_genre rng_random cfg tb env idx st genre) !! g = results st !! g).
Proof.
  unfold select_genre, killmegod_pool.
  destruct (candidates_of tb idx genre) as [|c cands] eqn:Hc.
  { exists []. simpl. rewrite lookup_insert_eq. split; [done|]. split; [lia|].
    intros g Hg. by rewrite lookup_insert_ne. }
  cbn [is_nil]. destruct (dedupe ∅ ∅ (c :: cands)) as [|u unique] eqn:Hd.
  { exists []. simpl. rewrite lookup_insert_eq. split; [done|]. split; [lia|].
    intros g Hg. by rewrite lookup_insert_ne. }
  cbn [is_nil].
  pose proof (score_all_tracks rng_random cfg tb env genre (u :: unique) (generator st))
    as Hsc.
  destruct (score_all rng_random cfg tb env genre (u :: unique) (generator st))
    as [scored g'].
  simpl in Hsc.
  assert (map snd (sort_desc scored) ≡ₚ u :: unique) as Hperm.
  { rewrite <- Hsc. by rewrite (sort_desc_perm scored). }
  pose proof (pick_top_k_length (map snd (sort_desc scored)) []
                (global_seen_ids st) (global_seen_artists st)) as Hlen.
  destruct (pick_top_k cfg (map snd (sort_desc scored)) [] (global_seen_ids st)
              (global_seen_artists st)) as [[top_k ids] arts].
  exists top_k. simpl. rewrite lookup_insert_eq. split; [done|]. split.
  - simpl in Hlen. destruct (dedupe_nodup (c :: cands) ∅ ∅) as (Hn1 & Hn2 & _).
    rewrite Hd in Hn1, Hn2.
    rewrite Hlen.
    + by rewrite Hperm.
    + by rewrite Hperm.
    + by rewrite Hperm.
    + intros t Ht. rewrite Hperm, <- Hd in Ht. by apply dedupe_truthy in Ht as [? _].
    + lia.
  - intros g Hg. by rewrite lookup_insert_ne.
Qed.

Lemma first_pass_bound : forall children p,
  (length (selected p) <= 5)%nat -> (length (selected (first_pass children p)) <= 5)%nat.
Proof.
  induction children as [|child rest IH]; intros p Hlen; [done|].
  rewrite first_pass_cons.
  destruct (5 <=? length (selected p))%nat eqn:Hk; [done|]. apply Nat.leb_gt in Hk.
  destruct (take_for_child child (p_ids p) (p_artists p) (remaining p))
    as [[c remaining']|].
  - apply IH. simpl. rewrite length_app. simpl. lia.
  - by apply IH.
Qed.

Lemma second_pass_bound : forall l sel ids arts,
  (length sel <= 5)%nat -> (length (fst (fst (second_pass l sel ids arts))) <= 5)%nat.
Proof.
  induction l as [|c rest IH]; intros sel ids arts Hlen; [done|].
  rewrite second_pass_cons.
  destruct (5 <=? length sel)%nat eqn:Hk; [done|]. apply Nat.leb_gt in Hk.
  destruct (eligible ids arts (c_track c)).
  - apply IH. rewrite length_app. simpl. lia.
  - by apply IH.
Qed.

Lemma bounded_insert n res g l :
  bounded n res -> (length l <= n)%nat -> bounded n (<[g := l]> res).
Proof.
  intros Hb Hl g' l' H. destruct (decide (g = g')) as [->|Hne].
  - rewrite lookup_insert_eq in H. by injection H as <-.
  - rewrite lookup_insert_ne in H by done. by eapply Hb.
Qed.

Lemma select_genre_bounded n env idx (st : @state rng) genre :
  (seeds_per_genre cfg <= n)%nat ->
  bounded n (results st) ->
  bounded n (results (select_genre rng_random cfg tb env idx st genre)).
Proof.
  intros Hn Hb. unfold select_genre.
  destruct (is_nil (candidates_of tb idx genre));
    [apply bounded_insert; [done | simpl; lia]|].
  destruct (is_nil (dedupe ∅ ∅ (candidates_of tb idx genre)));
    [apply bounded_insert; [done | simpl; lia]|].
  destruct (score_all rng_random cfg tb env genre _ (generator st)) as [scored g'].
  pose proof (pick_top_k_bound (map snd (sort_desc scored)) []
                (global_seen_ids st) (global_seen_artists st)) as Hlen.
  destruct (pick_top_k cfg (map snd (sort_desc scored)) [] (global_seen_ids st)
              (global_seen_artists st)) as [[top_k ids] arts].
  simpl in *. apply bounded_insert; [done|]. etrans; [apply Hlen; lia | done].
Qed.

Lemma select_synthetic_bounded n idx (st : @state rng) syn :
  (5 <= n)%nat ->
  bounded n (results st) -> bounded n (results (select_synthetic cfg tb idx st syn)).
Proof.
  intros Hn Hb. unfold select_synthetic. destruct syn as [[full_path name] children].
  destruct (compute_aggregate_features cfg (results st) children) as [agg|];
    [|apply bounded_insert; [done | simpl; lia]].
  destruct (bool_decide (agg = ∅)); [apply bounded_insert; [done | simpl; lia]|].
  set (p := first_pass children _).
  pose proof (second_pass_bound (remaining p) (selected p) (p_ids p) (p_artists p)) as Hlen.
  destruct (second_pass (remaining p) (selected p) (p_ids p) (p_artists p))
    as [[sel ids] arts].
  simpl in *. apply bounded_insert; [done|]. etrans; [apply Hlen|done].
  apply first_pass_bound. simpl. lia.
Qed.

Lemma select_all_bounded env tracks :
  bounded (Nat.max (seeds_per_genre cfg) 5)
          (results (select_all rng_seed rng_random cfg tb env tracks)).
Proof.
  unfold select_all.
  apply (foldl_inv (fun st => bounded _ (results st)));
    [|intros; apply select_synthetic_bounded; [lia | done]].
  apply (foldl_inv (fun st => bounded _ (results st)));
    [|intros; apply select_genre_bounded; [lia | done]].
  intros g l H. simpl in H. by rewrite lookup_empty in H.
Qed.

Lemma unique_in_order_nodup : forall l seen,
  NoDup (unique_in_order seen l) /\ (forall g, g ∈ unique_in_order seen l -> g ∉ seen).
Proof.
  induction l as [|x l IH]; intros seen; simpl.
  - split; [constructor|]. intros g Hg. by apply elem_of_nil in Hg.
  - destruct (bool_decide (x ∈ seen)) eqn:Hx; [apply IH|].
    apply bool_decide_eq_false in Hx.
    destruct (IH ({[ x ]} ∪ seen)) as [Hn Hfr]. split.
    + constructor; [|done]. intros Hin. apply (Hfr x Hin), elem_add_here.
    + intros g Hg. apply elem_of_cons in Hg as [->|Hg]; [done|].
      eapply not_elem_anti; [|exact (Hfr g Hg)]. by apply subseteq_add.
Qed.

Lemma foldl_lookup_keep {S X} (res : S -> gmap string (list track)) (key : X -> string)
    (f : S -> X -> S) (g : string) :
  (forall st x, g <> key x -> res (f st x) !! g = res st !! g) ->
  forall xs st, g ∉ map key xs -> res (foldl f st xs) !! g = res st !! g.
Proof.
  intros Hf. induction xs as [|x xs IH]; intros st Hg; [done|].
  simpl. rewrite IH.
  - apply Hf. intros ->. apply Hg. by left.
  - intros Hin. apply Hg. by right.
Qed.

Lemma select_synthetic_other idx (st : @state rng) syn g :
  g <> snd (fst syn) -> results (select_synthetic cfg tb idx st syn) !! g = results st !! g.
Proof.
  intros Hg. unfold select_synthetic. destruct syn as [[full_path name] children].
  simpl in Hg.
  destruct (compute_aggregate_features cfg (results st) children) as [agg|];
    [|simpl; by rewrite lookup_insert_ne].
  destruct (bool_decide (agg = ∅)); [simpl; by rewrite lookup_insert_ne|].
  set (p := first_pass children _).
  destruct (second_pass (remaining p) (selected p) (p_ids p) (p_artists p))
    as [[sel ids] arts].
  simpl. by rewrite lookup_insert_ne.
Qed.

(** The list the whole run holds for a playable genre. *)
Lemma select_all_stored env tracks pre genre post :
  gather_playable_genres (GENRE_TREE tb) = pre ++ genre :: post ->
  genre ∉ synthetic_names tb ->
  exists l,
    results (select_all rng_seed rng_random cfg tb env tracks) !! genre = Some l /\
    length l =
    Nat.min (seeds_per_genre cfg)
      (length (killmegod_pool tb (killmegod_index tb tracks)
                 (killmegod_before rng_seed rng_random cfg tb env tracks pre) genre)).
Proof.
  intros Hsplit Hsyn. unfold select_all. rewrite Hsplit, foldl_app. cbn [foldl].
  fold (killmegod_index tb tracks).
  fold (killmegod_before rng_seed rng_random cfg tb env tracks pre).
  set (st := killmegod_before rng_seed rng_random cfg tb env tracks pre).
  destruct (select_genre_stored env (killmegod_index tb tracks) st genre)
    as (l & Hl & Hlen & _).
  exists l. split; [|done].
  rewrite (foldl_lookup_keep results (fun syn => snd (fst syn))); [|
    intros; by apply select_synthetic_other | exact Hsyn].
  rewrite (foldl_lookup_keep results (fun g => g)); [done| |].
  - intros st' x Hx.
    destruct (select_genre_stored env (killmegod_index tb tracks) st' x) as (_ & _ & _ & Hk).
    by apply Hk.
  - rewrite map_id. intros Hin.
    destruct (unique_in_order_nodup
                (flat_map (fun kv => walk_playable (snd kv)) (GENRE_TREE tb)) ∅) as [Hn _].
    fold (gather_playable_genres (GENRE_TREE tb)) in Hn. rewrite Hsplit in Hn.
    apply NoDup_app in Hn as (_ & _ & Hn). apply NoDup_cons in Hn as [Hn _]. done.
Qed.

End Facts.

End Killmegod_count.

(** ** Seed counts: [v2.py] *)

Module V2_count.
Import Sel_facts V2 V2_facts.

Local Arguments Nat.min : simpl never.

Section Facts.
Context {rng : Type} (rng_seed : Z -> rng) (rng_random : rng -> float * rng).
Variable GLOBAL_UNIQUENESS : bool.
Variable GENRE_TO_PARENT : gmap string string.
Variable tb : tables.

(** The unique candidates have pairwise different first artists. *)
Lemma v2_dedupe_nodup ig ag : forall l si sa,
  NoDup (map first_artist (dedupe GLOBAL_UNIQUENESS ig ag si sa l)) /\
  (forall t, t ∈ dedupe GLOBAL_UNIQUENESS ig ag si sa l -> first_artist t ∉ sa).
Proof.
  induction l as [|x l IH]; intros si sa; simpl.
  - split; [constructor|]. intros t Ht. by apply elem_of_nil in Ht.
  - destruct (falsy (tid_id_first x) || negb (Py.truthy (first_artist x)))%bool;
      [apply IH|].
    destruct (GLOBAL_UNIQUENESS &&
              (in_set (tid_id_first x) ig || bool_decide (first_artist x ∈ ag)))%bool;
      [apply IH|].
    destruct (in_set (tid_id_first x) si || bool_decide (first_artist x ∈ sa))%bool
      eqn:Hs; [apply IH|].
    apply orb_false_iff in Hs as [_ Hs]. apply bool_decide_eq_false in Hs.
    destruct (IH (add_opt (tid_id_first x) si) ({[ first_artist x ]} ∪ sa)) as [Hn Hfr].
    split.
    + simpl. constructor; [|done]. intros Hin.
      apply list_elem_of_fmap in Hin as (t & Heq & Ht).
      apply (Hfr t Ht). rewrite <- Heq. apply elem_add_here.
    + intros t Ht. apply elem_of_cons in Ht as [->|Ht]; [done|].
      eapply not_elem_anti; [|exact (Hfr t Ht)]. by apply subseteq_add.
Qed.

Lemma family_ok_add parent (fam : gset string) a t :
  first_artist t <> a ->
  family_ok parent (if Py.truthy parent then {[ a ]} ∪ fam else fam) t =
  family_ok parent fam t.
Proof.
  intros Hne. unfold family_ok. destruct (Py.truthy parent); [|done]. simpl.
  f_equal. apply bool_decide_ext. set_solver.
Qed.

(** The final pick takes the first four tracks that pass the family gate. *)
Lemma v2_pick_top_k_length parent : forall unique top m,
  NoDup (map first_artist unique) ->
  (length top <= 4)%nat ->
  length (fst (pick_top_k GLOBAL_UNIQUENESS parent unique top m)) =
  Nat.min 4 (length top +
             length (filter (fun t => family_ok parent (k_family_artists m) t = true)
                            unique)).
Proof.
  induction unique as [|t rest IH]; intros top m Hn Hlen.
  - rewrite filter_nil. simpl. lia.
  - rewrite v2_pick_top_k_cons. apply NoDup_cons in Hn as [Hx Hn].
    destruct (4 <=? length top)%nat eqn:Hk.
    { apply Nat.leb_le in Hk. simpl. lia. }
    apply Nat.leb_gt in Hk. rewrite filter_cons.
    assert (family_ok parent (k_family_artists m) t =
            negb (Py.truthy parent &&
                  bool_decide (first_artist t ∈ k_family_artists m))) as Hf by done.
    destruct (Py.truthy parent && bool_decide (first_artist t ∈ k_family_artists m))%bool
      eqn:He.
    + rewrite decide_False by (by rewrite Hf). by apply IH.
    + rewrite decide_True by (by rewrite Hf). cbv zeta.
      rewrite IH; try done; [|rewrite length_app; simpl; lia].
      rewrite length_app. cbn [k_family_artists length].
      rewrite (Killmegod_count.filter_length_ext
                 (fun x => family_ok parent
                             (if Py.truthy parent
                              then {[ first_artist t ]} ∪ k_family_artists m
                              else k_family_artists m) x = true)
                 (fun x => family_ok parent (k_family_artists m) x = true)); [simpl; lia|].
      intros x Hx'. rewrite family_ok_add; [done|].
      intros Heq. apply Hx. rewrite <- Heq. by apply list_elem_of_fmap_2.
Qed.

Lemma v2_pick_top_k_bound parent : forall unique top m,
  (length top <= 4)%nat ->
  (length (fst (pick_top_k GLOBAL_UNIQUENESS parent unique top m)) <= 4)%nat.
Proof.
  induction unique as [|t rest IH]; intros top m Hlen; [done|].
  rewrite v2_pick_top_k_cons.
  destruct (4 <=? length top)%nat eqn:Hk; [done|]. apply Nat.leb_gt in Hk.
  destruct (Py.truthy parent && bool_decide (first_artist t ∈ k_family_artists m))%bool.
  - by apply IH.
  - apply IH. rewrite length_app. simpl. lia.
Qed.

(** What one iteration stores for its genre. *)
Lemma v2_select_genre_stored env idx (st : @state rng) genre :
  exists l,
    results (select_genre rng_random GLOBAL_UNIQUENESS GENRE_TO_PARENT tb env idx st genre)
      !! genre = Some l /\
    length l = Nat.min 4 (length (v2_pool GLOBAL_UNIQUENESS GENRE_TO_PARENT tb env idx
                                          st genre)).
Proof.
  unfold select_genre, v2_pool.
  assert (NoDup (map first_artist
            (snd (unique_candidates GLOBAL_UNIQUENESS GENRE_TO_PARENT tb env idx st genre))))
    as Hnd.
  { unfold unique_candidates. destruct (gather_candidates _ _ _ _ _ _ _ _) as [tbl cands].
    simpl. apply v2_dedupe_nodup. }
  destruct (unique_candidates GLOBAL_UNIQUENESS GENRE_TO_PARENT tb env idx st genre)
    as [table' unique].
  simpl in Hnd. cbn [snd].
  destruct unique as [|u unique].
  { exists []. simpl. rewrite lookup_insert_eq. split; [done|lia]. }
  cbn [is_nil].
  pose proof (v2_score_all_tracks rng_random env genre (u :: unique) (generator st)) as Hsc.
  destruct (score_all rng_random env genre (u :: unique) (generator st)) as [scored g'].
  simpl in Hsc.
  assert (map snd (sort_desc scored) ≡ₚ u :: unique) as Hperm.
  { rewrite <- Hsc. by rewrite (sort_desc_perm scored). }
  set (parent := default "" (GENRE_TO_PARENT !! genre)).
  set (m := Marks _ _ _ _).
  pose proof (v2_pick_top_k_length parent (map snd (sort_desc scored)) [] m) as Hlen.
  destruct (pick_top_k GLOBAL_UNIQUENESS parent (map snd (sort_desc scored)) [] m)
    as [top_k m'].
  exists top_k. simpl. rewrite lookup_insert_eq. split; [done|].
  simpl in Hlen. rewrite Hlen.
  - by rewrite Hperm.
  - by rewrite Hperm.
  - lia.
Qed.

Lemma v2_select_genre_bounded env idx (st : @state rng) genre :
  bounded 4 (results st) ->
  bounded 4 (results (select_genre rng_random GLOBAL_UNIQUENESS GENRE_TO_PARENT tb env
                                   idx st genre)).
Proof.
  intros Hb. unfold select_genre.
  destruct (unique_candidates GLOBAL_UNIQUENESS GENRE_TO_PARENT tb env idx st genre)
    as [table' unique].
  destruct (is_nil unique);
    [apply Killmegod_count.bounded_insert; [done | simpl; lia]|].
  destruct (score_all rng_random env genre unique (generator st)) as [scored g'].
  set (parent := default "" (GENRE_TO_PARENT !! genre)).
  set (m := Marks _ _ _ _).
  pose proof (v2_pick_top_k_bound parent (map snd (sort_desc scored)) [] m) as Hlen.
  destruct (pick_top_k GLOBAL_UNIQUENESS parent (map snd (sort_desc scored)) [] m)
    as [top_k m'].
  simpl in *. apply Killmegod_count.bounded_insert; [done|]. apply Hlen. lia.
Qed.

Lemma v2_select_all_bounded env tracks :
  bounded 4 (results (select_all rng_seed rng_random GLOBAL_UNIQUENESS GENRE_TO_PARENT
                                 tb env tracks)).
Proof.
  unfold select_all.
  apply (foldl_inv (fun st => bounded _ (results st)));
    [|intros; by apply v2_select_genre_bounded].
  intros g l H. simpl in H. by rewrite lookup_empty in H.
Qed.

Lemma v2_select_genre_other env idx (st : @state rng) genre g :
  g <> genre ->
  results (select_genre rng_random GLOBAL_UNIQUENESS GENRE_TO_PARENT tb env idx st genre)
    !! g = results st !! g.
Proof.
  intros Hg. unfold select_genre.
  destruct (unique_candidates GLOBAL_UNIQUENESS GENRE_TO_PARENT tb env idx st genre)
    as [table' unique].
  destruct (is_nil unique); [simpl; by rewrite lookup_insert_ne|].
  destruct (score_all rng_random env genre unique (generator st)) as [scored g'].
  destruct (pick_top_k _ _ _ _ _) as [top_k m'].
  simpl. by rewrite lookup_insert_ne.
Qed.

(** The list the whole run holds for a genre. *)
Lemma v2_select_all_stored env tracks pre genre post :
  gather_playable_genres (GENRE_TREE tb) = pre ++ genre :: post ->
  exists l,
    results (select_all rng_seed rng_random GLOBAL_UNIQUENESS GENRE_TO_PARENT tb env
                        tracks) !! genre = Some l /\
    length l =
    Nat.min 4
      (length (v2_pool GLOBAL_UNIQUENESS GENRE_TO_PARENT tb env
                 (index_tracks (TRACK_DENY_URIS tb) tracks)
                 (v2_before rng_seed rng_random GLOBAL_UNIQUENESS GENRE_TO_PARENT tb env
                            tracks pre) genre)).
Proof.
  intros Hsplit. unfold select_all. rewrite Hsplit, foldl_app. cbn [foldl].
  fold (v2_before rng_seed rng_random GLOBAL_UNIQUENESS GENRE_TO_PARENT tb env tracks pre).
  set (st := v2_before rng_seed rng_random GLOBAL_UNIQUENESS GENRE_TO_PARENT tb env
                       tracks pre).
  destruct (v2_select_genre_stored env (index_tracks (TRACK_DENY_URIS tb) tracks) st genre)
    as (l & Hl & Hlen).
  exists l. split; [|done].
  rewrite (Killmegod_count.foldl_lookup_keep results (fun g => g)); [done| |].
  - intros st' x Hx. by apply v2_select_genre_other.
  - rewrite map_id. intros Hin.
    destruct (Killmegod_count.unique_in_order_nodup
                (flat_map (fun kv => walk_playable (snd kv)) (GENRE_TREE tb)) ∅) as [Hn _].
    fold (gather_playable_genres (GENRE_TREE tb)) in Hn. rewrite Hsplit in Hn.
    apply NoDup_app in Hn as (_ & _ & Hn). apply NoDup_cons in Hn as [Hn _]. done.
Qed.

End Facts.

End V2_count.

(** ** Uniqueness of seeds across genres *)

Lemma demo_identifiers_unique : identifiers_unique demo_tracks.
Proof.
  intros t1 t2 H1 H2 Heq. unfold demo_tracks in H1, H2.
  repeat (apply elem_of_cons in H1 as [->|H1]);
    try (by apply elem_of_nil in H1);
    repeat (apply elem_of_cons in H2 as [->|H2]);
    try (by apply elem_of_nil in H2);
    first [ reflexivity | discriminate Heq ].
Qed.

(** [v2.py] reads the identifier id first when it checks the global set and
    uri first when it fills it, so a track that has both is never found in
    the set: a track listed under each of its two artists is selected for two
    genres.  [killmegod.py] reads it uri first in both places and selects it
    once. *)
Example v2_identifier_read_two_ways :
  let res := V2.results (V2.select_all toy_seed toy_random true ∅ clash_tables
                                       env_forward clash_tracks) in
  let res' := Killmegod.results
                (Killmegod.select_all toy_seed toy_random CONFIG clash_tables
                                      env_forward clash_tracks) in
  res !! "rock" = Some [clash_track "X" "Y" "rock"] /\
  res !! "jazz" = Some [clash_track "Y" "X" "jazz"] /\
  tid_uri_first (clash_track "X" "Y" "rock") = tid_uri_first (clash_track "Y" "X" "jazz") /\
  res' !! "rock" = Some [clash_track "X" "Y" "rock"] /\
  res' !! "jazz" = Some [].
Proof. vm_compute. repeat split; reflexivity. Qed.

(** C1. Seeds of two different genres never share a track identifier (URI,
    with the ID as fallback) nor a primary artist.  In [killmegod.py] this
    holds for every pair of lists of the final [results], the synthetic ones
    included, for any tree, rules, configuration and dataset, and the artists
    differ even after stripping and lower-casing.  In [v2.py] with
    GLOBAL_UNIQUENESS on it holds for any parent map: the primary artists
    differ, and so do the identifiers of any dataset in which an identifier
    comes with one primary artist. *)
Theorem seeds_unique_across_genres {rng : Type}
    (rng_seed : Z -> rng) (rng_random : rng -> float * rng) :
  (forall cfg tb env tracks g1 g2 l1 l2 t1 t2,
     let res := Killmegod.results
                  (Killmegod.select_all rng_seed rng_random cfg tb env tracks) in
     g1 <> g2 -> res !! g1 = Some l1 -> res !! g2 = Some l2 ->
     t1 ∈ l1 -> t2 ∈ l2 ->
     tid_uri_first t1 <> tid_uri_first t2 /\
     Killmegod.artist_key t1 <> Killmegod.artist_key t2 /\
     first_artist t1 <> first_artist t2) /\
  (forall parents tb env tracks g1 g2 l1 l2 t1 t2,
     let res := V2.results
                  (V2.select_all rng_seed rng_random true parents tb env tracks) in
     g1 <> g2 -> res !! g1 = Some l1 -> res !! g2 = Some l2 ->
     t1 ∈ l1 -> t2 ∈ l2 ->
     first_artist t1 <> first_artist t2 /\
     (identifiers_unique tracks -> tid_uri_first t1 <> tid_uri_first t2)).
Proof.
  split.
  - intros cfg tb env tracks g1 g2 l1 l2 t1 t2 res Hne H1 H2 Ht1 Ht2.
    destruct (Killmegod_facts.select_all_inv rng_seed rng_random cfg tb env tracks)
      as [_ Hsep].
    destruct (Hsep g1 g2 l1 l2 t1 t2 Hne H1 H2 Ht1 Ht2) as [Hid Hart].
    split; [done|]. split; [done|].
    intros Heq. apply Hart. unfold Killmegod.artist_key, Killmegod.artist_stripped.
    by rewrite Heq.
  - intros parents tb env tracks g1 g2 l1 l2 t1 t2 res Hne H1 H2 Ht1 Ht2.
    destruct (V2_facts.v2_select_all_inv rng_seed rng_random parents tb env tracks)
      as (_ & Hsep & Hsrc).
    pose proof (Hsep g1 g2 l1 l2 t1 t2 Hne H1 H2 Ht1 Ht2) as Hart.
    split; [done|]. intros Huniq Heq. apply Hart.
    exact (Huniq t1 t2 (Hsrc g1 l1 t1 H1 Ht1) (Hsrc g2 l2 t2 H2 Ht2) Heq).
Qed.

Lemma seeds_unique_across_genres_witness :
  (tid_uri_first (first_of demo_killmegod_rock)
     <> tid_uri_first (first_of demo_killmegod_metal) /\
   Killmegod.artist_key (first_of demo_killmegod_rock)
     <> Killmegod.artist_key (first_of demo_killmegod_metal) /\
   first_artist (first_of demo_killmegod_rock)
     <> first_artist (first_of demo_killmegod_metal)) /\
  (first_artist (first_of demo_v2_rock) <> first_artist (first_of demo_v2_metal) /\
   tid_uri_first (first_of demo_v2_rock) <> tid_uri_first (first_of demo_v2_metal)).
Proof.
  split.
  - apply (proj1 (seeds_unique_across_genres toy_seed toy_random)
             CONFIG demo_tables env_forward demo_tracks "rock" "metal"
             demo_killmegod_rock demo_killmegod_metal).
    + discriminate.
    + vm_compute. reflexivity.
    + vm_compute. reflexivity.
    + apply list_elem_of_here.
    + apply list_elem_of_here.
  - assert ("rock" <> "metal") as Hne by discriminate.
    assert (V2.results demo_v2 !! "rock" = Some demo_v2_rock) as H1
      by (vm_compute; reflexivity).
    assert (V2.results demo_v2 !! "metal" = Some demo_v2_metal) as H2
      by (vm_compute; reflexivity).
    destruct (proj2 (seeds_unique_across_genres toy_seed toy_random)
                ∅ demo_tables env_forward demo_tracks "rock" "metal"
                demo_v2_rock demo_v2_metal
                (first_of demo_v2_rock) (first_of demo_v2_metal) Hne H1 H2
                (list_elem_of_here _ _) (list_elem_of_here _ _)) as [Ha Hi].
    split; [exact Ha | exact (Hi demo_identifiers_unique)].
Defined.

(** ** Length of the seed lists *)

(** C4. A seed list never has more than K tracks, and has exactly K when the
    pool has at least K: the list of a genre has [min K (length pool)] tracks,
    where the pool is the filtered, de-duplicated candidates of the genre that
    the tracks and artists used by the genres processed before it leave
    eligible.  In [killmegod.py] K is [seeds_per_genre], 5 in CONFIG; the
    synthetic pass stops at the literal 5, so the bound covers its lists when
    [seeds_per_genre] is at least 5.  In [v2.py] K is the literal 4 and the
    pool is what passes the family gate. *)
Theorem seed_list_length {rng : Type}
    (rng_seed : Z -> rng) (rng_random : rng -> float * rng) :
  (forall cfg tb env tracks g l,
     (5 <= seeds_per_genre cfg)%nat ->
     Killmegod.results (Killmegod.select_all rng_seed rng_random cfg tb env tracks) !! g
       = Some l ->
     (length l <= seeds_per_genre cfg)%nat) /\
  (forall cfg tb env tracks pre genre post,
     Killmegod.gather_playable_genres (GENRE_TREE tb) = pre ++ genre :: post ->
     genre ∉ synthetic_names tb ->
     exists l,
       Killmegod.results (Killmegod.select_all rng_seed rng_random cfg tb env tracks)
         !! genre = Some l /\
       length l =
       Nat.min (seeds_per_genre cfg)
         (length (killmegod_pool tb (killmegod_index tb tracks)
                    (killmegod_before rng_seed rng_random cfg tb env tracks pre) genre))) /\
  (forall G parents tb env tracks g l,
     V2.results (V2.select_all rng_seed rng_random G parents tb env tracks) !! g = Some l ->
     (length l <= 4)%nat) /\
  (forall G parents tb env tracks pre genre post,
     V2.gather_playable_genres (GENRE_TREE tb) = pre ++ genre :: post ->
     exists l,
       V2.results (V2.select_all rng_seed rng_random G parents tb env tracks) !! genre
         = Some l /\
       length l =
       Nat.min 4
         (length (v2_pool G parents tb env (index_tracks (TRACK_DENY_URIS tb) tracks)
                    (v2_before rng_seed rng_random G parents tb env tracks pre) genre))).
Proof.
  split; [|split; [|split]].
  - intros cfg tb env tracks g l Hk H.
    pose proof (Killmegod_count.select_all_bounded rng_seed rng_random cfg tb env tracks
                  g l H).
    lia.
  - intros cfg tb env tracks pre genre post Hsplit Hsyn.
    by eapply Killmegod_count.select_all_stored.
  - intros G parents tb env tracks g l H.
    exact (V2_count.v2_select_all_bounded rng_seed rng_random G parents tb env tracks g l H).
  - intros G parents tb env tracks pre genre post Hsplit.
    by eapply V2_count.v2_select_all_stored.
Qed.

Lemma seed_list_length_witness :
  (length demo_killmegod_metal <= seeds_per_genre CONFIG)%nat /\
  (exists l,
     Killmegod.results demo_killmegod !! "metal" = Some l /\
     length l =
     Nat.min (seeds_per_genre CONFIG)
       (length (killmegod_pool demo_tables (killmegod_index demo_tables demo_tracks)
                  (killmegod_before toy_seed toy_random CONFIG demo_tables env_forward
                                    demo_tracks ["rock"; "punk"]) "metal"))) /\
  (length demo_v2_metal <= 4)%nat /\
  (exists l,
     V2.results demo_v2 !! "metal" = Some l /\
     length l =
     Nat.min 4
       (length (v2_pool true ∅ demo_tables env_forward
                  (index_tracks (TRACK_DENY_URIS demo_tables) demo_tracks)
                  (v2_before toy_seed toy_random true ∅ demo_tables env_forward
                             demo_tracks ["rock"; "punk"; "__synthetic__"]) "metal"))).
Proof.
  pose proof (seed_list_length toy_seed toy_random) as (H1 & H2 & H3 & H4).
  split; [|split; [|split]].
  - apply (H1 CONFIG demo_tables env_forward demo_tracks "metal").
    + simpl. lia.
    + vm_compute. reflexivity.
  - apply (H2 CONFIG demo_tables env_forward demo_tracks ["rock"; "punk"] "metal"
              ["hard rock"]).
    + vm_compute. reflexivity.
    + unfold synthetic_names. vm_compute. intros H. not_in_list H.
  - apply (H3 true ∅ demo_tables env_forward demo_tracks "metal").
    vm_compute. reflexivity.
  - apply (H4 true ∅ demo_tables env_forward demo_tracks
              ["rock"; "punk"; "__synthetic__"] "metal" ["hard rock"]).
    vm_compute. reflexivity.
Defined.

(** ** Reproducibility of a run *)

Module Determinism.
Import Killmegod.

Lemma existsb_perm {A} (f : A -> bool) (l l' : list A) :
  l ≡ₚ l' -> existsb f l = existsb f l'.
Proof.
  induction 1 as [|x l l' _ IH|x y l|l1 l2 l3 _ IH1 _ IH2]; simpl.
  - done.
  - by rewrite IH.
  - destruct (f x), (f y); done.
  - by rewrite IH1.
Qed.

Lemma foldl_ext_eq {S X} (f f' : S -> X -> S) :
  (forall st x, f st x = f' st x) -> forall xs st, foldl f st xs = foldl f' st xs.
Proof.
  intros H. induction xs as [|x xs IH]; intros st; [done|].
  simpl. by rewrite H, IH.
Qed.

Section Facts.
Context {rng : Type} (rng_seed : Z -> rng) (rng_random : rng -> float * rng).
Variable cfg : config.
Variable tb : tables.
Variables env1 env2 : environment rng.
Hypothesis faithful1 : faithful_iteration env1.
Hypothesis faithful2 : faithful_iteration env2.

Lemma proto_score_env genre t g :
  proto_score rng_random cfg tb env1 genre t g =
  proto_score rng_random cfg tb env2 genre t g.
Proof.
  unfold proto_score.
  by rewrite (existsb_perm _ _ _ (faithful1 bad_tokens)),
             (existsb_perm _ _ _ (faithful2 bad_tokens)).
Qed.

Lemma score_all_env genre : forall l g,
  score_all rng_random cfg tb env1 genre l g = score_all rng_random cfg tb env2 genre l g.
Proof.
  induction l as [|t l IH]; intros g; [done|].
  simpl. rewrite proto_score_env.
  destruct (proto_score rng_random cfg tb env2 genre t g) as [s g1].
  by rewrite IH.
Qed.

Lemma select_genre_env idx (st : @state rng) genre :
  select_genre rng_random cfg tb env1 idx st genre =
  select_genre rng_random cfg tb env2 idx st genre.
Proof. unfold select_genre. by rewrite score_all_env. Qed.

Lemma select_all_env tracks :
  select_all rng_seed rng_random cfg tb env1 tracks =
  select_all rng_seed rng_random cfg tb env2 tracks.
Proof.
  unfold select_all, py_seed. f_equal.
  apply foldl_ext_eq. intros st x. apply select_genre_env.
Qed.

End Facts.

End Determinism.

(** C8. The selection of [killmegod.py] is a function of the dataset, the
    tables, the configuration and the seed alone: two runs give the same
    results map (and the same global sets and generator state) whatever the
    state of the generator before [random.seed] and whatever the order in
    which the set literal of [proto_score] is iterated. *)
Theorem selection_deterministic {rng : Type}
    (rng_seed : Z -> rng) (rng_random : rng -> float * rng)
    (cfg : config) (tb : tables) (tracks : list track)
    (env1 env2 : environment rng) :
  faithful_iteration env1 -> faithful_iteration env2 ->
  Killmegod.select_all rng_seed rng_random cfg tb env1 tracks =
  Killmegod.select_all rng_seed rng_random cfg tb env2 tracks.
Proof. intros H1 H2. by apply Determinism.select_all_env. Qed.

Lemma selection_deterministic_witness :
  Killmegod.select_all toy_seed toy_random CONFIG demo_tables env_forward demo_tracks =
  Killmegod.select_all toy_seed toy_random CONFIG demo_tables env_backward demo_tracks.
Proof.
  apply (selection_deterministic toy_seed toy_random CONFIG demo_tables demo_tracks
           env_forward env_backward).
  - intros l. reflexivity.
  - intros l. simpl. symmetry. apply Permutation_rev.
Defined.

(** ** The rule table across the selection of [v2.py] *)

Module Relax_facts.
Import V2.

Section Facts.
Context {rng : Type} (rng_random : rng -> float * rng).
Variable GLOBAL_UNIQUENESS : bool.
Variable GENRE_TO_PARENT : gmap string string.
Variable tb : tables.

Lemma relax_fires (env : environment rng) table genre cands rules :
  (length cands < 4)%nat -> table !! genre = Some rules ->
  relax_rules_if_sparse env table genre cands =
  (<[genre := relax_record env genre rules]> table, cands).
Proof.
  intros Hlen Hr. unfold relax_rules_if_sparse.
  destruct (4 <=? length cands)%nat eqn:Hk; [apply Nat.leb_le in Hk; lia|].
  by rewrite Hr.
Qed.

Lemma relax_other (env : environment rng) table genre cands g :
  g <> genre -> fst (relax_rules_if_sparse env table genre cands) !! g = table !! g.
Proof.
  intros Hg. unfold relax_rules_if_sparse.
  destruct (4 <=? length cands)%nat; [done|].
  destruct (table !! genre); [|done]. simpl. by rewrite lookup_insert_ne.
Qed.

Lemma gather_candidates_other (env : environment rng) genre parent fam g :
  g <> genre -> forall bucket table cands,
  fst (gather_candidates tb env genre parent fam bucket table cands) !! g = table !! g.
Proof.
  intros Hg. induction bucket as [|t rest IH]; intros table cands; [done|].
  simpl.
  destruct (negb (genre_match (EXCLUSIONS tb) genre (norm_tags (raw_tags t))));
    [apply IH|].
  destruct (negb (V2_rules.passes_rules table genre t)); [apply IH|].
  destruct (Py.truthy parent && negb (falsy (tid_uri_first t)) &&
            in_set (tid_uri_first t) fam)%bool; [apply IH|].
  pose proof (relax_other env table genre (cands ++ [t]) g Hg) as Hr.
  destruct (relax_rules_if_sparse env table genre (cands ++ [t])) as [table' cands'].
  simpl in Hr. by rewrite IH.
Qed.

Lemma select_genre_table_other env idx (st : @state rng) genre g :
  g <> genre ->
  rules_table (select_genre rng_random GLOBAL_UNIQUENESS GENRE_TO_PARENT tb env idx st
                            genre) !! g = rules_table st !! g.
Proof.
  intros Hg. unfold select_genre, unique_candidates.
  pose proof (gather_candidates_other env genre (default "" (GENRE_TO_PARENT !! genre))
                (family_set (used_track_ids_by_parent st)
                            (default "" (GENRE_TO_PARENT !! genre)))
                g Hg (bucket_of idx (Py.lower genre)) (rules_table st) []) as Hother.
  destruct (gather_candidates _ _ _ _ _ _ _ _) as [table' cands].
  simpl in Hother.
  destruct (is_nil _); [done|].
  destruct (score_all _ _ _ _ _) as [scored g'].
  destruct (pick_top_k _ _ _ _ _) as [top_k m'].
  done.
Qed.

End Facts.

End Relax_facts.

(** C9. [relax_rules_if_sparse] of [v2.py] works on the record it fetched
    from GENRE_RULES, not on a copy: with fewer than four candidates the
    record of the genre in the shared table is overwritten (the popularity cap
    is gone, the adjacent tags are added to the require list, the edit tokens
    leave the name deny list), and the table stays that way after the genre.
    Only the records of the other genres are left as they were.  On the
    "thrash metal" record of the script and a pool of two tracks, the cap of
    85 is [None] after the run and the track of popularity 90, which the
    rules reject as configured, is among the seeds. *)
Theorem relax_rules_if_sparse_overwrites_shared_record {rng : Type}
    (rng_random : rng -> float * rng) :
  (forall (env : environment rng) table genre cands rules,
     (length cands < 4)%nat -> table !! genre = Some rules ->
     fst (V2.relax_rules_if_sparse env table genre cands) !! genre =
       Some (V2.relax_record env genre rules) /\
     popularity_max (V2.relax_record env genre rules) = None) /\
  (forall G parents tb env idx (st : @V2.state rng) genre g,
     g <> genre ->
     V2.rules_table (V2.select_genre rng_random G parents tb env idx st genre) !! g =
     V2.rules_table st !! g) /\
  (popularity_max <$> (GENRE_RULES thrash_tables !! "thrash metal") = Some (Some 85%Z) /\
   popularity_max <$> (V2.rules_table thrash_run !! "thrash metal") = Some None /\
   require_artist_genres_any <$> (V2.rules_table thrash_run !! "thrash metal") =
     Some ["thrash metal"; "bay area thrash"; "crossover thrash"; "teutonic thrash";
           "speed metal"; "classic metal"; "heavy metal"] /\
   V2_rules.passes_rules (GENRE_RULES thrash_tables) "thrash metal" thrash_loud = false /\
   V2.results thrash_run !! "thrash metal" = Some [thrash_quiet; thrash_loud]).
Proof.
  split; [|split].
  - intros env table genre cands rules Hlen Hr.
    rewrite (Relax_facts.relax_fires env table genre cands rules Hlen Hr). simpl.
    by rewrite lookup_insert_eq.
  - intros G parents tb env idx st genre g Hg.
    by apply Relax_facts.select_genre_table_other.
  - vm_compute. repeat split; reflexivity.
Qed.

Lemma relax_rules_if_sparse_overwrites_shared_record_witness :
  (fst (V2.relax_rules_if_sparse env_forward (GENRE_RULES thrash_tables) "thrash metal"
                                 [thrash_quiet]) !! "thrash metal" =
     Some (V2.relax_record env_forward "thrash metal" thrash_rule) /\
   popularity_max (V2.relax_record env_forward "thrash metal" thrash_rule) = None) /\
  V2.rules_table
    (V2.select_genre toy_random true ∅ thrash_tables env_forward []
       (V2.State (GENRE_RULES thrash_tables) ∅ ∅ ∅ ∅ ∅ 0%Z) "thrash metal")
    !! "shoegaze" = GENRE_RULES thrash_tables !! "shoegaze".
Proof.
  pose proof (relax_rules_if_sparse_overwrites_shared_record toy_random) as (H1 & H2 & _).
  split.
  - apply H1.
    + simpl. lia.
    + vm_compute. reflexivity.
  - apply (H2 true ∅ thrash_tables env_forward []
              (V2.State (GENRE_RULES thrash_tables) ∅ ∅ ∅ ∅ ∅ 0%Z)
              "thrash metal" "shoegaze").
    discriminate.
Defined.

(** ** Where the seeds of [killmegod.py] come from *)

Module Provenance.
Import Sel_facts Killmegod Killmegod_facts.

Section Facts.
Context {rng : Type} (rng_seed : Z -> rng) (rng_random : rng -> float * rng).
Variable cfg : config.
Variable tb : tables.

Lemma candidates_of_sub idx genre t :
  t ∈ candidates_of tb idx genre -> exists kv, kv ∈ idx /\ t ∈ snd kv.
Proof.
  unfold candidates_of. intros H.
  apply list_elem_of_In, in_flat_map in H as (kv & Hkv & Ht).
  exists kv. split; [by apply list_elem_of_In|].
  destruct (word_search (Py.lower genre) (fst kv)); [|done].
  apply list_elem_of_In in Ht. by apply list_elem_of_filter in Ht as [_ Ht].
Qed.

Lemma sourced_insert res pool g l :
  sourced res pool -> (forall t, t ∈ l -> t ∈ pool) -> sourced (<[g := l]> res) pool.
Proof.
  intros Hs Hl g' l' t H Ht. destruct (decide (g = g')) as [->|Hne].
  - rewrite lookup_insert_eq in H. injection H as <-. by apply Hl.
  - rewrite lookup_insert_ne in H by done. by eapply Hs.
Qed.

Lemma sourced_insert_nil res pool g :
  sourced res pool -> sourced (<[g := []]> res) pool.
Proof.
  intros Hs. apply sourced_insert; [done|]. intros t Ht. by apply elem_of_nil in Ht.
Qed.

Section Pool.
Variable idx : list (string * list track).
Variable pool : list track.
Hypothesis idx_pool : forall kv t, kv ∈ idx -> t ∈ snd kv -> t ∈ pool.

Lemma select_genre_sourced env (st : @state rng) genre :
  sourced (results st) pool ->
  sourced (results (select_genre rng_random cfg tb env idx st genre)) pool.
Proof.
  intros Hs. unfold select_genre.
  destruct (is_nil (candidates_of tb idx genre)); [by apply sourced_insert_nil|].
  destruct (is_nil (dedupe ∅ ∅ (candidates_of tb idx genre)));
    [by apply sourced_insert_nil|].
  pose proof (score_all_tracks rng_random cfg tb env genre
                (dedupe ∅ ∅ (candidates_of tb idx genre)) (generator st)) as Hsc.
  destruct (score_all rng_random cfg tb env genre _ (generator st)) as [scored g'].
  simpl in Hsc.
  assert (forall t, t ∈ map snd (sort_desc scored) ->
                    t ∈ dedupe ∅ ∅ (candidates_of tb idx genre)) as Hsub.
  { intros t Ht. rewrite <- Hsc. by rewrite <- (sort_desc_perm scored). }
  destruct (pick_top_k cfg (map snd (sort_desc scored)) [] (global_seen_ids st)
              (global_seen_artists st)) as [[top_k ids] arts] eqn:Hp.
  apply (pick_top_k_inv cfg (global_seen_ids st) (global_seen_artists st)) in Hp
    as (_ & _ & _ & _ & Hfrom); try done.
  - simpl. apply sourced_insert; [done|]. intros t Ht.
    destruct (Hfrom t Ht) as [Hn|Hu]; [by apply elem_of_nil in Hn|].
    apply Hsub, dedupe_truthy in Hu as [_ Hc].
    apply candidates_of_sub in Hc as (kv & Hkv & Hin). by eapply idx_pool.
  - intros t Ht. by apply Hsub, dedupe_truthy in Ht as [? _].
  - intros t Ht. by apply elem_of_nil in Ht.
  - intros t Ht. by apply elem_of_nil in Ht.
Qed.

Lemma select_synthetic_sourced (st : @state rng) syn :
  sourced (results st) pool ->
  sourced (results (select_synthetic cfg tb idx st syn)) pool.
Proof.
  intros Hs. unfold select_synthetic. destruct syn as [[full_path name] children].
  destruct (compute_aggregate_features cfg (results st) children) as [agg|];
    [|by apply sourced_insert_nil].
  destruct (bool_decide (agg = ∅)); [by apply sourced_insert_nil|].
  set (sorted := map snd (sort_asc (map (fun c => (c_distance c, c))
        (dedupe_candidates ∅ (synthetic_candidates cfg tb idx (global_seen_ids st)
                                 agg children))))).
  assert (forall c, c ∈ sorted ->
            falsy (tid_uri_first (c_track c)) = false /\ c_track c ∈ pool) as Htr.
  { intros c Hx. unfold sorted in Hx. rewrite sorted_candidates_perm in Hx.
    apply dedupe_candidates_sub in Hx.
    apply synthetic_candidates_spec in Hx as (Hf & kv & Hkv & Hin).
    split; [done | by eapply idx_pool]. }
  destruct (first_pass_inv (global_seen_ids st) (global_seen_artists st) children
              (Picking [] (global_seen_ids st) (global_seen_artists st) sorted))
    as (H1 & H2 & H3 & H4 & H5 & H6); simpl; try done.
  { intros c Hc. by apply Htr. }
  { intros t Hx. by apply elem_of_nil in Hx. }
  { intros t Hx. by apply elem_of_nil in Hx. }
  set (p := first_pass children _) in *.
  destruct (second_pass (remaining p) (selected p) (p_ids p) (p_artists p))
    as [[sel ids] arts] eqn:Hsp.
  apply (second_pass_inv (global_seen_ids st) (global_seen_artists st)) in Hsp
    as (_ & _ & _ & _ & Hfrom); try done.
  - simpl. apply sourced_insert; [done|]. intros t Ht.
    destruct (Hfrom t Ht) as [Hsel|(c & Hc & ->)].
    + destruct (H6 t Hsel) as [Hn|(c & Hc & ->)]; [by apply elem_of_nil in Hn|].
      simpl in Hc. by apply Htr.
    + apply Htr. by apply H5.
  - intros c Hx. apply Htr. by apply H5.
Qed.

End Pool.

Lemma select_all_sourced env tracks :
  sourced (results (select_all rng_seed rng_random cfg tb env tracks))
          (Killmegod_text.cleaned_tracks tracks).
Proof.
  unfold select_all.
  assert (forall kv t,
            kv ∈ index_tracks (TRACK_DENY_URIS tb) (Killmegod_text.cleaned_tracks tracks) ->
            t ∈ snd kv -> t ∈ Killmegod_text.cleaned_tracks tracks) as Hidx.
  { intros kv t Hkv Ht. by eapply Index_facts.index_tracks_elem. }
  apply foldl_inv; [|intros; by apply select_synthetic_sourced].
  apply foldl_inv; [|intros; by apply select_genre_sourced].
  intros g l t H. simpl in H. by rewrite lookup_empty in H.
Qed.

End Facts.

End Provenance.

(** ** The cleaning pass of [killmegod.py] *)

Lemma cleaned_tracks_origin tracks s :
  s ∈ Killmegod_text.cleaned_tracks tracks ->
  exists t, t ∈ tracks /\ ~ feature_titled t /\ s = Killmegod_text.clean_track t.
Proof.
  rewrite Text_facts.cleaned_tracks_filter. intros H.
  apply list_elem_of_fmap in H as (t & -> & Ht).
  apply list_elem_of_filter in Ht as [Hm Ht].
  exists t. split; [done|]. split; [|done].
  intros Hf. apply Text_facts.has_feature_marker_iff in Hf. congruence.
Qed.

(** C10. The cleaning loop drops exactly the tracks whose title holds a
    standalone "feat", "feat.", "ft", "ft.", "featuring" or "with" (any case),
    and gives every other track the name and the artist strings returned by
    [strip_features], leaving its identifiers alone.  Indexing and selection
    see the cleaned list only: every candidate of a genre and every seed of
    the results, the synthetic lists included, is the cleaned form of an input
    track whose title holds no such token. *)
Theorem feature_titled_tracks_dropped {rng : Type}
    (rng_seed : Z -> rng) (rng_random : rng -> float * rng)
    (cfg : config) (tb : tables) (env : environment rng) (tracks : list track) :
  (forall t, Killmegod_text.has_feature_marker t = true <-> feature_titled t) /\
  Killmegod_text.cleaned_tracks tracks =
    Killmegod_text.clean_track <$>
      filter (fun t => Killmegod_text.has_feature_marker t = false) tracks /\
  (forall t,
     name (Killmegod_text.clean_track t) =
       Some (Killmegod_text.strip_features (Py.or_str (name t) "")) /\
     artists (Killmegod_text.clean_track t) =
       map Killmegod_text.strip_features (artists t) /\
     uri (Killmegod_text.clean_track t) = uri t /\
     id (Killmegod_text.clean_track t) = id t) /\
  (forall genre s,
     s ∈ Killmegod.candidates_of tb (killmegod_index tb tracks) genre ->
     exists t, t ∈ tracks /\ ~ feature_titled t /\ s = Killmegod_text.clean_track t) /\
  (forall g l s,
     Killmegod.results (Killmegod.select_all rng_seed rng_random cfg tb env tracks) !! g
       = Some l ->
     s ∈ l ->
     exists t, t ∈ tracks /\ ~ feature_titled t /\ s = Killmegod_text.clean_track t).
Proof.
  split; [exact Text_facts.has_feature_marker_iff|].
  split; [exact (Text_facts.cleaned_tracks_filter tracks)|].
  split; [intros t; by destruct t|].
  split.
  - intros genre s Hs. apply Provenance.candidates_of_sub in Hs as (kv & Hkv & Hin).
    apply cleaned_tracks_origin. by eapply Index_facts.index_tracks_elem.
  - intros g l s Hl Hs. apply cleaned_tracks_origin.
    exact (Provenance.select_all_sourced rng_seed rng_random cfg tb env tracks g l s Hl Hs).
Qed.

(** An artist string with a credit of more than one character keeps the rest
    of the credit. *)
Example clean_track_artist_credit :
  artists (Killmegod_text.clean_track
             (set_name_artists (simple_track "u9" "Song" "" [] None None) "Song"
                               ["Beyonce feat. Jay-Z"]))
  = ["Beyonceay-Z"].
Proof. by vm_compute. Qed.

Lemma feature_titled_tracks_dropped_witness :
  feature_titled (simple_track "u3" "Duet (feat. Guest)" "Someone" ["rock"] None None) /\
  (exists t, t ∈ demo_tracks /\ ~ feature_titled t /\
             first_of demo_killmegod_rock = Killmegod_text.clean_track t) /\
  (exists t, t ∈ demo_tracks /\ ~ feature_titled t /\
             first_of demo_killmegod_metal = Killmegod_text.clean_track t).
Proof.
  pose proof (feature_titled_tracks_dropped toy_seed toy_random CONFIG demo_tables
                env_forward demo_tracks) as (H1 & _ & _ & H4 & H5).
  split; [|split].
  - apply H1. vm_compute. reflexivity.
  - apply (H4 "rock"). vm_compute. apply list_elem_of_here.
  - apply (H5 "metal" demo_killmegod_metal).
    + vm_compute. reflexivity.
    + apply list_elem_of_here.
Defined.

(** ** Features of the manifest nodes *)

Module Manifest_facts.
Import Stats Manifest.

Lemma median_sorted_some vals :
  vals <> [] -> exists m, median_sorted vals = Some m.
Proof.
  intros Hne. unfold median_sorted.
  destruct vals as [|x vals]; [done|].
  set (l := x :: vals). assert (0 < length l)%nat as Hpos by (simpl; lia).
  change (length (x :: vals)) with (length l). destruct (length l) as [|n] eqn:Hn; [lia|].
  rewrite <- Hn.
  assert (length l / 2 < length l)%nat as Hmid by (apply Nat.div_lt; lia).
  destruct (lookup_lt_is_Some_2 l (length l / 2) Hmid) as [b Hb].
  destruct (Nat.eqb (length l mod 2) 1); [by exists b|].
  assert (length l / 2 - 1 < length l)%nat as Hlow by lia.
  destruct (lookup_lt_is_Some_2 l (length l / 2 - 1) Hlow) as [a Ha].
  rewrite Ha, Hb. by eexists.
Qed.

Lemma median_some vals : vals <> [] -> exists m, median vals = Some m.
Proof.
  intros Hne. apply median_sorted_some. intros Hs.
  apply (f_equal length) in Hs. rewrite Stats_facts.sorted_length in Hs.
  by destruct vals.
Qed.

(** With an even count the median is the mean of the two middle values of
    the sorted list. *)
Lemma median_even vals j :
  length vals = (2 * S j)%nat ->
  exists a b, sorted vals !! j = Some a /\ sorted vals !! S j = Some b /\
              median vals = Some ((a + b) / 2)%float.
Proof.
  intros Hlen. unfold median, median_sorted.
  pose proof (Stats_facts.sorted_length vals) as Hs. rewrite Hlen in Hs.
  destruct (lookup_lt_is_Some_2 (sorted vals) j ltac:(lia)) as [a Ha].
  destruct (lookup_lt_is_Some_2 (sorted vals) (S j) ltac:(lia)) as [b Hb].
  exists a, b. split; [done|]. split; [done|].
  rewrite Hs.
  replace (2 * S j)%nat with (S (S (2 * j))) by lia.
  replace (S (S (2 * j)) / 2)%nat with (S j).
  2:{ replace (S (S (2 * j))) with (S j * 2)%nat by lia. by rewrite Nat.div_mul. }
  replace (S (S (2 * j)) mod 2)%nat with 0%nat.
  2:{ replace (S (S (2 * j))) with (S j * 2)%nat by lia. by rewrite Nat.Div0.mod_mul. }
  simpl Nat.eqb. cbv iota. replace (S j - 1)%nat with j by lia.
  by rewrite Ha, Hb.
Qed.

Section Build.
Variable cfg : config.
Variable res : gmap string (list track).
Variable path_to_name : gmap string string.

Lemma put_median_here k vals feat m :
  vals <> [] -> median vals = Some m ->
  put_median k vals feat !! k = Some (Some (sround m)).
Proof.
  intros Hne Hm. unfold put_median. destruct vals; [done|].
  rewrite Hm. by rewrite lookup_insert_eq.
Qed.

Lemma put_median_keep k vals feat f v :
  feat !! f = Some v -> k <> f -> put_median k vals feat !! f = Some v.
Proof.
  intros Hf Hne. unfold put_median. destruct vals; [done|].
  destruct (median _); [|done]. by rewrite lookup_insert_ne.
Qed.

Lemma fold_put_median (vals : string -> list float) f m :
  vals f <> [] -> median (vals f) = Some m ->
  forall keys feat,
    f ∈ keys \/ feat !! f = Some (Some (sround m)) ->
    foldl (fun feat k => put_median k (vals k) feat) feat keys !! f
    = Some (Some (sround m)).
Proof.
  intros Hne Hm. induction keys as [|k keys IH]; intros feat H.
  - destruct H as [H|H]; [by apply elem_of_nil in H | done].
  - simpl. apply IH. destruct (decide (k = f)) as [->|Hk].
    + right. by apply put_median_here.
    + destruct H as [H|H].
      * apply elem_of_cons in H as [->|H]; [done | by left].
      * right. by apply put_median_keep.
Qed.

Lemma feature_field_not_tempo f :
  f ∈ FEATURE_FIELDS -> f <> "tempo_bpm" /\ f <> "tempo_norm".
Proof.
  intros H. unfold FEATURE_FIELDS in H.
  repeat (apply elem_of_cons in H as [->|H]; [split; discriminate|]).
  by apply elem_of_nil in H.
Qed.

Lemma compute_features_field seeds f m :
  f ∈ FEATURE_FIELDS -> field_values f seeds <> [] ->
  median (field_values f seeds) = Some m ->
  fst (compute_features_from_tracks cfg seeds) !! f = Some (Some (sround m)).
Proof.
  intros Hf Hne Hm. unfold compute_features_from_tracks. cbn [fst].
  pose proof (fold_put_median (fun k => field_values k seeds) f m Hne Hm
                FEATURE_FIELDS ∅ (or_introl Hf)) as Hfold.
  destruct (feature_field_not_tempo f Hf) as [H1 H2].
  destruct (omap tempo seeds) as [|b bs]; [done|].
  destruct (median (b :: bs)); [|done].
  by rewrite !lookup_insert_ne.
Qed.

Lemma setdefault_keep k feat f v :
  feat !! f = Some v -> setdefault_null k feat !! f = Some v.
Proof.
  intros Hf. unfold setdefault_null. destruct (feat !! k) eqn:Hk; [done|].
  rewrite lookup_insert_ne; [done|]. intros ->. congruence.
Qed.

Lemma fold_setdefault_keep f v : forall keys feat,
  feat !! f = Some v ->
  foldl (fun feat k => setdefault_null k feat) feat keys !! f = Some v.
Proof.
  induction keys as [|k keys IH]; intros feat Hf; [done|].
  simpl. by apply IH, setdefault_keep.
Qed.

Lemma not_empty_lookup (feat : gmap string (option float)) f v :
  feat !! f = Some v -> bool_decide (feat = ∅) = false.
Proof.
  intros Hf. apply bool_decide_eq_false. intros ->. by rewrite lookup_empty in Hf.
Qed.

(** A node with seeds that carry field [f]. *)
Lemma assemble_direct seeds built_sub f m :
  f ∈ FEATURE_FIELDS -> field_values f seeds <> [] ->
  median (field_values f seeds) = Some m ->
  m_features_of (assemble cfg seeds built_sub) !! f = Some (Some (sround m)).
Proof.
  intros Hf Hne Hm. unfold assemble, direct_features.
  destruct seeds as [|t seeds]; [done|]. cbn [is_nil].
  pose proof (compute_features_field (t :: seeds) f m Hf Hne Hm) as Hc.
  destruct (compute_features_from_tracks cfg (t :: seeds)) as [feat year].
  simpl in Hc. rewrite (not_empty_lookup feat f _ Hc). cbn [andb].
  rewrite (not_empty_lookup feat f _ Hc). cbn [m_features_of].
  by apply fold_setdefault_keep.
Qed.

(** The lists gathered from the children, key by key. *)
Lemma agg_lists_lookup k : forall children (acc : gmap string (list (option float))),
  foldl (fun acc kv =>
           union_with (fun a b => Some (a ++ b)) acc
                      ((fun v => [v]) <$> m_features_of (snd kv)))
        acc children !! k =
  match acc !! k with
  | Some a => Some (a ++ child_entries k children)
  | None => if is_nil (child_entries k children) then None
            else Some (child_entries k children)
  end.
Proof.
  induction children as [|kv children IH]; intros acc.
  - simpl. destruct (acc !! k); [by rewrite app_nil_r | done].
  - simpl. rewrite IH. rewrite lookup_union_with, lookup_fmap.
    unfold child_entries. simpl.
    destruct (acc !! k) as [a|], (m_features_of (snd kv) !! k) as [v|]; simpl.
    + by rewrite <- app_assoc.
    + done.
    + done.
    + done.
Qed.

Lemma aggregate_lookup children k m :
  child_values k children <> [] -> median (child_values k children) = Some m ->
  fst (aggregate_features_from_children children) !! k = Some (Some (sround m)).
Proof.
  intros Hne Hm. unfold aggregate_features_from_children. cbn [fst].
  rewrite lookup_omap, agg_lists_lookup, lookup_empty.
  unfold child_values in *.
  destruct (child_entries k children) as [|e es]; [done|]. cbn [is_nil]. simpl.
  simpl in Hne, Hm.
  destruct (omap (fun v => v) (e :: es)) as [|x xs] eqn:Ho; simpl in Ho; rewrite Ho in *;
    [done|].
  by rewrite Hm.
Qed.

(** A node without features of its own and with children that carry [k]. *)
Lemma assemble_aggregated seeds built_sub k m :
  fst (direct_features cfg seeds) = ∅ ->
  child_values k built_sub <> [] -> median (child_values k built_sub) = Some m ->
  m_features_of (assemble cfg seeds built_sub) !! k = Some (Some (sround m)).
Proof.
  intros Hd Hne Hm. unfold assemble.
  destruct (direct_features cfg seeds) as [feat year]. simpl in Hd. subst feat.
  rewrite bool_decide_eq_true_2 by done.
  destruct built_sub as [|c built_sub]; [done|]. cbn [is_nil negb andb].
  pose proof (aggregate_lookup (c :: built_sub) k m Hne Hm) as Ha.
  destruct (aggregate_features_from_children (c :: built_sub)) as [child_feat child_year].
  simpl in Ha. rewrite (not_empty_lookup child_feat k _ Ha).
  rewrite (not_empty_lookup child_feat k _ Ha). cbn [m_features_of].
  by apply fold_setdefault_keep.
Qed.

End Build.

End Manifest_facts.

Module Manifest_nodes.
Import Stats Manifest Manifest_facts.

Section Build.
Variable cfg : config.
Variable res : gmap string (list track).
Variable path_to_name : gmap string string.

Lemma assemble_subgenres seeds built_sub :
  m_subgenres_of (assemble cfg seeds built_sub) = built_sub.
Proof.
  unfold assemble. destruct (direct_features cfg seeds) as [feat year].
  destruct (bool_decide (feat = ∅) && negb (is_nil built_sub))%bool; [|done].
  by destruct (aggregate_features_from_children built_sub).
Qed.

Lemma build_manifest_unfold seeds_key subs genre_path :
  build_manifest cfg res path_to_name (Node seeds_key subs) genre_path =
  assemble cfg (node_seeds res path_to_name seeds_key genre_path)
    (map (fun kv => (fst kv,
                     build_manifest cfg res path_to_name (snd kv)
                                    (child_path genre_path (fst kv)))) subs).
Proof. reflexivity. Qed.

Lemma fold_put_median_absent (vals : string -> list float) f :
  vals f = [] -> forall keys feat,
  feat !! f = None ->
  foldl (fun feat k => put_median k (vals k) feat) feat keys !! f = None.
Proof.
  intros Hv. induction keys as [|k keys IH]; intros feat Hf; [done|].
  simpl. apply IH. unfold put_median.
  destruct (decide (k = f)) as [->|Hk]; [by rewrite Hv|].
  destruct (vals k); [done|]. destruct (median _); [|done].
  by rewrite lookup_insert_ne.
Qed.

Lemma compute_features_absent seeds f :
  f ∈ FEATURE_FIELDS -> field_values f seeds = [] ->
  fst (compute_features_from_tracks cfg seeds) !! f = None.
Proof.
  intros Hf Hv. unfold compute_features_from_tracks. cbn [fst].
  pose proof (fold_put_median_absent (fun k => field_values k seeds) f Hv
                FEATURE_FIELDS ∅ (lookup_empty f)) as Hfold.
  destruct (feature_field_not_tempo f Hf) as [H1 H2].
  destruct (omap tempo seeds) as [|b bs]; [done|].
  destruct (median (b :: bs)); [|done].
  by rewrite !lookup_insert_ne.
Qed.

Lemma fold_setdefault_adds f : forall keys feat,
  f ∈ keys -> feat !! f = None ->
  foldl (fun feat k => setdefault_null k feat) feat keys !! f = Some None.
Proof.
  induction keys as [|k keys IH]; intros feat Hin Hf; [by apply elem_of_nil in Hin|].
  simpl. destruct (decide (k = f)) as [->|Hk].
  - apply fold_setdefault_keep. unfold setdefault_null. rewrite Hf.
    by rewrite lookup_insert_eq.
  - apply elem_of_cons in Hin as [->|Hin]; [done|]. apply IH; [done|].
    unfold setdefault_null. destruct (feat !! k); [done|]. by rewrite lookup_insert_ne.
Qed.

(** A field that no seed carries is emitted as null next to the others. *)
Lemma assemble_null seeds built_sub f :
  f ∈ FEATURE_FIELDS -> field_values f seeds = [] ->
  fst (direct_features cfg seeds) <> ∅ ->
  m_features_of (assemble cfg seeds built_sub) !! f = Some None.
Proof.
  intros Hf Hv Hd. unfold assemble. unfold direct_features in *.
  destruct seeds as [|t seeds]; [done|]. cbn [is_nil] in *.
  pose proof (compute_features_absent (t :: seeds) f Hf Hv) as Hc.
  destruct (compute_features_from_tracks cfg (t :: seeds)) as [feat year].
  simpl in Hc, Hd. rewrite bool_decide_eq_false_2 by done. cbn [andb].
  rewrite bool_decide_eq_false_2 by done. cbn [m_features_of].
  apply fold_setdefault_adds; [|done].
  unfold all_feature_keys. apply elem_of_app. by left.
Qed.

End Build.

End Manifest_nodes.

Local Set Warnings "-inexact-float".

(** C3, as stated, against a leaf with two seeds of danceability 0.123 and
    0.6: their median is 0.3615, and [compute_features_from_tracks] and the
    built node hold 0.36. *)
Lemma manifest_feature_not_the_median :
  Stats.median (Manifest.field_values "danceability" rounding_seeds)
    = Some 0.3615%float /\
  fst (Manifest.compute_features_from_tracks CONFIG rounding_seeds) !! "danceability"
    = Some (Some 0.36%float) /\
  m_features_of rounding_leaf !! "danceability" = Some (Some 0.36%float) /\
  m_features_of rounding_leaf !! "danceability" <>
    Some (Stats.median (Manifest.field_values "danceability" rounding_seeds)).
Proof.
  assert (Stats.median (Manifest.field_values "danceability" rounding_seeds)
          = Some 0.3615%float) as H1 by (vm_compute; reflexivity).
  assert (m_features_of rounding_leaf !! "danceability" = Some (Some 0.36%float)) as H2
    by (vm_compute; reflexivity).
  split; [exact H1|]. split; [vm_compute; reflexivity|]. split; [exact H2|].
  rewrite H1, H2. intros H.
  apply (f_equal (fun o => match o with
                           | Some (Some x) => Prim2SF x
                           | _ => S754_nan
                           end)) in H.
  vm_compute in H. discriminate H.
Qed.

(** C3, amended.  In the manifest of [killmegod.py] a node emits, for every
    feature field that some seed of its list carries, the median of the
    non-null values of the field over the seeds, rounded to two decimals, and
    null for the fields no seed carries.  A node without features of its own
    and with built children emits, for every key some child carries with a
    non-null value, the median of these values over the children, rounded to
    two decimals; children without the key or with a null are left out.
    With an even count the median is the mean of the two middle values of the
    sorted list. *)
Theorem manifest_features_rounded_medians
    (cfg : config) (res : gmap string (list track)) (path_to_name : gmap string string) :
  (forall seeds_key subs genre_path f,
     let seeds := Manifest.node_seeds res path_to_name seeds_key genre_path in
     let built := Manifest.build_manifest cfg res path_to_name (Node seeds_key subs)
                                          genre_path in
     f ∈ FEATURE_FIELDS ->
     Manifest.field_values f seeds <> [] ->
     exists m, Stats.median (Manifest.field_values f seeds) = Some m /\
               m_features_of built !! f = Some (Some (Stats.sround m))) /\
  (forall seeds_key subs genre_path f,
     let seeds := Manifest.node_seeds res path_to_name seeds_key genre_path in
     let built := Manifest.build_manifest cfg res path_to_name (Node seeds_key subs)
                                          genre_path in
     f ∈ FEATURE_FIELDS ->
     Manifest.field_values f seeds = [] ->
     fst (Manifest.direct_features cfg seeds) <> ∅ ->
     m_features_of built !! f = Some None) /\
  (forall seeds_key subs genre_path k,
     let seeds := Manifest.node_seeds res path_to_name seeds_key genre_path in
     let built := Manifest.build_manifest cfg res path_to_name (Node seeds_key subs)
                                          genre_path in
     fst (Manifest.direct_features cfg seeds) = ∅ ->
     Manifest.child_values k (m_subgenres_of built) <> [] ->
     exists m, Stats.median (Manifest.child_values k (m_subgenres_of built)) = Some m /\
               m_features_of built !! k = Some (Some (Stats.sround m))) /\
  (forall vals j,
     length vals = (2 * S j)%nat ->
     exists a b, Stats.sorted vals !! j = Some a /\ Stats.sorted vals !! S j = Some b /\
                 Stats.sorted vals ≡ₚ vals /\ ascending (Stats.sorted vals) /\
                 Stats.median vals = Some ((a + b) / 2)%float).
Proof.
  split; [|split; [|split]].
  - intros seeds_key subs genre_path f seeds built Hf Hne.
    destruct (Manifest_facts.median_some _ Hne) as [m Hm]. exists m. split; [done|].
    unfold built. rewrite Manifest_nodes.build_manifest_unfold.
    by apply Manifest_facts.assemble_direct.
  - intros seeds_key subs genre_path f seeds built Hf Hv Hd.
    unfold built. rewrite Manifest_nodes.build_manifest_unfold.
    by apply Manifest_nodes.assemble_null.
  - intros seeds_key subs genre_path k seeds built Hd Hne.
    destruct (Manifest_facts.median_some _ Hne) as [m Hm]. exists m. split; [done|].
    unfold built in *. rewrite Manifest_nodes.build_manifest_unfold in *.
    rewrite Manifest_nodes.assemble_subgenres in Hne, Hm.
    by apply Manifest_facts.assemble_aggregated.
  - intros vals j Hlen.
    destruct (Manifest_facts.median_even vals j Hlen) as (a & b & Ha & Hb & Hm).
    exists a, b. split; [done|]. split; [done|].
    split; [apply Stats_facts.sorted_perm|].
    split; [apply Stats_facts.sorted_ascending | done].
Qed.

Lemma manifest_features_rounded_medians_witness :
  (exists m,
     Stats.median (Manifest.field_values "danceability" (demo_seeds (Some "rock") "rock"))
       = Some m /\
     m_features_of (demo_build demo_root "rock") !! "danceability"
       = Some (Some (Stats.sround m))) /\
  m_features_of (demo_build demo_root "rock") !! "energy" = Some None /\
  (exists m,
     Stats.median (Manifest.child_values "danceability"
                     (m_subgenres_of (demo_build demo_heavy "rock/Heavy"))) = Some m /\
     m_features_of (demo_build demo_heavy "rock/Heavy") !! "danceability"
       = Some (Some (Stats.sround m))) /\
  (exists a b,
     Stats.sorted [0.6; 0.123]%float !! 0%nat = Some a /\
     Stats.sorted [0.6; 0.123]%float !! 1%nat = Some b /\
     Stats.sorted [0.6; 0.123]%float ≡ₚ [0.6; 0.123]%float /\
     ascending (Stats.sorted [0.6; 0.123]%float) /\
     Stats.median [0.6; 0.123]%float = Some ((a + b) / 2)%float).
Proof.
  pose proof (manifest_features_rounded_medians CONFIG (Killmegod.results demo_killmegod)
                (Killmegod.synthetic_path_to_name demo_tables)) as (H1 & H2 & H3 & H4).
  split; [|split; [|split]].
  - apply (H1 (Some "rock") _ "rock" "danceability").
    + unfold FEATURE_FIELDS. in_list.
    + vm_compute. discriminate.
  - apply (H2 (Some "rock") _ "rock" "energy").
    + unfold FEATURE_FIELDS. in_list.
    + vm_compute. reflexivity.
    + vm_compute. discriminate.
  - apply (H3 (Some SYNTHETIC) _ "rock/Heavy" "danceability").
    + vm_compute. reflexivity.
    + vm_compute. discriminate.
  - apply (H4 [0.6; 0.123]%float 0%nat). reflexivity.
Defined.

(** [median_sorted] of [v2.py] returns the lower of the two middle values. *)
Example median_v2_lower_middle :
  Stats.median_v2 [10; 20; 30; 40]%float = Some 20%float /\
  Stats.median [10; 20; 30; 40]%float = Some 25%float.
Proof. vm_compute. split; reflexivity. Qed.

(** * Further properties of the embedded code *)

(** ** Clamping and the normalised tempo ([killmegod.py] 113-121, [v2.py] 48-58) *)

Module Float_order.

Lemma ltb_irrefl (a : float) : (a <? a)%float = false.
Proof.
  destruct (a <? a)%float eqn:H; [|done].
  pose proof (Stats_facts.ltb_asym a a H). congruence.
Qed.



End Float_order.

(** [clamp] answers [lo], [hi] or [x]; with bounds in order its answer is never
    below [lo] nor above [hi], it is [x] itself when [x] is within the bounds,
    and clamping twice is clamping once. *)
Theorem clamp_within_bounds (x lo hi : float) :
  (hi <? lo)%float = false ->
  (Stats.clamp x lo hi <? lo)%float = false /\
  (hi <? Stats.clamp x lo hi)%float = false /\
  ((x <? lo)%float = false -> (hi <? x)%float = false -> Stats.clamp x lo hi = x) /\
  Stats.clamp (Stats.clamp x lo hi) lo hi = Stats.clamp x lo hi.
Proof.
  intros Hb. unfold Stats.clamp.
  destruct (x <? lo)%float eqn:H1.
  - rewrite Float_order.ltb_irrefl, Hb. repeat split; try done.
  - destruct (hi <? x)%float eqn:H2.
    + rewrite Hb, Float_order.ltb_irrefl. repeat split; try done.
    + rewrite H1, H2. repeat split; try done.
Qed.

Lemma clamp_within_bounds_witness :
  (Stats.clamp 250 70 200 <? 70)%float = false /\
  (200 <? Stats.clamp 250 70 200)%float = false /\
  ((250 <? 70)%float = false -> (200 <? 250)%float = false ->
   Stats.clamp 250 70 200 = 250%float) /\
  Stats.clamp (Stats.clamp 250 70 200) 70 200 = Stats.clamp 250 70 200.
Proof. apply (clamp_within_bounds 250 70 200). reflexivity. Defined.



(** ** The two medians ([killmegod.py] 123-133, [v2.py] 60-70) *)

(** [median] raises on the empty list and on nothing else, in both scripts.
    The median of [v2.py] is always one of the values; the median of
    [killmegod.py] is one of the values when their count is odd. *)
Theorem median_raises_only_on_empty (vals : list float) :
  (Stats.median vals = None <-> vals = []) /\
  (Stats.median_v2 vals = None <-> vals = []) /\
  (forall m, Stats.median_v2 vals = Some m -> m ∈ vals) /\
  (forall m, (length vals mod 2 = 1)%nat -> Stats.median vals = Some m -> m ∈ vals).
Proof.
  pose proof (Stats_facts.sorted_length vals) as Hlen.
  pose proof (Stats_facts.sorted_perm vals) as Hperm.
  assert (forall m i, Stats.sorted vals !! i = Some m -> m ∈ vals) as Hin.
  { intros m i Hi. rewrite <- Hperm. by eapply list_elem_of_lookup_2. }
  split; [|split; [|split]].
  - split; [|by intros ->].
    intros Hn. destruct vals as [|x vals]; [done|].
    destruct (Manifest_facts.median_some (x :: vals)) as [m Hm]; [done | congruence].
  - split; [|by intros ->].
    unfold Stats.median_v2, Stats.median_sorted_v2. rewrite Hlen.
    destruct vals as [|x vals]; [done|]. intros Hn. exfalso.
    set (n := length (x :: vals)) in *. assert (0 < n)%nat by (subst n; simpl; lia).
    destruct n as [|n'] eqn:En; [lia|]. rewrite <- En in *.
    assert (n / 2 < n)%nat by (apply Nat.div_lt; lia).
    destruct (Nat.eqb (n mod 2) 1).
    + apply lookup_ge_None in Hn. lia.
    + apply lookup_ge_None in Hn. lia.
  - intros m. unfold Stats.median_v2, Stats.median_sorted_v2.
    destruct (length (Stats.sorted vals)); [done|].
    destruct (Nat.eqb _ 1); apply Hin.
  - intros m Hodd. unfold Stats.median, Stats.median_sorted. rewrite Hlen.
    destruct (length vals) as [|n] eqn:En; [done|]. cbv zeta. rewrite Hodd.
    cbn [Nat.eqb]. apply Hin.
Qed.

Lemma median_raises_only_on_empty_witness :
  Stats.median_v2 [10; 20; 30; 40]%float = Some 20%float /\
  (20%float ∈ [10; 20; 30; 40]%float) /\
  (2%float ∈ [3; 1; 2]%float).
Proof.
  pose proof (median_raises_only_on_empty [10; 20; 30; 40]%float) as (_ & _ & H3 & _).
  pose proof (median_raises_only_on_empty [3; 1; 2]%float) as (_ & _ & _ & H4).
  split; [reflexivity|]. split.
  - apply H3. reflexivity.
  - apply H4; reflexivity.
Defined.

(** ** The genre index ([killmegod.py] 1536-1547, [v2.py] 1158-1168) *)

Module Index_buckets.

Lemma bucket_of_append k t key : forall idx,
  V2.bucket_of (bucket_append k t idx) key =
  V2.bucket_of idx key ++ (if decide (k = key) then [t] else []).
Proof.
  unfold V2.bucket_of. induction idx as [|[k0 l] idx IH]; simpl.
  - destruct (String.eqb_spec k key), (decide (k = key)); done.
  - destruct (String.eqb_spec k0 k) as [->|Hk]; simpl.
    + destruct (String.eqb_spec k key), (decide (k = key)); try done.
      by rewrite app_nil_r.
    + destruct (String.eqb_spec k0 key) as [->|Hkey]; simpl; [|exact IH].
      rewrite decide_False by congruence. by rewrite app_nil_r.
Qed.

Lemma bucket_append_keys k t x : forall idx,
  x ∈ map fst (bucket_append k t idx) <-> x = k \/ x ∈ map fst idx.
Proof.
  induction idx as [|[k0 l] idx IH]; simpl.
  - rewrite list_elem_of_singleton. split; [by left | intros [?|H]; [done|]].
    by apply elem_of_nil in H.
  - destruct (String.eqb_spec k0 k) as [->|Hk]; simpl.
    + rewrite !elem_of_cons. tauto.
    + rewrite !elem_of_cons, IH. tauto.
Qed.

Lemma bucket_append_nodup k t : forall idx,
  NoDup (map fst idx) -> NoDup (map fst (bucket_append k t idx)).
Proof.
  induction idx as [|[k0 l] idx IH]; simpl; intros Hn.
  - apply NoDup_singleton.
  - apply NoDup_cons in Hn as [Hx Hn].
    destruct (String.eqb_spec k0 k) as [->|Hk]; simpl.
    + by apply NoDup_cons.
    + apply NoDup_cons. split; [|by apply IH].
      rewrite bucket_append_keys. intros [?|?]; [congruence | done].
Qed.

Lemma bucket_append_nonempty k t : forall idx,
  (forall kv, kv ∈ idx -> snd kv <> []) ->
  forall kv, kv ∈ bucket_append k t idx -> snd kv <> [].
Proof.
  induction idx as [|[k0 l] idx IH]; simpl; intros Hne kv Hkv.
  - apply list_elem_of_singleton in Hkv as ->. done.
  - destruct (String.eqb_spec k0 k) as [->|Hk].
    + apply elem_of_cons in Hkv as [->|Hkv]; [by destruct l|].
      apply Hne. by right.
    + apply elem_of_cons in Hkv as [->|Hkv]; [apply (Hne (k0, l)); by left|].
      apply IH; [|done]. intros kv' Hkv'. apply Hne. by right.
Qed.

(** With distinct keys, looking a key up gives the bucket stored with it. *)
Lemma bucket_of_elem_nodup : forall idx kv,
  NoDup (map fst idx) -> kv ∈ idx -> V2.bucket_of idx (fst kv) = snd kv.
Proof.
  unfold V2.bucket_of. induction idx as [|[k0 l] idx IH]; intros kv Hn Hkv.
  - by apply elem_of_nil in Hkv.
  - simpl in Hn. apply NoDup_cons in Hn as [Hx Hn]. simpl.
    apply elem_of_cons in Hkv as [->|Hkv].
    + simpl. by rewrite String.eqb_refl.
    + destruct (String.eqb_spec k0 (fst kv)) as [->|Hk]; [|by apply IH].
      exfalso. apply Hx. by apply list_elem_of_fmap_2.
Qed.

Lemma tags_fold key t : forall tags idx,
  index_well_formed idx ->
  let idx' := foldl (fun idx tg => bucket_append tg t idx) idx tags in
  index_well_formed idx' /\
  V2.bucket_of idx' key =
  V2.bucket_of idx key ++ map (fun _ => t) (filter (fun tg => tg = key) tags).
Proof.
  induction tags as [|tg tags IH]; intros idx [Hn Hne]; simpl.
  - split; [done | by rewrite app_nil_r].
  - destruct (IH (bucket_append tg t idx)) as [Hwf Hb].
    { split; [by apply bucket_append_nodup | by apply bucket_append_nonempty]. }
    split; [done|]. rewrite Hb, bucket_of_append, filter_cons.
    destruct (decide (tg = key)); simpl; [by rewrite <- app_assoc|].
    by rewrite app_nil_r.
Qed.

Lemma index_fold deny key : forall tracks idx,
  index_well_formed idx ->
  let step := fun idx t =>
    if in_set (tid_uri_first t) deny then idx
    else foldl (fun idx tg => bucket_append tg t idx) idx (norm_tags (raw_tags t)) in
  index_well_formed (foldl step idx tracks) /\
  V2.bucket_of (foldl step idx tracks) key =
  V2.bucket_of idx key ++ flat_map (indexed_copies deny key) tracks.
Proof.
  induction tracks as [|t tracks IH]; intros idx Hwf; simpl.
  - split; [done | by rewrite app_nil_r].
  - unfold indexed_copies at 1.
    destruct (in_set (tid_uri_first t) deny); simpl.
    + by apply IH.
    + destruct (tags_fold key t (norm_tags (raw_tags t)) idx Hwf) as [Hwf' Hb].
      destruct (IH _ Hwf') as [Hwf'' Hb']. split; [done|].
      rewrite Hb', Hb. by rewrite <- app_assoc.
Qed.

Lemma bucket_eq deny tracks key :
  V2.bucket_of (index_tracks deny tracks) key = flat_map (indexed_copies deny key) tracks.
Proof.
  unfold index_tracks. destruct (index_fold deny key tracks []) as [_ Hb].
  - split; [constructor | intros kv H; by apply elem_of_nil in H].
  - exact Hb.
Qed.

Lemma bucket_mem deny tracks key t :
  t ∈ V2.bucket_of (index_tracks deny tracks) key <->
  t ∈ tracks /\ in_set (tid_uri_first t) deny = false /\ key ∈ norm_tags (raw_tags t).
Proof.
  rewrite bucket_eq. split.
  - intros H. apply list_elem_of_In, in_flat_map in H as (t' & Ht' & Hin).
    apply list_elem_of_In in Ht', Hin. unfold indexed_copies in Hin.
    destruct (in_set (tid_uri_first t') deny) eqn:Hd; [by apply elem_of_nil in Hin|].
    apply list_elem_of_fmap in Hin as (tg & -> & Htg).
    apply list_elem_of_filter in Htg as [-> Htg]. done.
  - intros (Ht & Hd & Hk). apply list_elem_of_In, in_flat_map.
    exists t. split; [by apply list_elem_of_In|]. apply list_elem_of_In.
    unfold indexed_copies. rewrite Hd.
    apply (list_elem_of_fmap_2' _ _ key); [|done]. by apply list_elem_of_filter.
Qed.

End Index_buckets.

(** The bucket of a key holds, in dataset order, one copy of each track that
    is not on the deny list for every normalised tag of the track equal to
    the key: a tag listed twice indexes the track twice, a denied or untagged
    track is in no bucket. *)
Theorem index_tracks_bucket (TRACK_DENY_URIS : gset string) (tracks : list track)
    (key : string) :
  V2.bucket_of (index_tracks TRACK_DENY_URIS tracks) key =
    flat_map (indexed_copies TRACK_DENY_URIS key) tracks /\
  (forall t, t ∈ V2.bucket_of (index_tracks TRACK_DENY_URIS tracks) key <->
     t ∈ tracks /\ in_set (tid_uri_first t) TRACK_DENY_URIS = false /\
     key ∈ norm_tags (raw_tags t)).
Proof.
  split; [apply Index_buckets.bucket_eq | intros t; apply Index_buckets.bucket_mem].
Qed.

(** The index has one entry per key and no empty bucket, so the keys of the
    index are exactly the normalised tags of the tracks that are not denied,
    and the entry of a key is what a lookup of the key returns. *)
Theorem index_tracks_keys (TRACK_DENY_URIS : gset string) (tracks : list track) :
  let idx := index_tracks TRACK_DENY_URIS tracks in
  NoDup (map fst idx) /\
  (forall kv, kv ∈ idx -> snd kv <> [] /\ V2.bucket_of idx (fst kv) = snd kv) /\
  (forall key, key ∈ map fst idx <->
     exists t, t ∈ tracks /\ in_set (tid_uri_first t) TRACK_DENY_URIS = false /\
               key ∈ norm_tags (raw_tags t)).
Proof.
  intros idx.
  destruct (Index_buckets.index_fold TRACK_DENY_URIS "" tracks []) as [[Hn Hne] _].
  { split; [constructor | intros kv H; by apply elem_of_nil in H]. }
  fold (index_tracks TRACK_DENY_URIS tracks) in Hn, Hne. fold idx in Hn, Hne.
  split; [exact Hn|]. split.
  - intros kv Hkv. split; [by apply Hne | by apply Index_buckets.bucket_of_elem_nodup].
  - intros key. split.
    + intros H. apply list_elem_of_fmap in H as (kv & -> & Hkv).
      pose proof (Index_buckets.bucket_of_elem_nodup idx kv Hn Hkv) as Hb.
      pose proof (Hne kv Hkv) as Hnil.
      destruct (snd kv) as [|t l] eqn:Hs; [done|].
      exists t. apply (Index_buckets.bucket_mem TRACK_DENY_URIS tracks (fst kv)).
      fold idx. rewrite Hb. by left.
    + intros (t & Ht & Hd & Hk).
      assert (t ∈ V2.bucket_of idx key) as Hin
        by (apply (Index_buckets.bucket_mem TRACK_DENY_URIS tracks key); done).
      unfold V2.bucket_of in Hin.
      destruct (find (fun kv => String.eqb (fst kv) key) idx) as [kv|] eqn:Hf;
        [|by apply elem_of_nil in Hin].
      apply find_some in Hf as [Hkv Heq]. apply String.eqb_eq in Heq. subst key.
      apply list_elem_of_fmap_2. by apply list_elem_of_In.
Qed.

(** ** The playable genres ([killmegod.py] 1422-1444, [v2.py] 1085-1103) *)

Module Playable.

Lemma node_nested_ind (P : node -> Prop) :
  (forall seed subs, Forall (fun kv => P (snd kv)) subs -> P (Node seed subs)) ->
  forall n, P n.
Proof.
  intros H. fix IH 1. intros [seed subs]. apply H.
  induction subs as [|[k c] subs IHs]; constructor; [apply IH | exact IHs].
Qed.





End Playable.


(** ** What a seed list is ([killmegod.py] 1563-1623) *)

Module Ranking.
Import Sel_facts Killmegod Killmegod_facts.

Lemma insert_desc_descending {A} (x : float * A) l :
  descending (map fst l) -> descending (map fst (insert_desc x l)).
Proof.
  induction l as [|y l IH]; intros Hl; [done|].
  cbn [insert_desc]. destruct (fst x <? fst y)%float eqn:Hxy.
  - assert (descending (map fst l)) as Hl' by (destruct l; [done | by destruct Hl]).
    specialize (IH Hl'). destruct l as [|z l]; cbn [insert_desc map] in *.
    + split; [by apply Stats_facts.ltb_asym | done].
    + destruct (fst x <? fst z)%float.
      * split; [by destruct Hl | done].
      * split; [by apply Stats_facts.ltb_asym | done].
  - split; [done|done].
Qed.

Lemma sort_desc_descending {A} (l : list (float * A)) :
  descending (map fst (sort_desc l)).
Proof.
  induction l as [|x l IH]; [done|]. by apply insert_desc_descending.
Qed.

Lemma filter_ext_elem {A} (P Q : A -> Prop) `{!forall x, Decision (P x)}
    `{!forall x, Decision (Q x)} (l : list A) :
  (forall x, x ∈ l -> P x <-> Q x) -> filter P l = filter Q l.
Proof.
  induction l as [|x l IH]; intros Hpq; [done|].
  rewrite !filter_cons.
  assert (P x <-> Q x) as Hx by (apply Hpq; by left).
  assert (filter P l = filter Q l) as Hl.
  { apply IH. intros y Hy. apply Hpq. by right. }
  destruct (decide (P x)), (decide (Q x)); try tauto; by rewrite Hl.
Qed.

Section Facts.
Context {rng : Type} (rng_seed : Z -> rng) (rng_random : rng -> float * rng).
Variable cfg : config.
Variable tb : tables.

(** The final pick takes, in order, the first tracks the sets it starts with
    do not exclude. *)
Lemma pick_top_k_take : forall unique top ids arts,
  NoDup (map tid_uri_first unique) -> NoDup (map artist_key unique) ->
  (forall t, t ∈ unique -> falsy (tid_uri_first t) = false) ->
  (length top <= seeds_per_genre cfg)%nat ->
  fst (fst (pick_top_k cfg unique top ids arts)) =
  top ++ take (seeds_per_genre cfg - length top)
              (filter (fun t => eligible ids arts t = true) unique).
Proof.
  induction unique as [|t rest IH]; intros top ids arts Hn1 Hn2 Ht Hlen.
  - cbn [pick_top_k fst]. by rewrite filter_nil, take_nil, app_nil_r.
  - rewrite Killmegod_count.pick_top_k_cons.
    apply NoDup_cons in Hn1 as [Hx1 Hn1]. apply NoDup_cons in Hn2 as [Hx2 Hn2].
    assert (forall x, x ∈ rest -> falsy (tid_uri_first x) = false) as Ht'
      by (intros x Hx; apply Ht; by right).
    destruct (seeds_per_genre cfg <=? length top)%nat eqn:Hk.
    { apply Nat.leb_le in Hk. cbn [fst].
      replace (seeds_per_genre cfg - length top)%nat with 0%nat by lia.
      by rewrite take_0, app_nil_r. }
    apply Nat.leb_gt in Hk.
    rewrite filter_cons, Killmegod_count.eligible_alt.
    destruct (in_set (tid_uri_first t) ids || bool_decide (artist_key t ∈ arts))%bool
      eqn:He.
    + rewrite decide_False by (simpl; done). by apply IH.
    + rewrite decide_True by (simpl; done).
      rewrite IH; try done; [|rewrite length_app; simpl; lia].
      rewrite length_app. cbn [length].
      rewrite (filter_ext_elem
                 (fun x => eligible (add_opt (tid_uri_first t) ids)
                             ({[ artist_key t ]} ∪ arts) x = true)
                 (fun x => eligible ids arts x = true)).
      * rewrite <- app_assoc. cbn [app]. f_equal.
        replace (seeds_per_genre cfg - length top)%nat
          with (S (seeds_per_genre cfg - (length top + 1)))%nat by lia.
        done.
      * intros x Hx. unfold eligible.
        assert (tid_uri_first x <> tid_uri_first t) as Hne1.
        { intros Heq. apply Hx1. rewrite <- Heq. by apply list_elem_of_fmap_2. }
        assert (artist_key x <> artist_key t) as Hne2.
        { intros Heq. apply Hx2. rewrite <- Heq. by apply list_elem_of_fmap_2. }
        rewrite in_set_add_ne by done.
        assert (bool_decide (artist_key x ∈ {[ artist_key t ]} ∪ arts) =
                bool_decide (artist_key x ∈ arts)) as ->; [|done].
        apply bool_decide_ext. set_solver.
Qed.

Lemma ranked_perm env idx (st : @state rng) genre :
  map snd (killmegod_ranked rng_random cfg tb env idx st genre)
  ≡ₚ dedupe ∅ ∅ (candidates_of tb idx genre).
Proof.
  unfold killmegod_ranked.
  pose proof (score_all_tracks rng_random cfg tb env genre
                (dedupe ∅ ∅ (candidates_of tb idx genre)) (generator st)) as Hsc.
  rewrite <- Hsc at 2. by rewrite (sort_desc_perm _).
Qed.

(** What one iteration stores for its genre. *)
Lemma select_genre_list env idx (st : @state rng) genre :
  results (select_genre rng_random cfg tb env idx st genre) !! genre =
  Some (take (seeds_per_genre cfg)
             (filter (fun t => eligible (global_seen_ids st) (global_seen_artists st) t
                               = true)
                     (map snd (killmegod_ranked rng_random cfg tb env idx st genre)))).
Proof.
  pose proof (ranked_perm env idx st genre) as Hperm.
  unfold select_genre, killmegod_ranked in *.
  destruct (candidates_of tb idx genre) as [|c cands] eqn:Hc.
  { cbn [is_nil results dedupe score_all fst sort_desc foldr map].
    by rewrite lookup_insert_eq, filter_nil, take_nil. }
  cbn [is_nil]. destruct (dedupe ∅ ∅ (c :: cands)) as [|u unique] eqn:Hd.
  { cbn [is_nil results score_all fst sort_desc foldr map].
    by rewrite lookup_insert_eq, filter_nil, take_nil. }
  cbn [is_nil].
  destruct (score_all rng_random cfg tb env genre (u :: unique) (generator st))
    as [scored g'].
  cbn [fst] in *.
  pose proof (pick_top_k_take (map snd (sort_desc scored)) []
                (global_seen_ids st) (global_seen_artists st)) as Htake.
  destruct (pick_top_k cfg (map snd (sort_desc scored)) [] (global_seen_ids st)
              (global_seen_artists st)) as [[top_k ids] arts].
  cbn [fst results] in *. rewrite lookup_insert_eq. f_equal.
  destruct (Killmegod_count.dedupe_nodup (c :: cands) ∅ ∅) as (Hn1 & Hn2 & _).
  rewrite Hd in Hn1, Hn2.
  rewrite Htake.
  - cbn [app length]. by rewrite Nat.sub_0_r.
  - by rewrite Hperm.
  - by rewrite Hperm.
  - intros t Ht. rewrite Hperm, <- Hd in Ht. by apply dedupe_truthy in Ht as [? _].
  - simpl. lia.
Qed.

(** The list of a playable genre at the end of the run is the list its
    iteration stored. *)
Lemma playable_list env tracks pre genre post :
  gather_playable_genres (GENRE_TREE tb) = pre ++ genre :: post ->
  genre ∉ synthetic_names tb ->
  results (select_all rng_seed rng_random cfg tb env tracks) !! genre =
  results (select_genre rng_random cfg tb env (killmegod_index tb tracks)
             (killmegod_before rng_seed rng_random cfg tb env tracks pre) genre)
    !! genre.
Proof.
  intros Hsplit Hsyn. unfold select_all. rewrite Hsplit, foldl_app. cbn [foldl].
  fold (killmegod_index tb tracks).
  fold (killmegod_before rng_seed rng_random cfg tb env tracks pre).
  rewrite (Killmegod_count.foldl_lookup_keep results (fun syn => snd (fst syn))); [|
    intros; by apply Killmegod_count.select_synthetic_other | exact Hsyn].
  rewrite (Killmegod_count.foldl_lookup_keep results (fun g => g)); [done| |].
  - intros st' x Hx.
    destruct (Killmegod_count.select_genre_stored rng_random cfg tb env
                (killmegod_index tb tracks) st' x) as (_ & _ & _ & Hk).
    by apply Hk.
  - rewrite map_id. intros Hin.
    destruct (Killmegod_count.unique_in_order_nodup
                (flat_map (fun kv => walk_playable (snd kv)) (GENRE_TREE tb)) ∅) as [Hn _].
    fold (gather_playable_genres (GENRE_TREE tb)) in Hn. rewrite Hsplit in Hn.
    apply NoDup_app in Hn as (_ & _ & Hn). apply NoDup_cons in Hn as [Hn _]. done.
Qed.

End Facts.

End Ranking.

(** The seed list of a playable genre of [killmegod.py] is the first
    [seeds_per_genre] tracks, in descending order of score, among the unique
    candidates of the genre whose identifier and artist the genres processed
    before have not used; the ranked list is a rearrangement of the unique
    candidates in which no score is greater than the one before it. *)
Theorem killmegod_seed_list_is_top_of_ranking {rng : Type}
    (rng_seed : Z -> rng) (rng_random : rng -> float * rng)
    (cfg : config) (tb : tables) (env : environment rng) (tracks : list track)
    (pre : list string) (genre : string) (post : list string) :
  Killmegod.gather_playable_genres (GENRE_TREE tb) = pre ++ genre :: post ->
  genre ∉ synthetic_names tb ->
  let st := killmegod_before rng_seed rng_random cfg tb env tracks pre in
  let ranked := killmegod_ranked rng_random cfg tb env (killmegod_index tb tracks) st
                                 genre in
  Killmegod.results (Killmegod.select_all rng_seed rng_random cfg tb env tracks) !! genre =
    Some (take (seeds_per_genre cfg)
               (filter (fun t => Killmegod.eligible (Killmegod.global_seen_ids st)
                                   (Killmegod.global_seen_artists st) t = true)
                       (map snd ranked))) /\
  descending (map fst ranked) /\
  map snd ranked ≡ₚ
    Killmegod.dedupe ∅ ∅ (Killmegod.candidates_of tb (killmegod_index tb tracks) genre).
Proof.
  intros Hsplit Hsyn st ranked. split; [|split].
  - rewrite (Ranking.playable_list rng_seed rng_random cfg tb env tracks pre genre post)
      by done.
    apply Ranking.select_genre_list.
  - apply Ranking.sort_desc_descending.
  - apply Ranking.ranked_perm.
Qed.

Lemma killmegod_seed_list_is_top_of_ranking_witness :
  let st := killmegod_before toy_seed toy_random CONFIG demo_tables env_forward
                             demo_tracks ["rock"; "punk"] in
  let ranked := killmegod_ranked toy_random CONFIG demo_tables env_forward
                                 (killmegod_index demo_tables demo_tracks) st "metal" in
  Killmegod.results
    (Killmegod.select_all toy_seed toy_random CONFIG demo_tables env_forward demo_tracks)
    !! "metal" =
    Some (take (seeds_per_genre CONFIG)
               (filter (fun t => Killmegod.eligible (Killmegod.global_seen_ids st)
                                   (Killmegod.global_seen_artists st) t = true)
                       (map snd ranked))) /\
  descending (map fst ranked) /\
  map snd ranked ≡ₚ
    Killmegod.dedupe ∅ ∅
      (Killmegod.candidates_of demo_tables (killmegod_index demo_tables demo_tracks)
                               "metal").
Proof.
  assert (Killmegod.gather_playable_genres (GENRE_TREE demo_tables) =
          ["rock"; "punk"] ++ "metal" :: ["hard rock"]) as H1 by (vm_compute; reflexivity).
  assert ("metal" ∉ synthetic_names demo_tables) as H2.
  { unfold synthetic_names. vm_compute. intros H. not_in_list H. }
  exact (killmegod_seed_list_is_top_of_ranking toy_seed toy_random CONFIG demo_tables
           env_forward demo_tracks ["rock"; "punk"] "metal" ["hard rock"] H1 H2).
Defined.

(** ** No duplicates within a seed list ([killmegod.py] 1586-1623, 1778-1825) *)

Module Distinct.
Import Sel_facts Killmegod Killmegod_facts.

Section Facts.
Context {rng : Type} (rng_seed : Z -> rng) (rng_random : rng -> float * rng).
Variable cfg : config.
Variable tb : tables.

Lemma picked_step ids arts sel t :
  picked ids arts sel -> eligible ids arts t = true ->
  falsy (tid_uri_first t) = false ->
  picked (add_opt (tid_uri_first t) ids) ({[ artist_key t ]} ∪ arts) (sel ++ [t]).
Proof.
  intros (Hn1 & Hn2 & Hm) He Hf.
  apply eligible_fresh in He as [He1 He2].
  split; [|split].
  - rewrite map_app. apply NoDup_app. split; [done|]. split; [|apply NoDup_singleton].
    intros x Hx Hx'. apply list_elem_of_singleton in Hx'. subst x.
    apply list_elem_of_fmap in Hx as (t' & Heq & Ht').
    destruct (Hm t' Ht') as [Hc _]. rewrite <- Heq in Hc. congruence.
  - rewrite map_app. apply NoDup_app. split; [done|]. split; [|apply NoDup_singleton].
    intros x Hx Hx'. apply list_elem_of_singleton in Hx'. subst x.
    apply list_elem_of_fmap in Hx as (t' & Heq & Ht').
    destruct (Hm t' Ht') as [_ Hc]. rewrite <- Heq in Hc. done.
  - intros x Hx. apply elem_of_app in Hx as [Hx|Hx].
    + destruct (Hm x Hx) as [H1 H2]. split.
      * eapply in_set_mono; [apply add_opt_subseteq | done].
      * by apply elem_add_there.
    + apply list_elem_of_singleton in Hx as ->. split.
      * by apply in_set_add.
      * apply elem_add_here.
Qed.

Lemma first_pass_picked : forall children p,
  (forall c, c ∈ remaining p -> falsy (tid_uri_first (c_track c)) = false) ->
  picked (p_ids p) (p_artists p) (selected p) ->
  let p' := first_pass children p in
  picked (p_ids p') (p_artists p') (selected p') /\
  (forall c, c ∈ remaining p' -> falsy (tid_uri_first (c_track c)) = false).
Proof.
  induction children as [|child rest IH]; intros p Hf Hp; [done|].
  rewrite first_pass_cons.
  destruct (5 <=? length (selected p))%nat; [done|].
  destruct (take_for_child child (p_ids p) (p_artists p) (remaining p))
    as [[c remaining']|] eqn:Ht; [|by apply IH].
  apply take_for_child_spec in Ht as (Hc & He & Hsub).
  apply IH; simpl.
  - intros c' Hc'. apply Hf. by apply Hsub.
  - apply picked_step; [done | done | by apply Hf].
Qed.

Lemma second_pass_picked : forall l sel ids arts,
  (forall c, c ∈ l -> falsy (tid_uri_first (c_track c)) = false) ->
  picked ids arts sel ->
  NoDup (map tid_uri_first (fst (fst (second_pass l sel ids arts)))) /\
  NoDup (map artist_key (fst (fst (second_pass l sel ids arts)))).
Proof.
  induction l as [|c rest IH]; intros sel ids arts Hf Hp.
  - destruct Hp as (? & ? & _). done.
  - rewrite second_pass_cons.
    assert (forall c', c' ∈ rest -> falsy (tid_uri_first (c_track c')) = false) as Hf'
      by (intros c' Hc'; apply Hf; by right).
    destruct (5 <=? length sel)%nat; [destruct Hp as (? & ? & _); done|].
    destruct (eligible ids arts (c_track c)) eqn:He; [|by apply IH].
    apply IH; [done|]. apply picked_step; [done | done |]. apply Hf. by left.
Qed.

Lemma distinct_insert res g l :
  lists_distinct res -> NoDup (map tid_uri_first l) -> NoDup (map artist_key l) ->
  lists_distinct (<[g := l]> res).
Proof.
  intros Hd H1 H2 g' l' H. destruct (decide (g = g')) as [->|Hne].
  - rewrite lookup_insert_eq in H. injection H as <-. done.
  - rewrite lookup_insert_ne in H by done. by eapply Hd.
Qed.

Lemma select_genre_distinct env idx (st : @state rng) genre :
  lists_distinct (results st) ->
  lists_distinct (results (select_genre rng_random cfg tb env idx st genre)).
Proof.
  intros Hd g l H. destruct (decide (g = genre)) as [->|Hne].
  - rewrite Ranking.select_genre_list in H. injection H as <-.
    pose proof (Ranking.ranked_perm rng_random cfg tb env idx st genre) as Hperm.
    destruct (Killmegod_count.dedupe_nodup (candidates_of tb idx genre) ∅ ∅)
      as (Hn1 & Hn2 & _).
    rewrite <- Hperm in Hn1, Hn2.
    set (pool := filter _ _).
    assert (take (seeds_per_genre cfg) pool `sublist_of`
            map snd (killmegod_ranked rng_random cfg tb env idx st genre)) as Hsub.
    { etrans; [apply sublist_take | apply sublist_filter]. }
    split.
    + eapply sublist_NoDup; [exact Hn1|]. by apply fmap_sublist.
    + eapply sublist_NoDup; [exact Hn2|]. by apply fmap_sublist.
  - destruct (Killmegod_count.select_genre_stored rng_random cfg tb env idx st genre)
      as (_ & _ & _ & Hk).
    rewrite Hk in H by done. by eapply Hd.
Qed.

Lemma select_synthetic_distinct idx (st : @state rng) syn :
  lists_distinct (results st) ->
  lists_distinct (results (select_synthetic cfg tb idx st syn)).
Proof.
  intros Hd. unfold select_synthetic. destruct syn as [[full_path name] children].
  destruct (compute_aggregate_features cfg (results st) children) as [agg|];
    [|apply distinct_insert; [done | constructor | constructor]].
  destruct (bool_decide (agg = ∅));
    [apply distinct_insert; [done | constructor | constructor]|].
  set (sorted := map snd (sort_asc (map (fun c => (c_distance c, c))
        (dedupe_candidates ∅ (synthetic_candidates cfg tb idx (global_seen_ids st)
                                 agg children))))).
  assert (forall c, c ∈ sorted -> falsy (tid_uri_first (c_track c)) = false) as Htr.
  { intros c Hx. unfold sorted in Hx. rewrite sorted_candidates_perm in Hx.
    apply dedupe_candidates_sub in Hx. by apply synthetic_candidates_spec in Hx as [? _]. }
  destruct (first_pass_picked children
              (Picking [] (global_seen_ids st) (global_seen_artists st) sorted))
    as [Hp Hf]; simpl; [done | |].
  { split; [constructor|]. split; [constructor|].
    intros t Ht. by apply elem_of_nil in Ht. }
  set (p := first_pass children _) in *.
  destruct (second_pass_picked (remaining p) (selected p) (p_ids p) (p_artists p) Hf Hp)
    as [H1 H2].
  destruct (second_pass (remaining p) (selected p) (p_ids p) (p_artists p))
    as [[sel ids] arts].
  simpl in *. by apply distinct_insert.
Qed.

Lemma select_all_distinct env tracks :
  lists_distinct (results (select_all rng_seed rng_random cfg tb env tracks)).
Proof.
  unfold select_all.
  apply foldl_inv; [|intros; by apply select_synthetic_distinct].
  apply foldl_inv; [|intros; by apply select_genre_distinct].
  intros g l H. simpl in H. by rewrite lookup_empty in H.
Qed.

End Facts.

End Distinct.

(** No list of the final results of [killmegod.py], synthetic lists included,
    holds an identifier twice or an artist (after strip and lower) twice. *)
Theorem killmegod_seed_lists_without_duplicates {rng : Type}
    (rng_seed : Z -> rng) (rng_random : rng -> float * rng)
    (cfg : config) (tb : tables) (env : environment rng) (tracks : list track)
    (g : string) (l : list track) :
  Killmegod.results (Killmegod.select_all rng_seed rng_random cfg tb env tracks) !! g
    = Some l ->
  NoDup (map tid_uri_first l) /\ NoDup (map Killmegod.artist_key l) /\ NoDup l.
Proof.
  intros H.
  destruct (Distinct.select_all_distinct rng_seed rng_random cfg tb env tracks g l H)
    as [H1 H2].
  split; [done|]. split; [done|]. by apply (NoDup_fmap_1 tid_uri_first).
Qed.

Lemma killmegod_seed_lists_without_duplicates_witness :
  NoDup (map tid_uri_first demo_killmegod_metal) /\
  NoDup (map Killmegod.artist_key demo_killmegod_metal) /\
  NoDup demo_killmegod_metal.
Proof.
  apply (killmegod_seed_lists_without_duplicates toy_seed toy_random CONFIG demo_tables
           env_forward demo_tracks "metal").
  vm_compute. reflexivity.
Defined.

Lemma index_tracks_keys_aux deny tracks kv t :
  kv ∈ index_tracks deny tracks -> t ∈ snd kv ->
  t ∈ tracks /\ in_set (tid_uri_first t) deny = false /\
  fst kv ∈ norm_tags (raw_tags t).
Proof.
  intros Hkv Ht. apply Index_buckets.bucket_mem.
  destruct (Index_buckets.index_fold deny "" tracks []) as [[Hn _] _].
  { split; [constructor | intros kv' H; by apply elem_of_nil in H]. }
  fold (index_tracks deny tracks) in Hn.
  by rewrite (Index_buckets.bucket_of_elem_nodup _ kv Hn Hkv).
Qed.

(** ** What every seed of a playable genre satisfies ([killmegod.py] 1563-1623) *)

Module Admissible.
Import Killmegod Killmegod_facts.

Section Facts.
Context {rng : Type}.
Variable tb : tables.

Lemma candidates_of_spec idx genre t :
  t ∈ candidates_of tb idx genre ->
  exists kv, kv ∈ idx /\ word_search (Py.lower genre) (fst kv) = true /\ t ∈ snd kv /\
    falsy (tid_uri_first t) = false /\
    genre_match (EXCLUSIONS tb) genre (norm_tags (raw_tags t)) = true /\
    Killmegod_rules.passes_rules (GENRE_RULES tb) genre t = true.
Proof.
  unfold candidates_of. intros H.
  apply list_elem_of_In, in_flat_map in H as (kv & Hkv & Ht).
  exists kv. split; [by apply list_elem_of_In|].
  destruct (word_search (Py.lower genre) (fst kv)); [|done]. split; [done|].
  apply list_elem_of_In in Ht. apply list_elem_of_filter in Ht as [Hp Ht].
  split; [done|].
  apply Is_true_true in Hp. apply andb_true_iff in Hp as [Hp H3].
  apply andb_true_iff in Hp as [H1 H2]. apply negb_true_iff in H1. done.
Qed.

Lemma dedupe_artist s1 s2 : forall l t,
  t ∈ dedupe s1 s2 l -> Py.truthy (artist_stripped t) = true.
Proof.
  intros l. revert s1 s2. induction l as [|x l IH]; intros s1 s2 t H; simpl in H.
  - by apply elem_of_nil in H.
  - destruct (falsy (tid_uri_first x)); simpl in H; [by eapply IH|].
    destruct (Py.truthy (artist_stripped x)) eqn:Ha; simpl in H; [|by eapply IH].
    destruct (in_set (tid_uri_first x) s1 || bool_decide (artist_key x ∈ s2))%bool;
      [by eapply IH|].
    apply elem_of_cons in H as [->|H]; [done | by eapply IH].
Qed.

End Facts.

End Admissible.

(** Every seed of a playable genre of [killmegod.py] has an identifier and a
    non-blank primary artist, is not on the URI deny list, carries a tag that
    contains the genre name on word boundaries, is accepted by [genre_match]
    and by [passes_rules] for that genre, and was not excluded by the tracks
    and artists used before the genre was processed. *)
Theorem killmegod_seeds_admissible {rng : Type}
    (rng_seed : Z -> rng) (rng_random : rng -> float * rng)
    (cfg : config) (tb : tables) (env : environment rng) (tracks : list track)
    (pre : list string) (genre : string) (post : list string)
    (l : list track) (t : track) :
  Killmegod.gather_playable_genres (GENRE_TREE tb) = pre ++ genre :: post ->
  genre ∉ synthetic_names tb ->
  Killmegod.results (Killmegod.select_all rng_seed rng_random cfg tb env tracks) !! genre
    = Some l ->
  t ∈ l ->
  let st := killmegod_before rng_seed rng_random cfg tb env tracks pre in
  falsy (tid_uri_first t) = false /\
  Py.truthy (Killmegod.artist_stripped t) = true /\
  in_set (tid_uri_first t) (TRACK_DENY_URIS tb) = false /\
  (exists tag, tag ∈ norm_tags (raw_tags t) /\
               word_search (Py.lower genre) tag = true) /\
  genre_match (EXCLUSIONS tb) genre (norm_tags (raw_tags t)) = true /\
  Killmegod_rules.passes_rules (GENRE_RULES tb) genre t = true /\
  Killmegod.eligible (Killmegod.global_seen_ids st) (Killmegod.global_seen_artists st) t
    = true.
Proof.
  intros Hsplit Hsyn Hl Ht st.
  rewrite (Ranking.playable_list rng_seed rng_random cfg tb env tracks pre genre post)
    in Hl by done.
  rewrite Ranking.select_genre_list in Hl. injection Hl as <-.
  apply elem_of_take in Ht as (i & Ht & _). apply list_elem_of_lookup_2 in Ht.
  apply list_elem_of_filter in Ht as [He Ht].
  rewrite (Ranking.ranked_perm rng_random cfg tb env) in Ht.
  pose proof (Admissible.dedupe_artist _ _ _ _ Ht) as Ha.
  apply Killmegod_facts.dedupe_truthy in Ht as [Hf Hc].
  apply Admissible.candidates_of_spec in Hc as (kv & Hkv & Hw & Hin & _ & Hm & Hr).
  destruct (index_tracks_keys_aux (TRACK_DENY_URIS tb)
              (Killmegod_text.cleaned_tracks tracks) kv t Hkv Hin) as (_ & Hd & Hk).
  repeat split; try done. by exists (fst kv).
Qed.

Lemma killmegod_seeds_admissible_witness :
  let t := first_of demo_killmegod_metal in
  let st := killmegod_before toy_seed toy_random CONFIG demo_tables env_forward
                             demo_tracks ["rock"; "punk"] in
  falsy (tid_uri_first t) = false /\
  Py.truthy (Killmegod.artist_stripped t) = true /\
  in_set (tid_uri_first t) (TRACK_DENY_URIS demo_tables) = false /\
  (exists tag, tag ∈ norm_tags (raw_tags t) /\
               word_search (Py.lower "metal") tag = true) /\
  genre_match (EXCLUSIONS demo_tables) "metal" (norm_tags (raw_tags t)) = true /\
  Killmegod_rules.passes_rules (GENRE_RULES demo_tables) "metal" t = true /\
  Killmegod.eligible (Killmegod.global_seen_ids st) (Killmegod.global_seen_artists st) t
    = true.
Proof.
  assert (Killmegod.gather_playable_genres (GENRE_TREE demo_tables) =
          ["rock"; "punk"] ++ "metal" :: ["hard rock"]) as H1 by (vm_compute; reflexivity).
  assert ("metal" ∉ synthetic_names demo_tables) as H2.
  { unfold synthetic_names. vm_compute. intros H. not_in_list H. }
  assert (Killmegod.results
            (Killmegod.select_all toy_seed toy_random CONFIG demo_tables env_forward
                                  demo_tracks) !! "metal" = Some demo_killmegod_metal)
    as H3 by (vm_compute; reflexivity).
  exact (killmegod_seeds_admissible toy_seed toy_random CONFIG demo_tables env_forward
           demo_tracks ["rock"; "punk"] "metal" ["hard rock"] demo_killmegod_metal
           (first_of demo_killmegod_metal) H1 H2 H3 (list_elem_of_here _ _)).
Defined.

(** ** What a seed list of [v2.py] is (lines 1174-1248) *)

Module V2_ranking.
Import Sel_facts V2 V2_facts.

Local Arguments Nat.min : simpl never.

Section Facts.
Context {rng : Type} (rng_seed : Z -> rng) (rng_random : rng -> float * rng).
Variable GLOBAL_UNIQUENESS : bool.
Variable GENRE_TO_PARENT : gmap string string.
Variable tb : tables.

Lemma v2_pick_top_k_take parent : forall unique top m,
  NoDup (map first_artist unique) ->
  (length top <= 4)%nat ->
  fst (pick_top_k GLOBAL_UNIQUENESS parent unique top m) =
  top ++ take (4 - length top)
              (filter (fun t => family_ok parent (k_family_artists m) t = true) unique).
Proof.
  induction unique as [|t rest IH]; intros top m Hn Hlen.
  - cbn [pick_top_k fst]. by rewrite filter_nil, take_nil, app_nil_r.
  - rewrite v2_pick_top_k_cons. apply NoDup_cons in Hn as [Hx Hn].
    destruct (4 <=? length top)%nat eqn:Hk.
    { apply Nat.leb_le in Hk. cbn [fst].
      replace (4 - length top)%nat with 0%nat by lia. by rewrite take_0, app_nil_r. }
    apply Nat.leb_gt in Hk. rewrite filter_cons.
    assert (family_ok parent (k_family_artists m) t =
            negb (Py.truthy parent &&
                  bool_decide (first_artist t ∈ k_family_artists m))) as Hf by done.
    destruct (Py.truthy parent && bool_decide (first_artist t ∈ k_family_artists m))%bool
      eqn:He.
    + rewrite decide_False by (by rewrite Hf). by apply IH.
    + rewrite decide_True by (by rewrite Hf). cbv zeta.
      rewrite IH; try done; [|rewrite length_app; simpl; lia].
      rewrite length_app. cbn [k_family_artists length].
      rewrite (Ranking.filter_ext_elem
                 (fun x => family_ok parent
                             (if Py.truthy parent
                              then {[ first_artist t ]} ∪ k_family_artists m
                              else k_family_artists m) x = true)
                 (fun x => family_ok parent (k_family_artists m) x = true)).
      * rewrite <- app_assoc. cbn [app]. f_equal.
        replace (4 - length top)%nat with (S (4 - (length top + 1)))%nat by lia.
        done.
      * intros x Hx'. rewrite V2_count.family_ok_add; [done|].
        intros Heq. apply Hx. rewrite <- Heq. by apply list_elem_of_fmap_2.
Qed.

Lemma v2_ranked_perm env idx (st : @state rng) genre :
  map snd (v2_ranked rng_random GLOBAL_UNIQUENESS GENRE_TO_PARENT tb env idx st genre)
  ≡ₚ snd (unique_candidates GLOBAL_UNIQUENESS GENRE_TO_PARENT tb env idx st genre).
Proof.
  unfold v2_ranked.
  pose proof (v2_score_all_tracks rng_random env genre
                (snd (unique_candidates GLOBAL_UNIQUENESS GENRE_TO_PARENT tb env idx st
                                        genre)) (generator st)) as Hsc.
  rewrite <- Hsc at 2. by rewrite (sort_desc_perm _).
Qed.

Lemma unique_candidates_nodup env idx (st : @state rng) genre :
  NoDup (map first_artist
           (snd (unique_candidates GLOBAL_UNIQUENESS GENRE_TO_PARENT tb env idx st genre))).
Proof.
  unfold unique_candidates. destruct (gather_candidates _ _ _ _ _ _ _ _) as [tbl cands].
  simpl. apply V2_count.v2_dedupe_nodup.
Qed.

Lemma v2_select_genre_list env idx (st : @state rng) genre :
  let parent := default "" (GENRE_TO_PARENT !! genre) in
  results (select_genre rng_random GLOBAL_UNIQUENESS GENRE_TO_PARENT tb env idx st genre)
    !! genre =
  Some (take 4
          (filter (fun t => family_ok parent
                              (family_set (used_artists_by_parent st) parent) t = true)
                  (map snd (v2_ranked rng_random GLOBAL_UNIQUENESS GENRE_TO_PARENT tb env
                                      idx st genre)))).
Proof.
  intros parent.
  pose proof (v2_ranked_perm env idx st genre) as Hperm.
  pose proof (unique_candidates_nodup env idx st genre) as Hnd.
  unfold select_genre, v2_ranked in *. fold parent.
  destruct (unique_candidates GLOBAL_UNIQUENESS GENRE_TO_PARENT tb env idx st genre)
    as [table' unique].
  cbn [snd] in *.
  destruct unique as [|u unique].
  { cbn [is_nil results score_all fst sort_desc foldr map].
    by rewrite lookup_insert_eq, filter_nil, take_nil. }
  cbn [is_nil].
  destruct (score_all rng_random env genre (u :: unique) (generator st)) as [scored g'].
  cbn [fst] in *.
  set (m := Marks _ _ _ _).
  pose proof (v2_pick_top_k_take parent (map snd (sort_desc scored)) [] m) as Htake.
  destruct (pick_top_k GLOBAL_UNIQUENESS parent (map snd (sort_desc scored)) [] m)
    as [top_k m'].
  cbn [fst results] in *. rewrite lookup_insert_eq. f_equal.
  rewrite Htake.
  - cbn [app length]. by rewrite Nat.sub_0_r.
  - by rewrite Hperm.
  - simpl. lia.
Qed.

Lemma v2_final_list env tracks pre genre post :
  gather_playable_genres (GENRE_TREE tb) = pre ++ genre :: post ->
  results (select_all rng_seed rng_random GLOBAL_UNIQUENESS GENRE_TO_PARENT tb env tracks)
    !! genre =
  results (select_genre rng_random GLOBAL_UNIQUENESS GENRE_TO_PARENT tb env
             (index_tracks (TRACK_DENY_URIS tb) tracks)
             (v2_before rng_seed rng_random GLOBAL_UNIQUENESS GENRE_TO_PARENT tb env
                        tracks pre) genre) !! genre.
Proof.
  intros Hsplit. unfold select_all. rewrite Hsplit, foldl_app. cbn [foldl].
  fold (v2_before rng_seed rng_random GLOBAL_UNIQUENESS GENRE_TO_PARENT tb env tracks pre).
  rewrite (Killmegod_count.foldl_lookup_keep results (fun g => g)); [done| |].
  - intros st' x Hx. by apply V2_count.v2_select_genre_other.
  - rewrite map_id. intros Hin.
    destruct (Killmegod_count.unique_in_order_nodup
                (flat_map (fun kv => walk_playable (snd kv)) (GENRE_TREE tb)) ∅) as [Hn _].
    fold (gather_playable_genres (GENRE_TREE tb)) in Hn. rewrite Hsplit in Hn.
    apply NoDup_app in Hn as (_ & _ & Hn). apply NoDup_cons in Hn as [Hn _]. done.
Qed.

End Facts.

End V2_ranking.

(** The seed list of a genre of [v2.py] is the first four tracks, in
    descending order of score, among the unique candidates of the genre whose
    primary artist the family of the genre has not used; no primary artist
    occurs twice in the list, whether GLOBAL_UNIQUENESS is on or off. *)
Theorem v2_seed_list_is_top_of_ranking {rng : Type}
    (rng_seed : Z -> rng) (rng_random : rng -> float * rng)
    (G : bool) (parents : gmap string string)
    (tb : tables) (env : environment rng) (tracks : list track)
    (pre : list string) (genre : string) (post : list string) :
  V2.gather_playable_genres (GENRE_TREE tb) = pre ++ genre :: post ->
  let idx := index_tracks (TRACK_DENY_URIS tb) tracks in
  let st := v2_before rng_seed rng_random G parents tb env tracks pre in
  let parent := default "" (parents !! genre) in
  let ranked := v2_ranked rng_random G parents tb env idx st genre in
  let l := take 4 (filter (fun t => family_ok parent
                                      (V2.family_set (V2.used_artists_by_parent st) parent)
                                      t = true)
                          (map snd ranked)) in
  V2.results (V2.select_all rng_seed rng_random G parents tb env tracks) !! genre = Some l /\
  descending (map fst ranked) /\
  map snd ranked ≡ₚ snd (V2.unique_candidates G parents tb env idx st genre) /\
  NoDup (map first_artist l).
Proof.
  intros Hsplit idx st parent ranked l. split; [|split; [|split]].
  - rewrite (V2_ranking.v2_final_list rng_seed rng_random G parents tb env tracks pre
               genre post) by done.
    apply V2_ranking.v2_select_genre_list.
  - apply Ranking.sort_desc_descending.
  - apply V2_ranking.v2_ranked_perm.
  - pose proof (V2_ranking.unique_candidates_nodup G parents tb env idx st genre) as Hnd.
    rewrite <- (V2_ranking.v2_ranked_perm rng_random G parents tb env idx st genre) in Hnd.
    eapply sublist_NoDup; [exact Hnd|]. apply fmap_sublist.
    etrans; [apply sublist_take | apply sublist_filter].
Qed.

Lemma v2_seed_list_is_top_of_ranking_witness :
  let idx := index_tracks (TRACK_DENY_URIS demo_tables) demo_tracks in
  let st := v2_before toy_seed toy_random true ∅ demo_tables env_forward demo_tracks
                      ["rock"; "punk"; "__synthetic__"] in
  let parent := default "" ((∅ : gmap string string) !! "metal") in
  let ranked := v2_ranked toy_random true ∅ demo_tables env_forward idx st "metal" in
  let l := take 4 (filter (fun t => family_ok parent
                                      (V2.family_set (V2.used_artists_by_parent st) parent)
                                      t = true)
                          (map snd ranked)) in
  V2.results (V2.select_all toy_seed toy_random true ∅ demo_tables env_forward demo_tracks)
    !! "metal" = Some l /\
  descending (map fst ranked) /\
  map snd ranked ≡ₚ snd (V2.unique_candidates true ∅ demo_tables env_forward idx st "metal") /\
  NoDup (map first_artist l).
Proof.
  assert (V2.gather_playable_genres (GENRE_TREE demo_tables) =
          ["rock"; "punk"; "__synthetic__"] ++ "metal" :: ["hard rock"]) as H1
    by (vm_compute; reflexivity).
  exact (v2_seed_list_is_top_of_ranking toy_seed toy_random true ∅ demo_tables env_forward
           demo_tracks ["rock"; "punk"; "__synthetic__"] "metal" ["hard rock"] H1).
Defined.

(** ** Word-boundary search and the genre matcher ([killmegod.py] 1330-1343) *)

Module Word_facts.
Import Re Re_facts.

Lemma matches_lit_cs w : forall prev s prev' s',
  matches (lit false w) prev s prev' s' <->
  s = w +:+ s' /\ prev' = last_char prev w.
Proof.
  induction w as [|a w IH]; intros prev s prev' s'; cbn [lit].
  - split.
    + intros H. apply matches_eps_inv in H as [-> ->]. by rewrite app_empty_l.
    + intros [-> ->]. rewrite app_empty_l. apply M_eps.
  - split.
    + intros H. apply matches_cat_inv in H as (p1 & s1 & H1 & H2).
      apply matches_chr_inv in H1 as (c & -> & -> & Hc).
      unfold chr_eq in Hc. apply Ascii.eqb_eq in Hc. subst c.
      apply IH in H2 as [-> ->]. by rewrite app_cons.
    + intros [-> ->]. rewrite app_cons. eapply M_cat.
      * apply M_chr. unfold chr_eq. apply Ascii.eqb_refl.
      * apply IH. done.
Qed.

Lemma word_search_iff pat s :
  word_search pat s = true <-> occurs_at_boundaries pat s.
Proof.
  unfold word_search, word_re, occurs_at_boundaries. rewrite search_iff. split.
  - intros (pre & post & prev' & s' & -> & H).
    apply matches_cat_inv in H as (p1 & s1 & H1 & H).
    apply matches_bnd_inv in H1 as (-> & -> & Hb1).
    apply matches_cat_inv in H as (p2 & s2 & H2 & H3).
    apply matches_lit_cs in H2 as [-> ->].
    apply matches_bnd_inv in H3 as (Hp & Hs & Hb2). subst.
    eexists pre, _. split; [reflexivity|]. split; [exact Hb1 | exact Hb2].
  - intros (pre & post & -> & Hb1 & Hb2).
    exists pre, (pat +:+ post), (last_char (last_char None pre) pat), post.
    split; [done|].
    eapply M_cat; [by apply M_bnd|].
    eapply M_cat; [by apply matches_lit_cs|]. by apply M_bnd.
Qed.

Lemma word_after_app pat post :
  pat <> EmptyString -> word_after (pat +:+ post) = word_after pat.
Proof. destruct pat; [done|]. intros _. by rewrite app_cons. Qed.

Lemma last_char_nonempty pat : forall prev,
  pat <> EmptyString -> last_char prev pat = last_char None pat.
Proof. destruct pat as [|c pat]; intros prev Hne; [done | reflexivity]. Qed.

Lemma occurs_word_edged pat s :
  word_edged pat -> occurs_at_boundaries pat s <-> occurs_as_word pat s.
Proof.
  intros [Ha Hb]. assert (pat <> EmptyString) as Hne by (by destruct pat).
  unfold occurs_at_boundaries, occurs_as_word.
  split; intros (pre & post & -> & H1 & H2); exists pre, post; (split; [done|]).
  - rewrite Text_facts.at_boundary_xor in H1, H2.
    rewrite word_after_app, Ha in H1 by done.
    rewrite last_char_nonempty in H2 by done.
    unfold word_before in *. rewrite Hb in H2.
    split.
    + by destruct (word_opt (last_char None pre)).
    + by destruct (word_after post).
  - rewrite !Text_facts.at_boundary_xor, word_after_app, Ha by done.
    rewrite (last_char_nonempty pat) by done.
    unfold word_before in *. by rewrite Hb, H1, H2.
Qed.

End Word_facts.

(** The search [\bpat\b] succeeds exactly when [pat] occurs with a word
    boundary on each side; such an occurrence is in particular a substring.
    For a pattern whose first and last characters are word characters this
    means: no letter, digit or underscore right before or right after the
    occurrence, so the pattern is also found inside a hyphenated or spaced
    compound. *)
Theorem word_search_occurrence (pat s : string) :
  (word_search pat s = true <-> occurs_at_boundaries pat s) /\
  (word_search pat s = true -> Py.contains pat s = true) /\
  (word_edged pat -> (word_search pat s = true <-> occurs_as_word pat s)).
Proof.
  split; [apply Word_facts.word_search_iff|]. split.
  - intros H. apply Word_facts.word_search_iff in H as (pre & post & -> & _).
    apply Py_facts.contains_iff. by exists pre, post.
  - intros He. rewrite Word_facts.word_search_iff. by apply Word_facts.occurs_word_edged.
Qed.

Lemma word_search_occurrence_witness :
  word_search "punk" "post-punk revival" = true <->
  occurs_as_word "punk" "post-punk revival".
Proof.
  apply (word_search_occurrence "punk" "post-punk revival"). by vm_compute.
Defined.

(** [genre_match] accepts a tag list exactly when no configured exclusion of
    the genre is a substring of any tag (ignoring case) and some tag, lowered
    and stripped, is the lowered and stripped genre name or contains it
    between word boundaries. *)
Theorem genre_match_spec (EXCLUSIONS : gmap string (list string))
    (search_genre : string) (track_genres : list string) :
  genre_match EXCLUSIONS search_genre track_genres = true <->
  no_exclusion_applies EXCLUSIONS search_genre track_genres /\
  exists tg, tg ∈ track_genres /\
    (Py.strip (Py.lower tg) = Py.strip (Py.lower search_genre) \/
     occurs_at_boundaries (Py.strip (Py.lower search_genre)) (Py.strip (Py.lower tg))).
Proof.
  unfold genre_match, no_exclusion_applies.
  destruct (match EXCLUSIONS !! search_genre with
            | Some exclusions => existsb (fun e => excluded_by e track_genres) exclusions
            | None => false
            end) eqn:Hex.
  - split; [done|]. intros [Hno _]. exfalso.
    destruct (EXCLUSIONS !! search_genre) as [excl|] eqn:HE; [|done].
    apply Py_facts.existsb_elem_of in Hex as (e & He & Hx).
    apply Py_facts.existsb_elem_of in Hx as (g & Hg & Hc).
    apply Py_facts.contains_iff in Hc. by apply (Hno excl e g).
  - rewrite Py_facts.existsb_elem_of. split.
    + intros (tg & Htg & Hm). split.
      * intros excl e g HE He Hg Hsub. rewrite HE in Hex.
        apply Py_facts.contains_iff in Hsub.
        assert (existsb (fun e => excluded_by e track_genres) excl = true) as Hc;
          [|congruence].
        apply Py_facts.existsb_elem_of. exists e. split; [done|].
        apply Py_facts.existsb_elem_of. by exists g.
      * exists tg. split; [done|]. apply orb_true_iff in Hm as [Hm|Hm].
        -- left. by apply String.eqb_eq.
        -- right. by apply Word_facts.word_search_iff.
    + intros [_ (tg & Htg & [Hm|Hm])]; exists tg; (split; [done|]);
        apply orb_true_iff.
      * left. by apply String.eqb_eq.
      * right. by apply Word_facts.word_search_iff.
Qed.

(** ** The slugs of [generate_filename] ([killmegod.py] 99-111, [v2.py] 39-46) *)

Module Slug_facts.
Import Re Re_facts Killmegod_text.

Lemma all_chars_app p a b :
  all_chars p (a +:+ b) = (all_chars p a && all_chars p b)%bool.
Proof.
  induction a as [|c a IH]; [by rewrite app_empty_l|].
  rewrite app_cons. simpl. by rewrite IH, andb_assoc.
Qed.

Lemma length_app (a b : string) :
  String.length (a +:+ b) = (String.length a + String.length b)%nat.
Proof.
  induction a as [|c a IH]; [by rewrite app_empty_l|].
  rewrite app_cons. simpl. by rewrite IH.
Qed.

(** *** Deleting the characters of a class *)

Lemma search_chr p : forall s prev,
  match search_from (Chr p) prev s with
  | None => all_chars (fun c => negb (p c)) s = true
  | Some (pre, (prev', rest)) =>
      all_chars (fun c => negb (p c)) pre = true /\
      exists c, p c = true /\ s = pre +:+ String c rest
  end.
Proof.
  induction s as [|c s IH]; intros prev; [done|].
  cbn [search_from match_here run]. destruct (p c) eqn:Hc.
  - split; [done|]. exists c. by rewrite app_empty_l.
  - specialize (IH (Some c)).
    destruct (search_from (Chr p) (Some c) s) as [[pre [prev' rest]]|].
    + destruct IH as [Hpre (d & Hd & ->)]. split.
      * simpl. by rewrite Hc.
      * exists d. by rewrite app_cons.
    + simpl. by rewrite Hc.
Qed.

Lemma sub_chr p : forall fuel s prev,
  (String.length s < fuel)%nat ->
  all_chars (fun c => negb (p c)) (sub_go fuel (Chr p) "" prev s) = true.
Proof.
  induction fuel as [|fuel IH]; intros s prev Hlen; [lia|].
  cbn [sub_go]. pose proof (search_chr p s prev) as Hs.
  destruct (search_from (Chr p) prev s) as [[pre [prev' rest]]|]; [|done].
  destruct Hs as [Hpre (c & Hc & ->)].
  rewrite length_app in *. cbn [String.length] in *.
  destruct (Nat.eqb_spec (String.length pre + String.length rest)
              (String.length pre + S (String.length rest))) as [E|_]; [lia|].
  rewrite app_empty_l, all_chars_app, Hpre. apply IH. lia.
Qed.

(** *** Collapsing the runs of a class *)

Lemma star_greedy_id p : forall s prev,
  exists prev', star_greedy p prev s (fun a b => Some (a, b)) = Some (prev', Py.lstrip p s).
Proof.
  induction s as [|c s IH]; intros prev; [by eexists|].
  cbn [star_greedy Py.lstrip]. destruct (p c); [|by eexists].
  destruct (IH (Some c)) as [prev' ->]. by eexists.
Qed.

Lemma lstrip_spec p : forall s,
  exists mid, s = mid +:+ Py.lstrip p s /\ all_chars p mid = true /\
              starts_with p (Py.lstrip p s) = false.
Proof.
  induction s as [|c s IH]; [by exists ""|].
  cbn [Py.lstrip]. destruct (p c) eqn:Hc.
  - destruct IH as (mid & Hs & Hm & Hst). exists (String c mid).
    rewrite app_cons, <- Hs. simpl. by rewrite Hc.
  - exists "". by rewrite app_empty_l.
Qed.

Lemma search_plus p : forall s prev,
  match search_from (Plus p) prev s with
  | None => all_chars (fun c => negb (p c)) s = true
  | Some (pre, (prev', rest)) =>
      all_chars (fun c => negb (p c)) pre = true /\
      starts_with p rest = false /\
      exists mid, s = pre +:+ mid +:+ rest /\ (0 < String.length mid)%nat /\
                  all_chars p mid = true
  end.
Proof.
  induction s as [|c s IH]; intros prev; [done|].
  cbn [search_from match_here run]. destruct (p c) eqn:Hc.
  - destruct (star_greedy_id p s (Some c)) as [prev' ->].
    destruct (lstrip_spec p s) as (mid & Hs & Hmid & Hst).
    split; [done|]. split; [done|]. exists (String c mid).
    rewrite app_empty_l, app_cons, <- Hs.
    split; [done|]. split; [simpl; lia|]. simpl. by rewrite Hc.
  - specialize (IH (Some c)).
    destruct (search_from (Plus p) (Some c) s) as [[pre [prev' rest]]|].
    + destruct IH as (Hpre & Hst & mid & -> & Hm & Hmid).
      split; [simpl; by rewrite Hc|].
      split; [done|]. exists mid. by rewrite app_cons.
    + simpl. by rewrite Hc.
Qed.

Lemma no_double_none p : forall s,
  all_chars (fun c => negb (p c)) s = true -> no_double p s = true.
Proof.
  induction s as [|a s IH]; [done|]. intros H. simpl in H.
  apply andb_true_iff in H as [Ha Hs]. destruct s as [|b s]; [done|].
  cbn [no_double]. apply negb_true_iff in Ha. rewrite Ha. simpl. by apply IH.
Qed.

Lemma no_double_cons p a b s :
  no_double p (String a (String b s)) =
  (negb (p a && p b) && no_double p (String b s))%bool.
Proof. reflexivity. Qed.

(** [pre] without the class, then one character of the class, then a string
    that does not start with the class. *)
Lemma no_double_join p pre d r :
  all_chars (fun c => negb (p c)) pre = true ->
  starts_with p r = false -> no_double p r = true ->
  no_double p (pre +:+ String d r) = true.
Proof.
  intros Hpre Hst Hr. induction pre as [|a pre IH].
  - rewrite app_empty_l. destruct r as [|b r]; [done|].
    rewrite no_double_cons. simpl in Hst. rewrite Hst, andb_false_r.
    cbn [negb andb]. exact Hr.
  - simpl in Hpre. apply andb_true_iff in Hpre as [Ha Hpre].
    apply negb_true_iff in Ha. specialize (IH Hpre).
    rewrite app_cons. destruct pre as [|b pre].
    + rewrite app_empty_l in *. rewrite no_double_cons, Ha. exact IH.
    + rewrite app_cons in *. rewrite no_double_cons, Ha. exact IH.
Qed.

Lemma starts_with_app_l p pre r :
  all_chars (fun c => negb (p c)) pre = true -> (0 < String.length pre)%nat ->
  starts_with p (pre +:+ r) = false.
Proof.
  destruct pre as [|a pre]; [simpl; lia|]. intros H _. rewrite app_cons. simpl in *.
  apply andb_true_iff in H as [Ha _]. by apply negb_true_iff in Ha.
Qed.

Lemma sub_plus p d q : forall fuel s prev,
  p d = true -> (String.length s < fuel)%nat ->
  let r := sub_go fuel (Plus p) (String d "") prev s in
  no_double p r = true /\
  (starts_with p s = false -> starts_with p r = false) /\
  (q d = true -> all_chars q s = true -> all_chars q r = true).
Proof.
  induction fuel as [|fuel IH]; intros s prev Hd Hlen; [lia|].
  cbn [sub_go]. pose proof (search_plus p s prev) as Hs.
  destruct (search_from (Plus p) prev s) as [[pre [prev' rest]]|].
  2:{ cbv zeta. split; [by apply no_double_none|]. done. }
  destruct Hs as (Hpre & Hst & mid & -> & Hm & Hmid).
  rewrite !length_app in *.
  destruct (Nat.eqb_spec (String.length pre + String.length rest)
              (String.length pre + (String.length mid + String.length rest)))
    as [E|_]; [lia|].
  destruct (IH rest prev' Hd ltac:(lia)) as (Hnd & Hsw & Hq). cbv zeta.
  rewrite app_cons, app_empty_l.
  split; [|split].
  - apply no_double_join; [done | by apply Hsw | done].
  - intros Hs. destruct pre as [|a pre].
    + rewrite app_empty_l in Hs. destruct mid as [|m mid]; [simpl in Hm; lia|].
      rewrite app_cons in Hs. simpl in Hs, Hmid.
      apply andb_true_iff in Hmid as [Hpm _]. congruence.
    + by apply starts_with_app_l; [|simpl; lia].
  - intros Hqd Hqs. rewrite !all_chars_app in Hqs.
    apply andb_true_iff in Hqs as [H1 H2]. apply andb_true_iff in H2 as [_ H3].
    rewrite all_chars_app, H1. simpl. rewrite Hqd. by apply Hq.
Qed.

(** *** Stripping *)

Lemma all_chars_ext p q s :
  (forall c, p c = q c) -> all_chars p s = all_chars q s.
Proof. intros E. induction s as [|c s IH]; [done|]. simpl. by rewrite E, IH. Qed.

Lemma no_double_tail p c s : no_double p (String c s) = true -> no_double p s = true.
Proof.
  destruct s as [|b s]; [done|]. rewrite no_double_cons.
  intros H. by apply andb_true_iff in H as [_ H].
Qed.

Lemma lstrip_chars p q : forall s,
  all_chars q s = true -> all_chars q (Py.lstrip p s) = true.
Proof.
  induction s as [|c s IH]; [done|]. intros H. cbn [Py.lstrip].
  destruct (p c); [|done]. simpl in H. apply andb_true_iff in H as [_ H]. by apply IH.
Qed.

Lemma lstrip_no_double p : forall s,
  no_double p s = true -> no_double p (Py.lstrip p s) = true.
Proof.
  induction s as [|c s IH]; [done|]. intros H. cbn [Py.lstrip].
  destruct (p c); [|done]. apply IH. by apply no_double_tail in H.
Qed.

Lemma lstrip_starts p s : starts_with p (Py.lstrip p s) = false.
Proof. by destruct (lstrip_spec p s) as (_ & _ & _ & H). Qed.

Lemma lstrip_id p s : starts_with p s = false -> Py.lstrip p s = s.
Proof. destruct s as [|c s]; [done|]. simpl. by intros ->. Qed.

Lemma rstrip_cons p c s :
  Py.rstrip p (String c s) =
  match Py.rstrip p s with
  | EmptyString => if p c then EmptyString else String c EmptyString
  | r => String c r
  end.
Proof. reflexivity. Qed.

Lemma rstrip_chars p q : forall s,
  all_chars q s = true -> all_chars q (Py.rstrip p s) = true.
Proof.
  induction s as [|c s IH]; [done|]. intros H. rewrite rstrip_cons.
  simpl in H. apply andb_true_iff in H as [Hc H]. specialize (IH H).
  destruct (Py.rstrip p s) as [|b r].
  - destruct (p c); [done|]. simpl. by rewrite Hc.
  - change (all_chars q (String c (String b r))) with
      (q c && all_chars q (String b r))%bool. by rewrite Hc, IH.
Qed.

(** The first character of a stripped string is the first character of the
    string, when anything is left. *)
Lemma rstrip_head p c s :
  Py.rstrip p (String c s) = EmptyString \/
  exists r, Py.rstrip p (String c s) = String c r.
Proof.
  rewrite rstrip_cons. destruct (Py.rstrip p s) as [|b r].
  - destruct (p c); [by left | right; by eexists].
  - right. by eexists.
Qed.

Lemma rstrip_no_double p : forall s,
  no_double p s = true -> no_double p (Py.rstrip p s) = true.
Proof.
  induction s as [|c s IH]; [done|]. intros H.
  pose proof (no_double_tail _ _ _ H) as Ht. specialize (IH Ht).
  rewrite rstrip_cons. destruct s as [|b s].
  - cbn [Py.rstrip]. by destruct (p c).
  - destruct (rstrip_head p b s) as [E|[r E]]; rewrite E in *.
    + by destruct (p c).
    + rewrite no_double_cons in *. apply andb_true_iff in H as [H _].
      by rewrite H, IH.
Qed.

Lemma rstrip_starts p s :
  starts_with p s = false -> starts_with p (Py.rstrip p s) = false.
Proof.
  destruct s as [|c s]; [done|]. intros H.
  destruct (rstrip_head p c s) as [E|[r E]]; rewrite E; done.
Qed.

Lemma ends_with_cons p c b s :
  ends_with p (String c (String b s)) = ends_with p (String b s).
Proof. reflexivity. Qed.

Lemma rstrip_ends p : forall s, ends_with p (Py.rstrip p s) = false.
Proof.
  induction s as [|c s IH]; [done|]. rewrite rstrip_cons.
  destruct (Py.rstrip p s) as [|b r].
  - destruct (p c) eqn:Hc; [done|]. unfold ends_with. simpl. exact Hc.
  - by rewrite ends_with_cons.
Qed.

Lemma rstrip_id p : forall s, ends_with p s = false -> Py.rstrip p s = s.
Proof.
  induction s as [|c s IH]; [done|]. intros H. rewrite rstrip_cons.
  destruct s as [|b s].
  - unfold ends_with in H. simpl in H. cbn [Py.rstrip]. by rewrite H.
  - rewrite ends_with_cons in H. by rewrite (IH H).
Qed.

(** *** A string already in slug shape *)

Lemma slug_char_fixed c :
  slug_char c = true ->
  Py.lower_char c = c /\ (if Ascii.eqb c " " then "-"%char else c) = c.
Proof.
  destruct c as [[] [] [] [] [] [] [] []]; vm_compute; intros H;
    first [discriminate H | by split].
Qed.

Lemma smap_id f q : forall s,
  (forall c, q c = true -> f c = c) -> all_chars q s = true -> Py.smap f s = s.
Proof.
  intros s Hf. induction s as [|c s IH]; [done|]. simpl. intros H.
  apply andb_true_iff in H as [Hc H]. by rewrite (Hf c Hc), (IH H).
Qed.

Lemma search_chr_none p : forall s prev,
  all_chars (fun c => negb (p c)) s = true -> search_from (Chr p) prev s = None.
Proof.
  induction s as [|c s IH]; intros prev H; [done|]. simpl in H.
  apply andb_true_iff in H as [Hc H]. apply negb_true_iff in Hc.
  cbn [search_from match_here run]. rewrite Hc. by rewrite (IH (Some c) H).
Qed.

Lemma sub_chr_id p repl s :
  all_chars (fun c => negb (p c)) s = true -> sub (Chr p) repl s = s.
Proof. intros H. unfold sub. cbn [sub_go]. by rewrite search_chr_none. Qed.

Lemma no_double_app_r p : forall a b,
  no_double p (a +:+ b) = true -> no_double p b = true.
Proof.
  induction a as [|c a IH]; intros b; [by rewrite app_empty_l|].
  rewrite app_cons. intros H. apply IH. by apply no_double_tail in H.
Qed.

(** A run inside a string without doubled characters is one character. *)
Lemma run_single p mid rest :
  all_chars p mid = true -> (0 < String.length mid)%nat ->
  no_double p (mid +:+ rest) = true -> exists m, mid = String m EmptyString.
Proof.
  destruct mid as [|m [|n mid]]; [simpl; lia | by eexists |].
  intros Hp _. rewrite !app_cons, no_double_cons. simpl in Hp.
  apply andb_true_iff in Hp as [Hm Hp]. apply andb_true_iff in Hp as [Hn _].
  by rewrite Hm, Hn.
Qed.

Lemma sub_plus_id a : forall fuel s prev,
  (String.length s < fuel)%nat -> no_double (is_char a) s = true ->
  sub_go fuel (Plus (is_char a)) (String a "") prev s = s.
Proof.
  induction fuel as [|fuel IH]; intros s prev Hlen Hnd; [lia|].
  cbn [sub_go]. pose proof (search_plus (is_char a) s prev) as Hs.
  destruct (search_from (Plus (is_char a)) prev s) as [[pre [prev' rest]]|]; [|done].
  destruct Hs as (Hpre & Hst & mid & -> & Hm & Hmid).
  rewrite !length_app in *.
  destruct (Nat.eqb_spec (String.length pre + String.length rest)
              (String.length pre + (String.length mid + String.length rest)))
    as [E|_]; [lia|].
  apply no_double_app_r in Hnd.
  destruct (run_single _ _ _ Hmid Hm Hnd) as [m ->].
  simpl in Hmid. rewrite andb_true_r in Hmid. unfold is_char in Hmid.
  apply Ascii.eqb_eq in Hmid as ->.
  rewrite IH; [done | simpl in Hlen; lia |].
  rewrite app_cons, app_empty_l in Hnd. by apply no_double_tail in Hnd.
Qed.

Lemma slug_shape_aux (s : string) :
  all_chars slug_char (slug s) = true /\
  starts_with (is_char "-") (slug s) = false /\
  ends_with (is_char "-") (slug s) = false /\
  no_double (is_char "-") (slug s) = true.
Proof.
  cbv zeta. unfold Killmegod_text.slug, Py.strip_by.
  set (a := Py.replace_char " " "-" (Py.lower s)).
  set (b := Re.sub Killmegod_text.unsafe_char_re "" a).
  assert (Hb : all_chars slug_char b = true).
  { unfold b, Re.sub, Killmegod_text.unsafe_char_re.
    erewrite Slug_facts.all_chars_ext;
      [apply Slug_facts.sub_chr; lia|].
    intros c. unfold slug_char. by rewrite negb_involutive. }
  destruct (Slug_facts.sub_plus (Killmegod_text.is_char "-") "-" slug_char
              (S (String.length b)) b None eq_refl ltac:(lia)) as (Hnd & _ & Hq).
  fold (Re.sub Killmegod_text.hyphens_re "-" b) in Hnd, Hq.
  specialize (Hq eq_refl Hb).
  split; [|split; [|split]].
  - by apply Slug_facts.rstrip_chars, Slug_facts.lstrip_chars.
  - apply Slug_facts.rstrip_starts, Slug_facts.lstrip_starts.
  - apply Slug_facts.rstrip_ends.
  - by apply Slug_facts.rstrip_no_double, Slug_facts.lstrip_no_double.
Qed.

End Slug_facts.

(** A slug consists of lower-case ASCII letters, digits and hyphens only; it
    neither starts nor ends with a hyphen and holds no two hyphens in a row. *)
Theorem slug_shape (s : string) :
  let r := Killmegod_text.slug s in
  all_chars slug_char r = true /\
  starts_with (Killmegod_text.is_char "-") r = false /\
  ends_with (Killmegod_text.is_char "-") r = false /\
  no_double (Killmegod_text.is_char "-") r = true.
Proof. exact (Slug_facts.slug_shape_aux s). Qed.

(** A string of slug shape is its own slug; so slugging is idempotent. *)
Theorem slug_idempotent (s : string) :
  Killmegod_text.slug (Killmegod_text.slug s) = Killmegod_text.slug s /\
  forall r,
    all_chars slug_char r = true ->
    starts_with (Killmegod_text.is_char "-") r = false ->
    ends_with (Killmegod_text.is_char "-") r = false ->
    no_double (Killmegod_text.is_char "-") r = true ->
    Killmegod_text.slug r = r.
Proof.
  assert (Hfix : forall r,
    all_chars slug_char r = true ->
    starts_with (Killmegod_text.is_char "-") r = false ->
    ends_with (Killmegod_text.is_char "-") r = false ->
    no_double (Killmegod_text.is_char "-") r = true ->
    Killmegod_text.slug r = r).
  { intros r Hc Hs He Hn. unfold Killmegod_text.slug, Py.strip_by, Py.lower, Py.replace_char.
    rewrite (Slug_facts.smap_id Py.lower_char slug_char r
               (fun c H => proj1 (Slug_facts.slug_char_fixed c H)) Hc).
    rewrite (Slug_facts.smap_id _ slug_char r
               (fun c H => proj2 (Slug_facts.slug_char_fixed c H)) Hc).
    unfold Killmegod_text.unsafe_char_re.
    rewrite Slug_facts.sub_chr_id.
    2:{ erewrite Slug_facts.all_chars_ext; [exact Hc|].
        intros c. unfold slug_char. by rewrite negb_involutive. }
    unfold Re.sub, Killmegod_text.hyphens_re.
    rewrite Slug_facts.sub_plus_id; [|lia|done].
    by rewrite Slug_facts.lstrip_id, Slug_facts.rstrip_id. }
  split; [|exact Hfix].
  destruct (Slug_facts.slug_shape_aux s) as (Hc & Hs & He & Hn). by apply Hfix.
Qed.

Lemma slug_idempotent_witness :
  Killmegod_text.slug (Killmegod_text.slug "AC/DC  Live!") =
    Killmegod_text.slug "AC/DC  Live!" /\
  Killmegod_text.slug "acdc-live" = "acdc-live".
Proof.
  destruct (slug_idempotent "AC/DC  Live!") as [H1 H2].
  split; [exact H1 | apply H2; reflexivity].
Defined.

(** ** The keys of a feature summary ([killmegod.py] 1832-1943) *)

Module Manifest_keys.
Import Stats Manifest Manifest_facts Manifest_nodes.

Section Build.
Variable cfg : config.
Variable res : gmap string (list track).
Variable path_to_name : gmap string string.

Lemma numeric_insert K k x feat :
  k ∈ K -> numeric_within K feat -> numeric_within K (<[k := Some x]> feat).
Proof.
  intros Hk Hf k' v. destruct (decide (k = k')) as [<-|Hne].
  - rewrite lookup_insert_eq. intros [= <-]. by split.
  - rewrite lookup_insert_ne by done. apply Hf.
Qed.

Lemma fold_put_median_numeric K (vals : string -> list float) : forall keys feat,
  (forall k, k ∈ keys -> k ∈ K) -> numeric_within K feat ->
  numeric_within K (foldl (fun feat k => put_median k (vals k) feat) feat keys).
Proof.
  induction keys as [|k keys IH]; intros feat Hsub Hf; [done|].
  cbn [foldl]. apply IH.
  - intros k' Hk'. apply Hsub. by right.
  - unfold put_median. destruct (vals k); [done|].
    destruct (median _); [|done]. apply numeric_insert; [|done].
    apply Hsub. by left.
Qed.

Lemma compute_features_numeric seeds :
  numeric_within all_feature_keys (fst (compute_features_from_tracks cfg seeds)).
Proof.
  unfold compute_features_from_tracks. cbn [fst].
  assert (Hfold : numeric_within all_feature_keys
            (foldl (fun feat f => put_median f (field_values f seeds) feat)
                   ∅ FEATURE_FIELDS)).
  { apply (fold_put_median_numeric _ (fun k => field_values k seeds)).
    - intros k Hk. unfold all_feature_keys. apply elem_of_app. by left.
    - intros k v. by rewrite lookup_empty. }
  destruct (omap tempo seeds) as [|b bs]; [done|].
  destruct (median (b :: bs)); [|done].
  apply numeric_insert; [unfold all_feature_keys; apply elem_of_app; right; in_list|].
  apply numeric_insert; [unfold all_feature_keys; apply elem_of_app; right; in_list|].
  done.
Qed.

Lemma child_entries_source k : forall children,
  child_entries k children <> [] ->
  exists kv, kv ∈ children /\ is_Some (m_features_of (snd kv) !! k).
Proof.
  induction children as [|c children IH]; [done|].
  unfold child_entries. cbn [omap list_omap].
  destruct (m_features_of (snd c) !! k) as [v|] eqn:Hc.
  - intros _. exists c. split; [by left | by rewrite Hc].
  - intros H. destruct (IH H) as (kv & Hin & Hs). exists kv. split; [by right | done].
Qed.

Lemma aggregate_numeric K children :
  (forall kv k, kv ∈ children -> is_Some (m_features_of (snd kv) !! k) -> k ∈ K) ->
  numeric_within K (fst (aggregate_features_from_children children)).
Proof.
  intros Hch k v. unfold aggregate_features_from_children. cbn [fst].
  rewrite lookup_omap, agg_lists_lookup, lookup_empty.
  destruct (child_entries k children) as [|e es] eqn:He; [done|].
  cbn [is_nil]. intros Hv. split.
  - remember (e :: es) as l eqn:El. simpl in Hv.
    destruct (omap (fun v => v) l) as [|x xs]; [done|].
    destruct (median (x :: xs)); [|done]. injection Hv as <-. by eexists.
  - destruct (child_entries_source k children) as (kv & Hin & Hs); [by rewrite He|].
    by apply (Hch kv).
Qed.

Lemma fold_setdefault_dom k : forall keys feat,
  is_Some (foldl (fun feat k => setdefault_null k feat) feat keys !! k) <->
  is_Some (feat !! k) \/ k ∈ keys.
Proof.
  intros keys feat. split.
  - revert feat. induction keys as [|a keys IH]; intros feat H; [by left|].
    cbn [foldl] in H. destruct (IH _ H) as [Hs|Hin]; [|right; by right].
    unfold setdefault_null in Hs. destruct (feat !! a) eqn:Ha; [by left|].
    destruct (decide (a = k)) as [->|Hne]; [right; by left|].
    rewrite lookup_insert_ne in Hs by done. by left.
  - intros [[v Hv]|Hin].
    + rewrite (fold_setdefault_keep k v keys feat Hv). by eexists.
    + destruct (feat !! k) as [v|] eqn:Hv.
      * rewrite (fold_setdefault_keep k v keys feat Hv). by eexists.
      * rewrite (fold_setdefault_adds k keys feat Hin Hv). by eexists.
Qed.

(** A summary that is not empty and holds numbers only, once completed. *)
Lemma completed (feat : gmap string (option float)) :
  feat <> ∅ -> numeric_within all_feature_keys feat ->
  let F := foldl (fun feat k => setdefault_null k feat) feat all_feature_keys in
  (forall k, is_Some (F !! k) <-> k ∈ all_feature_keys) /\
  exists k x, F !! k = Some (Some x).
Proof.
  intros Hne Hnum F. split.
  - intros k. unfold F. rewrite fold_setdefault_dom. split; [|by right].
    intros [[v Hv]|Hin]; [|done]. by destruct (Hnum k v Hv).
  - destruct (map_choose feat Hne) as (k & v & Hv).
    destruct (Hnum k v Hv) as [[x ->] _]. exists k, x.
    by apply fold_setdefault_keep.
Qed.

Lemma assemble_keys seeds built_sub :
  (forall kv k, kv ∈ built_sub -> is_Some (m_features_of (snd kv) !! k) ->
                k ∈ all_feature_keys) ->
  let F := m_features_of (assemble cfg seeds built_sub) in
  F = ∅ \/
  ((forall k, is_Some (F !! k) <-> k ∈ all_feature_keys) /\
   exists k x, F !! k = Some (Some x)).
Proof.
  intros Hch. cbv zeta. unfold assemble.
  assert (Hd : numeric_within all_feature_keys (fst (direct_features cfg seeds))).
  { unfold direct_features. destruct (is_nil seeds).
    - intros k v. cbn [fst]. by rewrite lookup_empty.
    - apply compute_features_numeric. }
  destruct (direct_features cfg seeds) as [feat year]. cbn [fst] in Hd.
  destruct (decide (feat = ∅)) as [->|Hne].
  - rewrite bool_decide_eq_true_2 by done. cbn [andb].
    destruct (is_nil built_sub); cbn [negb].
    + rewrite bool_decide_eq_true_2 by done. by left.
    + pose proof (aggregate_numeric all_feature_keys built_sub Hch) as Ha.
      destruct (aggregate_features_from_children built_sub) as [cf cy]. cbn [fst] in Ha.
      destruct (decide (cf = ∅)) as [->|Hc].
      * rewrite !bool_decide_eq_true_2 by done. by left.
      * rewrite !(bool_decide_eq_false_2 (cf = ∅)) by done.
        right. cbn [m_features_of]. by apply completed.
  - rewrite (bool_decide_eq_false_2 (feat = ∅)) by done. cbn [andb].
    rewrite (bool_decide_eq_false_2 (feat = ∅)) by done.
    right. cbn [m_features_of]. by apply completed.
Qed.

Lemma build_manifest_keys : forall n genre_path,
  let F := m_features_of (build_manifest cfg res path_to_name n genre_path) in
  F = ∅ \/
  ((forall k, is_Some (F !! k) <-> k ∈ all_feature_keys) /\
   exists k x, F !! k = Some (Some x)).
Proof.
  induction n as [seed subs IH] using Playable.node_nested_ind. intros genre_path.
  rewrite build_manifest_unfold. apply assemble_keys.
  intros kv k Hin Hs. apply list_elem_of_fmap in Hin as (c & -> & Hc).
  cbn [snd] in Hs. rewrite Forall_forall in IH.
  destruct (IH c Hc (child_path genre_path (fst c))) as [He|[Hk _]].
  - rewrite He, lookup_empty in Hs. by destruct Hs.
  - by apply Hk.
Qed.

End Build.

End Manifest_keys.

(** The "features" object of every node of the manifest is either absent
    (empty) or holds exactly the seven feature fields, "tempo_bpm" and
    "tempo_norm", and at least one of them is a number: a summary is never
    made of nulls only, and never lacks a key. *)
Theorem manifest_features_complete
    (cfg : config) (res : gmap string (list track)) (path_to_name : gmap string string)
    (n : node) (genre_path : string) :
  let F := m_features_of (Manifest.build_manifest cfg res path_to_name n genre_path) in
  F = ∅ \/
  ((forall k, is_Some (F !! k) <-> k ∈ Manifest.all_feature_keys) /\
   exists k x, F !! k = Some (Some x)).
Proof. exact (Manifest_keys.build_manifest_keys cfg res path_to_name n genre_path). Qed.

(** ** What relaxing a rule record does to the tracks it admits ([v2.py] 970-1050) *)

Module Relax_accepts.
Import V2_rules.

Lemma overlap_app l1 l2 a : overlap (l1 ++ l2) a = (overlap l1 a + overlap l2 a)%nat.
Proof. unfold overlap. by rewrite flat_map_app, length_app. Qed.

Lemma overlap_perm l1 l2 a : l1 ≡ₚ l2 -> overlap l1 a = overlap l2 a.
Proof.
  intros Hp. unfold overlap. apply Permutation_length.
  by apply Permutation_flat_map.
Qed.

Lemma overlap_mono l1 l2 a : l1 ⊆+ l2 -> (overlap l1 a <= overlap l2 a)%nat.
Proof.
  intros Hs. apply submseteq_Permutation in Hs as [k Hk].
  rewrite (overlap_perm l2 (l1 ++ k) a Hk), overlap_app. lia.
Qed.

Lemma existsb_subset {A} (p : A -> bool) (l1 l2 : list A) :
  (forall x, x ∈ l1 -> x ∈ l2) -> existsb p l2 = false -> existsb p l1 = false.
Proof.
  intros Hs H2. destruct (existsb p l1) eqn:H1; [|done].
  apply existsb_exists in H1 as (x & Hx & Hp).
  assert (existsb p l2 = true) as H; [|congruence].
  apply existsb_exists. exists x. split; [|done].
  apply list_elem_of_In, Hs, list_elem_of_In, Hx.
Qed.

Section Facts.
Context {rng : Type}.
Variable env : environment rng.
Hypothesis faithful : faithful_iteration env.

Lemma relaxed_require_mono genre rules :
  NoDup (require_artist_genres_any rules) ->
  map Py.lower (require_artist_genres_any rules) ⊆+
  map Py.lower (require_artist_genres_any (V2.relax_record env genre rules)).
Proof.
  intros Hn. apply (fmap_submseteq Py.lower). apply NoDup_submseteq; [done|].
  intros x Hx. cbn [V2.relax_record require_artist_genres_any].
  rewrite (faithful _). apply elem_of_remove_dups, elem_of_app. by left.
Qed.

Lemma relaxed_require_nil genre rules :
  require_artist_genres_any rules = [] -> V2.ADJACENT !! genre = None ->
  require_artist_genres_any (V2.relax_record env genre rules) = [].
Proof.
  intros Hr Ha. cbn [V2.relax_record require_artist_genres_any].
  rewrite Hr, Ha. apply Permutation_nil_r. exact (faithful []).
Qed.

(** The relaxed record admits what the record admits. *)
Lemma passes_relaxed (table table' : gmap string rule) target genre rules t :
  table !! Py.lower target = Some rules ->
  table' !! Py.lower target = Some (V2.relax_record env genre rules) ->
  NoDup (require_artist_genres_any rules) ->
  (require_artist_genres_any rules <> [] \/ V2.ADJACENT !! genre = None) ->
  passes_rules table target t = true -> passes_rules table' target t = true.
Proof.
  intros Ht Ht' Hn Hadj. unfold passes_rules. rewrite Ht, Ht'. cbv zeta.
  change (deny_artist_genres_any (V2.relax_record env genre rules))
    with (deny_artist_genres_any rules).
  change (min_year (V2.relax_record env genre rules)) with (min_year rules).
  change (max_year (V2.relax_record env genre rules)) with (max_year rules).
  change (popularity_min (V2.relax_record env genre rules)) with (popularity_min rules).
  change (popularity_max (V2.relax_record env genre rules)) with (@None Z).
  destruct (existsb _ (map Py.lower (raw_tags t))); [done|].
  pose proof (relaxed_require_mono genre rules Hn) as Hsub.
  set (req := map Py.lower (require_artist_genres_any rules)) in *.
  set (req' := map Py.lower
                 (require_artist_genres_any (V2.relax_record env genre rules))) in *.
  set (a_gen := map Py.lower (raw_tags t)).
  pose proof (overlap_mono req req' a_gen Hsub) as Hle.
  assert (Hgate :
    (negb (is_nil req) &&
     ((overlap req a_gen <? 1)%nat ||
      (bool_decide (Py.lower target ∈ two_overlap_genres) &&
       (overlap req a_gen <? 2)%nat)))%bool = false ->
    (negb (is_nil req') &&
     ((overlap req' a_gen <? 1)%nat ||
      (bool_decide (Py.lower target ∈ two_overlap_genres) &&
       (overlap req' a_gen <? 2)%nat)))%bool = false).
  { intros Hg. destruct (is_nil req) eqn:Hnil.
    - assert (require_artist_genres_any rules = []) as Hr.
      { unfold req in Hnil. by destruct (require_artist_genres_any rules). }
      destruct Hadj as [Hne|Ha]; [done|].
      unfold req'. by rewrite (relaxed_require_nil genre rules Hr Ha).
    - cbn [negb andb] in Hg. apply andb_false_iff. right.
      apply orb_false_iff in Hg as [H1 H2]. apply Nat.ltb_ge in H1.
      apply orb_false_iff. split; [apply Nat.ltb_ge; lia|].
      apply andb_false_iff in H2 as [H2|H2]; apply andb_false_iff; [by left|right].
      apply Nat.ltb_ge in H2. apply Nat.ltb_ge. lia. }
  destruct (negb (is_nil req) && _)%bool eqn:Hg; [done|].
  rewrite (Hgate eq_refl).
  set (nm := Py.lower (Py.or_str (name t) "")).
  destruct (existsb (fun tk => Py.contains tk nm)
              (map Py.lower (deny_name_contains rules))) eqn:Hd; [done|].
  rewrite (existsb_subset _ (map Py.lower (deny_name_contains
                                             (V2.relax_record env genre rules)))
             (map Py.lower (deny_name_contains rules))); [|  | exact Hd].
  2:{ intros x Hx. apply list_elem_of_fmap in Hx as (y & -> & Hy).
      apply list_elem_of_fmap_2. cbn [V2.relax_record deny_name_contains] in Hy.
      by apply list_elem_of_filter in Hy as [_ Hy]. }
  destruct (match year_of t with Some _ => _ | None => false end); [done|].
  destruct (match popularity_min rules with Some _ => _ | None => false end); [done|].
  by destruct (match popularity_max rules with Some _ => _ | None => false end).
Qed.

Lemma relax_accepts_more (table : gmap string rule) genre cands target t :
  (forall rules, table !! genre = Some rules ->
     NoDup (require_artist_genres_any rules) /\
     (require_artist_genres_any rules <> [] \/ V2.ADJACENT !! genre = None)) ->
  passes_rules table target t = true ->
  passes_rules (fst (V2.relax_rules_if_sparse env table genre cands)) target t = true.
Proof.
  intros Hrec Hp. unfold V2.relax_rules_if_sparse.
  destruct (4 <=? length cands)%nat; [done|].
  destruct (table !! genre) as [rules|] eqn:Hr; [|done]. cbn [fst].
  destruct (Hrec rules eq_refl) as [Hn Hadj].
  destruct (decide (Py.lower target = genre)) as [<-|Hne].
  - eapply passes_relaxed; [exact Hr | by rewrite lookup_insert_eq | done | done | done].
  - unfold passes_rules in *. by rewrite lookup_insert_ne.
Qed.

End Facts.

End Relax_accepts.

(** Relaxing the rules of a sparse genre in [v2.py] never turns away a track
    that the rules admitted before, for any target genre, provided that the
    require list of the record holds no entry twice and is not empty when the
    genre has adjacent genres: the relaxed record requires one of more tags,
    denies fewer title tokens and drops the popularity cap. *)
Theorem v2_relaxation_accepts_more {rng : Type} (env : environment rng)
    (table : gmap string rule) (genre : string) (cands : list track)
    (target : string) (t : track) :
  faithful_iteration env ->
  (forall rules, table !! genre = Some rules ->
     NoDup (require_artist_genres_any rules) /\
     (require_artist_genres_any rules <> [] \/ V2.ADJACENT !! genre = None)) ->
  V2_rules.passes_rules table target t = true ->
  V2_rules.passes_rules (fst (V2.relax_rules_if_sparse env table genre cands)) target t
  = true.
Proof. intros Hf. by apply Relax_accepts.relax_accepts_more. Qed.

Lemma v2_relaxation_accepts_more_witness :
  V2_rules.passes_rules
    (fst (V2.relax_rules_if_sparse env_forward (GENRE_RULES thrash_tables)
            "thrash metal" []))
    "thrash metal" thrash_quiet = true.
Proof.
  assert (H1 : faithful_iteration env_forward) by (intros l; reflexivity).
  assert (Hl : GENRE_RULES thrash_tables !! "thrash metal" = Some thrash_rule)
    by (vm_compute; reflexivity).
  assert (H2 : forall rules, GENRE_RULES thrash_tables !! "thrash metal" = Some rules ->
            NoDup (require_artist_genres_any rules) /\
            (require_artist_genres_any rules <> [] \/
             V2.ADJACENT !! "thrash metal" = None)).
  { intros rules Hr. rewrite Hl in Hr. injection Hr as <-. split.
    - apply (bool_decide_unpack _). vm_compute. reflexivity.
    - left. discriminate. }
  assert (H3 : V2_rules.passes_rules (GENRE_RULES thrash_tables) "thrash metal"
                 thrash_quiet = true) by (vm_compute; reflexivity).
  exact (v2_relaxation_accepts_more env_forward (GENRE_RULES thrash_tables)
           "thrash metal" [] "thrash metal" thrash_quiet H1 H2 H3).
Defined.

(** ** Every seed of [v2.py] is admissible ([v2.py] 1174-1248) *)

Module V2_accepted.
Import V2 V2_rules.

Section Facts.
Context {rng : Type} (rng_seed : Z -> rng) (rng_random : rng -> float * rng).
Variable GLOBAL_UNIQUENESS : bool.
Variable GENRE_TO_PARENT : gmap string string.
Variable tb : tables.
Variable env : environment rng.
Hypothesis faithful : faithful_iteration env.

Lemma relax_relaxable table genre cands :
  relaxable table -> relaxable (fst (relax_rules_if_sparse env table genre cands)).
Proof.
  intros Hok. unfold relax_rules_if_sparse.
  destruct (4 <=? length cands)%nat; [done|].
  destruct (table !! genre) as [rules|] eqn:Hr; [|done]. cbn [fst].
  intros g rules'. destruct (decide (genre = g)) as [<-|Hne].
  - rewrite lookup_insert_eq. intros [= <-].
    destruct (Hok genre rules Hr) as [Hn Hor].
    cbn [relax_record require_artist_genres_any]. split.
    + rewrite (faithful _). apply NoDup_remove_dups.
    + destruct Hor as [Hne|Ha]; [left | by right].
      destruct (require_artist_genres_any rules) as [|r req] eqn:Hreq; [done|].
      intros Hnil.
      assert (r ∈ set_iter env (remove_dups ((r :: req)
                                             ++ default [] (ADJACENT !! genre)))) as Hin.
      { rewrite (faithful _). apply elem_of_remove_dups. by left. }
      rewrite Hnil in Hin. by apply elem_of_nil in Hin.
  - rewrite lookup_insert_ne by done. apply Hok.
Qed.

Lemma relax_step table genre cands target t :
  relaxable table -> passes_rules table target t = true ->
  passes_rules (fst (relax_rules_if_sparse env table genre cands)) target t = true.
Proof.
  intros Hok. apply Relax_accepts.relax_accepts_more; [done|]. intros rules. apply Hok.
Qed.

Lemma gather_facts genre parent fam : forall bucket table cands,
  relaxable table ->
  let r := gather_candidates tb env genre parent fam bucket table cands in
  relaxable (fst r) /\
  (forall target t, passes_rules table target t = true ->
                    passes_rules (fst r) target t = true) /\
  (forall t, t ∈ snd r ->
     t ∈ cands \/
     (t ∈ bucket /\ genre_match (EXCLUSIONS tb) genre (norm_tags (raw_tags t)) = true /\
      passes_rules (fst r) genre t = true)).
Proof.
  induction bucket as [|x bucket IH]; intros table cands Hok; cbn [gather_candidates].
  - cbv zeta. cbn [fst snd]. split; [done|]. split; [done|]. intros t Ht. by left.
  - assert (Hskip :
      let r := gather_candidates tb env genre parent fam bucket table cands in
      relaxable (fst r) /\
      (forall target t, passes_rules table target t = true ->
                        passes_rules (fst r) target t = true) /\
      (forall t, t ∈ snd r ->
         t ∈ cands \/
         (t ∈ x :: bucket /\
          genre_match (EXCLUSIONS tb) genre (norm_tags (raw_tags t)) = true /\
          passes_rules (fst r) genre t = true))).
    { destruct (IH table cands Hok) as (H1 & H2 & H3). split; [done|]. split; [done|].
      intros t Ht. destruct (H3 t Ht) as [Hc|(Hb & Hm & Hp)]; [by left|].
      right. split; [by right | done]. }
    destruct (genre_match (EXCLUSIONS tb) genre (norm_tags (raw_tags x))) eqn:Hm;
      cbn [negb]; [|exact Hskip].
    destruct (passes_rules table genre x) eqn:Hp; cbn [negb]; [|exact Hskip].
    destruct (Py.truthy parent && negb (falsy (tid_uri_first x)) &&
              in_set (tid_uri_first x) fam)%bool; [exact Hskip|].
    clear Hskip.
    pose proof (V2_facts.relax_candidates env table genre (cands ++ [x])) as Hc.
    pose proof (relax_relaxable table genre (cands ++ [x]) Hok) as Hok1.
    pose proof (fun target t => relax_step table genre (cands ++ [x]) target t Hok)
      as Hmono.
    destruct (relax_rules_if_sparse env table genre (cands ++ [x])) as [table1 cands1].
    cbn [fst snd] in Hc, Hok1, Hmono. subst cands1.
    destruct (IH table1 (cands ++ [x]) Hok1) as (H1 & H2 & H3).
    split; [done|]. split; [intros target t Ht; by apply H2, Hmono|].
    intros t Ht. destruct (H3 t Ht) as [Hin|(Hb & Hm' & Hp')].
    + apply elem_of_app in Hin as [Hin|Hin]; [by left|].
      apply list_elem_of_singleton in Hin as ->. right.
      split; [by left|]. split; [done|]. by apply H2, Hmono.
    + right. split; [by right | done].
Qed.

Lemma dedupe_elem ig ag : forall l si sa t,
  t ∈ dedupe GLOBAL_UNIQUENESS ig ag si sa l ->
  t ∈ l /\ falsy (tid_id_first t) = false /\ Py.truthy (first_artist t) = true.
Proof.
  induction l as [|x l IH]; intros si sa t H; cbn [dedupe] in H;
    [by apply elem_of_nil in H|].
  assert (Hrest : forall si sa, t ∈ dedupe GLOBAL_UNIQUENESS ig ag si sa l ->
            t ∈ x :: l /\ falsy (tid_id_first t) = false /\
            Py.truthy (first_artist t) = true).
  { intros si' sa' Ht. destruct (IH si' sa' t Ht) as (? & ? & ?).
    split; [by right | done]. }
  destruct (falsy (tid_id_first x)) eqn:Hf; cbn [orb] in H; [by eapply Hrest|].
  destruct (Py.truthy (first_artist x)) eqn:Ha; cbn [negb] in H; [|by eapply Hrest].
  destruct (GLOBAL_UNIQUENESS && _)%bool; [by eapply Hrest|].
  destruct (in_set (tid_id_first x) si || _)%bool; [by eapply Hrest|].
  apply elem_of_cons in H as [->|H]; [|by eapply Hrest].
  split; [by left | done].
Qed.

Lemma select_genre_table idx (st : @state rng) genre :
  rules_table (select_genre rng_random GLOBAL_UNIQUENESS GENRE_TO_PARENT tb env idx
                 st genre)
  = fst (unique_candidates GLOBAL_UNIQUENESS GENRE_TO_PARENT tb env idx st genre).
Proof.
  unfold select_genre.
  destruct (unique_candidates GLOBAL_UNIQUENESS GENRE_TO_PARENT tb env idx st genre)
    as [table' unique].
  destruct (is_nil unique); [done|].
  destruct (score_all rng_random env genre unique (generator st)) as [scored g'].
  by destruct (pick_top_k _ _ _ _ _).
Qed.

Lemma select_genre_seeds_ok tracks (st : @state rng) genre :
  v2_seeds_ok tb tracks st ->
  v2_seeds_ok tb tracks
    (select_genre rng_random GLOBAL_UNIQUENESS GENRE_TO_PARENT tb env
       (index_tracks (TRACK_DENY_URIS tb) tracks) st genre).
Proof.
  intros [Hok Hres]. set (idx := index_tracks (TRACK_DENY_URIS tb) tracks).
  unfold v2_seeds_ok. rewrite select_genre_table.
  pose proof (V2_ranking.v2_select_genre_list rng_random GLOBAL_UNIQUENESS
                GENRE_TO_PARENT tb env idx st genre) as Hlist.
  pose proof (V2_ranking.v2_ranked_perm rng_random GLOBAL_UNIQUENESS GENRE_TO_PARENT
                tb env idx st genre) as Hperm.
  cbv zeta in Hlist. unfold unique_candidates in *.
  set (parent := default "" (GENRE_TO_PARENT !! genre)) in *.
  destruct (gather_facts genre parent
              (family_set (used_track_ids_by_parent st) parent)
              (bucket_of idx (Py.lower genre)) (rules_table st) [] Hok)
    as (Hok' & Hmono & Hcand).
  destruct (gather_candidates tb env genre parent _ _ (rules_table st) [])
    as [table' cands]. cbn [fst snd] in *.
  split; [done|]. intros g l t Hl Ht.
  destruct (decide (g = genre)) as [->|Hne].
  - rewrite Hlist in Hl. injection Hl as <-.
    apply elem_of_take in Ht as (i & Ht & _). apply list_elem_of_lookup_2 in Ht.
    apply list_elem_of_filter in Ht as [_ Ht]. rewrite Hperm in Ht.
    apply dedupe_elem in Ht as (Ht & Hf & Ha).
    destruct (Hcand t Ht) as [Hnil|(Hb & Hm & Hp)]; [by apply elem_of_nil in Hnil|].
    apply Index_buckets.bucket_mem in Hb as (Hin & Hd & Hk).
    by repeat split.
  - rewrite (V2_count.v2_select_genre_other rng_random GLOBAL_UNIQUENESS GENRE_TO_PARENT
               tb env idx st genre g Hne) in Hl.
    destruct (Hres g l t Hl Ht) as (? & ? & ? & ? & ? & ? & Hp).
    repeat split; try done. by apply Hmono.
Qed.

Lemma select_all_seeds_ok tracks :
  relaxable (GENRE_RULES tb) ->
  v2_seeds_ok tb tracks
    (select_all rng_seed rng_random GLOBAL_UNIQUENESS GENRE_TO_PARENT tb env tracks).
Proof.
  intros Hok. unfold select_all.
  apply Sel_facts.foldl_inv; [|intros; by apply select_genre_seeds_ok].
  split; [done|]. intros g l t H. cbn [results] in H. by rewrite lookup_empty in H.
Qed.

End Facts.

End V2_accepted.

(** Every seed of a genre of [v2.py] is a track of the dataset that is not on
    the URI deny list, carries the lower-cased genre name among its normalised
    tags, is accepted by [genre_match], has an identifier and a primary
    artist, and is accepted by [passes_rules] under the rule table as the run
    leaves it; this for a table in which no record lists a required tag twice
    and every record of a genre with adjacent genres has a require list. *)
Theorem v2_seeds_admissible {rng : Type}
    (rng_seed : Z -> rng) (rng_random : rng -> float * rng)
    (G : bool) (parents : gmap string string)
    (tb : tables) (env : environment rng) (tracks : list track)
    (genre : string) (l : list track) (t : track) :
  faithful_iteration env ->
  relaxable (GENRE_RULES tb) ->
  let final := V2.select_all rng_seed rng_random G parents tb env tracks in
  V2.results final !! genre = Some l ->
  t ∈ l ->
  t ∈ tracks /\
  in_set (tid_uri_first t) (TRACK_DENY_URIS tb) = false /\
  Py.lower genre ∈ norm_tags (raw_tags t) /\
  genre_match (EXCLUSIONS tb) genre (norm_tags (raw_tags t)) = true /\
  falsy (tid_id_first t) = false /\
  Py.truthy (first_artist t) = true /\
  V2_rules.passes_rules (V2.rules_table final) genre t = true.
Proof.
  intros Hf Hok final Hl Ht.
  destruct (V2_accepted.select_all_seeds_ok rng_seed rng_random G parents tb env Hf
              tracks Hok) as [_ Hres].
  exact (Hres genre l t Hl Ht).
Qed.

Lemma v2_seeds_admissible_witness :
  let final := V2.select_all toy_seed toy_random true ∅ thrash_tables env_forward
                             thrash_tracks in
  thrash_loud ∈ thrash_tracks /\
  in_set (tid_uri_first thrash_loud) (TRACK_DENY_URIS thrash_tables) = false /\
  Py.lower "thrash metal" ∈ norm_tags (raw_tags thrash_loud) /\
  genre_match (EXCLUSIONS thrash_tables) "thrash metal"
              (norm_tags (raw_tags thrash_loud)) = true /\
  falsy (tid_id_first thrash_loud) = false /\
  Py.truthy (first_artist thrash_loud) = true /\
  V2_rules.passes_rules (V2.rules_table final) "thrash metal" thrash_loud = true.
Proof.
  assert (H1 : faithful_iteration env_forward) by (intros l; reflexivity).
  assert (H2 : relaxable (GENRE_RULES thrash_tables)).
  { change (map_Forall (fun g rules => NoDup (require_artist_genres_any rules) /\
              (require_artist_genres_any rules <> [] \/ V2.ADJACENT !! g = None))
              (GENRE_RULES thrash_tables)).
    apply (bool_decide_unpack _). vm_compute. reflexivity. }
  assert (H3 : V2.results (V2.select_all toy_seed toy_random true ∅ thrash_tables
                             env_forward thrash_tracks) !! "thrash metal"
               = Some thrash_seeds) by (vm_compute; reflexivity).
  assert (H4 : thrash_loud ∈ thrash_seeds)
    by (apply list_elem_of_further, list_elem_of_here).
  exact (v2_seeds_admissible toy_seed toy_random true ∅ thrash_tables env_forward
           thrash_tracks "thrash metal" thrash_seeds thrash_loud H1 H2 H3 H4).
Defined.

(** ** Where the seeds of a synthetic node come from ([killmegod.py] 1641-1826) *)

Module Synthetic_facts.
Import Sel_facts Killmegod Killmegod_facts.

Lemma foldl_inv_prefix {A B} (Q : list B -> A -> Prop) (f : A -> B -> A) :
  (forall pre b a, Q pre a -> Q (pre ++ [b]) (f a b)) ->
  forall l a, Q [] a -> Q l (foldl f a l).
Proof.
  intros Hstep l.
  assert (forall pre a, Q pre a -> Q (pre ++ l) (foldl f a l)) as H.
  { induction l as [|b l IH]; intros pre a Ha; [by rewrite app_nil_r|].
    cbn [foldl]. rewrite (cons_middle b pre l), app_assoc. by apply IH, Hstep. }
  intros a Ha. by apply (H [] a).
Qed.

Section Facts.
Context {rng : Type}.
Variable cfg : config.
Variable tb : tables.
Variable tracks : list track.

Lemma synthetic_candidates_child seen agg children c :
  c ∈ synthetic_candidates cfg tb (index_tracks (TRACK_DENY_URIS tb) tracks)
        seen agg children ->
  exists child, child ∈ children /\ qualifies_for tb child (c_track c).
Proof.
  unfold synthetic_candidates. intros H.
  apply list_elem_of_In, in_flat_map in H as (child & Hchild & H).
  apply in_flat_map in H as (kv & Hkv & H).
  exists child. split; [by apply list_elem_of_In|].
  destruct (word_search (Py.lower child) (fst kv)) eqn:Hw; [|done].
  apply in_flat_map in H as (t & Ht & H).
  destruct (falsy (tid_uri_first t)) eqn:Hf; cbn [orb] in H; [done|].
  destruct (in_set (tid_uri_first t) seen); [done|].
  destruct (genre_match (EXCLUSIONS tb) child (norm_tags (raw_tags t))) eqn:Hm;
    cbn [negb] in H; [|done].
  destruct (Killmegod_rules.passes_rules (GENRE_RULES tb) child t) eqn:Hp;
    cbn [negb] in H; [|done].
  destruct H as [<-|[]]. cbn [c_track].
  apply list_elem_of_In in Hkv, Ht.
  destruct (index_tracks_keys_aux (TRACK_DENY_URIS tb) tracks kv t Hkv Ht)
    as (_ & Hd & Hk).
  repeat split; try done. by exists (fst kv).
Qed.

Lemma select_synthetic_picks (st : @state rng) path name children :
  exists l,
    results (select_synthetic cfg tb (index_tracks (TRACK_DENY_URIS tb) tracks) st
               (path, name, children)) !! name = Some l /\
    forall t, t ∈ l -> exists child, child ∈ children /\ qualifies_for tb child t.
Proof.
  set (idx := index_tracks (TRACK_DENY_URIS tb) tracks).
  unfold select_synthetic.
  destruct (compute_aggregate_features cfg (results st) children) as [agg|].
  2:{ exists []. cbn [results]. rewrite lookup_insert_eq. split; [done|].
      intros t Ht. by apply elem_of_nil in Ht. }
  destruct (bool_decide (agg = ∅)).
  { exists []. cbn [results]. rewrite lookup_insert_eq. split; [done|].
    intros t Ht. by apply elem_of_nil in Ht. }
  set (sorted := map snd (sort_asc (map (fun c => (c_distance c, c))
        (dedupe_candidates ∅ (synthetic_candidates cfg tb idx (global_seen_ids st)
                                 agg children))))).
  assert (forall c, c ∈ sorted ->
            falsy (tid_uri_first (c_track c)) = false /\
            exists child, child ∈ children /\ qualifies_for tb child (c_track c)) as Htr.
  { intros c Hx. unfold sorted in Hx. rewrite sorted_candidates_perm in Hx.
    apply dedupe_candidates_sub in Hx.
    pose proof (synthetic_candidates_child _ _ _ _ Hx) as (child & Hc & Hq).
    split; [by destruct Hq | by exists child]. }
  destruct (first_pass_inv (global_seen_ids st) (global_seen_artists st) children
              (Picking [] (global_seen_ids st) (global_seen_artists st) sorted))
    as (H1 & H2 & H3 & H4 & H5 & H6); simpl; try done.
  { intros c Hc. by apply Htr. }
  { intros t Hx. by apply elem_of_nil in Hx. }
  { intros t Hx. by apply elem_of_nil in Hx. }
  set (p := first_pass children _) in *.
  destruct (second_pass (remaining p) (selected p) (p_ids p) (p_artists p))
    as [[sel ids] arts] eqn:Hsp.
  apply (second_pass_inv (global_seen_ids st) (global_seen_artists st)) in Hsp
    as (_ & _ & _ & _ & Hfrom); try done.
  - exists sel. cbn [results]. rewrite lookup_insert_eq. split; [done|]. intros t Ht.
    destruct (Hfrom t Ht) as [Hsel|(c & Hc & ->)].
    + destruct (H6 t Hsel) as [Hn|(c & Hc & ->)]; [by apply elem_of_nil in Hn|].
      simpl in Hc. by apply Htr.
    + apply Htr. by apply H5.
  - intros c Hx. apply Htr. by apply H5.
Qed.

Lemma select_synthetic_from_children pre syn (st : @state rng) :
  synthetic_from_children tb pre (results st) ->
  synthetic_from_children tb (pre ++ [syn])
    (results (select_synthetic cfg tb (index_tracks (TRACK_DENY_URIS tb) tracks) st syn)).
Proof.
  intros Hinv name l t Hname Hl Ht. destruct syn as [[path sname] children].
  destruct (decide (name = sname)) as [->|Hne].
  - destruct (select_synthetic_picks st path sname children) as (l' & Hl' & Hq).
    rewrite Hl' in Hl. injection Hl as <-.
    destruct (Hq t Ht) as (child & Hc & Hqual).
    exists (path, sname, children). split; [apply elem_of_app; right; by left|].
    split; [done|]. by exists child.
  - rewrite (Killmegod_count.select_synthetic_other cfg tb _ st (path, sname, children)
               name Hne) in Hl.
    rewrite map_app in Hname. apply elem_of_app in Hname as [Hname|Hname].
    + destruct (Hinv name l t Hname Hl Ht) as (syn & Hs & Hn & Hc).
      exists syn. split; [apply elem_of_app; by left | done].
    + apply list_elem_of_singleton in Hname. done.
Qed.

End Facts.

End Synthetic_facts.

(** Every seed stored under the display name of a synthetic node of
    [killmegod.py] was taken for a child genre of a synthetic node of that
    name: it has an identifier, is not on the URI deny list, carries a tag
    that contains the name of the child genre on word boundaries, and is
    accepted by [genre_match] and [passes_rules] for that child genre. *)
Theorem killmegod_synthetic_seeds_from_children {rng : Type}
    (rng_seed : Z -> rng) (rng_random : rng -> float * rng)
    (cfg : config) (tb : tables) (env : environment rng) (tracks : list track)
    (name : string) (l : list track) (t : track) :
  name ∈ synthetic_names tb ->
  Killmegod.results (Killmegod.select_all rng_seed rng_random cfg tb env tracks) !! name
    = Some l ->
  t ∈ l ->
  exists syn, syn ∈ Killmegod.gather_synthetic_genres (GENRE_TREE tb) /\
    snd (fst syn) = name /\
    exists child, child ∈ snd syn /\
      falsy (tid_uri_first t) = false /\
      in_set (tid_uri_first t) (TRACK_DENY_URIS tb) = false /\
      (exists tag, tag ∈ norm_tags (raw_tags t) /\
                   word_search (Py.lower child) tag = true) /\
      genre_match (EXCLUSIONS tb) child (norm_tags (raw_tags t)) = true /\
      Killmegod_rules.passes_rules (GENRE_RULES tb) child t = true.
Proof.
  intros Hname Hl Ht. unfold Killmegod.select_all in Hl.
  eapply (Synthetic_facts.foldl_inv_prefix
            (fun pre st => synthetic_from_children tb pre (Killmegod.results st)));
    [| |exact Hname|exact Hl|exact Ht].
  - intros pre b a. apply Synthetic_facts.select_synthetic_from_children.
  - intros n l' t' Hn. by apply elem_of_nil in Hn.
Qed.

Lemma killmegod_synthetic_seeds_from_children_witness :
  let t := first_of heavy_seeds in
  exists syn, syn ∈ Killmegod.gather_synthetic_genres (GENRE_TREE heavy_tables) /\
    snd (fst syn) = "Heavy" /\
    exists child, child ∈ snd syn /\
      falsy (tid_uri_first t) = false /\
      in_set (tid_uri_first t) (TRACK_DENY_URIS heavy_tables) = false /\
      (exists tag, tag ∈ norm_tags (raw_tags t) /\
                   word_search (Py.lower child) tag = true) /\
      genre_match (EXCLUSIONS heavy_tables) child (norm_tags (raw_tags t)) = true /\
      Killmegod_rules.passes_rules (GENRE_RULES heavy_tables) child t = true.
Proof.
  assert (H1 : "Heavy" ∈ synthetic_names heavy_tables)
    by (vm_compute; apply list_elem_of_here).
  assert (H2 : Killmegod.results
                 (Killmegod.select_all toy_seed toy_random CONFIG heavy_tables
                    env_forward heavy_tracks) !! "Heavy" = Some heavy_seeds)
    by (vm_compute; reflexivity).
  exact (killmegod_synthetic_seeds_from_children toy_seed toy_random CONFIG heavy_tables
           env_forward heavy_tracks "Heavy" heavy_seeds (first_of heavy_seeds)
           H1 H2 (list_elem_of_here _ _)).
Defined.
